(** * Reference arithmetic coding: the coder of ArithmeticCoder.cpp

    A shallow embedding of the shared interval state machine
    ([ArithmeticCoderBase]), of the encoder and of the decoder, followed by
    the properties of the coder. Unsigned 64-bit and 32-bit values are
    integers of [Z] with the wrap-around written at every operation that can
    wrap in the C++ source. *)

From Stdlib Require Import ZArith List Lia Bool.
Import ListNotations.
Local Open Scope Z_scope.

(** ** Machine arithmetic *)

Definition UINT64_MAX : Z := 2 ^ 64 - 1.

(** Reduction of a mathematical result to [uint64_t] and [uint32_t]. *)
Definition u64 (x : Z) : Z := x mod 2 ^ 64.
Definition u32 (x : Z) : Z := x mod 2 ^ 32.

(** [static_cast<int>] of an unsigned 64-bit value (two's complement). *)
Definition to_int (x : Z) : Z := (x + 2 ^ 31) mod 2 ^ 32 - 2 ^ 31.

Definition shl64 (x n : Z) : Z := u64 (Z.shiftl x n).
Definition not64 (x : Z) : Z := u64 (Z.lnot x).

(** ** Failures

    One constructor per [throw] of the source; [DivisionByZero] marks the
    two divisions whose divisor the source does not check, and [OutOfFuel] a
    loop cut short by the fuel of the model. *)

Inductive error : Type :=
| StateSizeOutOfRange      (* domain_error, constructor *)
| LowOrHighOutOfRange      (* logic_error, start of update *)
| RangeOutOfRange          (* logic_error, start of update *)
| SymbolHasZeroFrequency   (* invalid_argument, update *)
| TotalTooLargeToCode      (* invalid_argument, update *)
| TotalTooLargeToDecode    (* invalid_argument, read *)
| AssertionError           (* logic_error, the four plain assertions of read *)
| CodeOutOfRange           (* logic_error, end of read *)
| MaximumUnderflowReached  (* overflow_error, encoder underflow *)
| DivisionByZero
| OutOfFuel.

Inductive res (A : Type) : Type :=
| Ok (a : A)
| Err (e : error).
Arguments Ok {A} a.
Arguments Err {A} e.

Definition is_invalid_argument (e : error) : bool :=
  match e with
  | SymbolHasZeroFrequency | TotalTooLargeToCode | TotalTooLargeToDecode => true
  | _ => false
  end.

(** ** Frequency tables (consumed interface) *)

(** Modelled from the spec: the abstract class [FrequencyTable] is declared
    in a header of its own, FrequencyTable.hpp. The coder calls four of its
    accessors and stores what they return in [uint32_t] variables. *)
Record FrequencyTable : Type := {
  getSymbolLimit : Z;
  getTotal : Z;
  getLow : Z -> Z;
  getHigh : Z -> Z
}.

(** The contract of the interface: cumulative frequencies start at 0, do not
    decrease, chain from one symbol to the next and end at the total. *)
Definition table_contract (t : FrequencyTable) : Prop :=
  1 <= getSymbolLimit t /\
  getLow t 0 = 0 /\
  (forall s, 0 <= s < getSymbolLimit t -> getLow t s <= getHigh t s) /\
  (forall s, 0 <= s -> s + 1 < getSymbolLimit t -> getHigh t s = getLow t (s + 1)) /\
  getHigh t (getSymbolLimit t - 1) = getTotal t.

(** A table given by the list of its frequencies, as a concrete table class
    would hold it. *)
Fixpoint sum_list (l : list Z) : Z :=
  match l with
  | [] => 0
  | x :: r => x + sum_list r
  end.

Definition table_of_freqs (fs : list Z) : FrequencyTable := {|
  getSymbolLimit := Z.of_nat (length fs);
  getTotal := sum_list fs;
  getLow := fun s => sum_list (firstn (Z.to_nat s) fs);
  getHigh := fun s => sum_list (firstn (Z.to_nat s + 1) fs)
|}.

(** ** The shared interval state: [ArithmeticCoderBase] *)

(** The fields of the class. They are declared in ArithmeticCoder.hpp; the
    source computes with them in [uint64_t] ([range], [newLow], [newHigh],
    [offset] and [value] are declared so), which is the width taken here. *)
Record ArithmeticCoderBase : Type := {
  numStateBits : Z;
  fullRange : Z;
  halfRange : Z;
  quarterRange : Z;
  MIN_RANGE : Z;
  MAX_TOTAL : Z;
  MASK : Z;
  low : Z;
  high : Z
}.

(** The constructor (lines 17-29). *)
Definition ArithmeticCoderBase_new (stateSize : Z) : res ArithmeticCoderBase :=
  if (stateSize <? 1) || (stateSize >? 63) then Err StateSizeOutOfRange
  else
    let full := shl64 1 stateSize in
    let half := Z.shiftr full 1 in
    let quarter := Z.shiftr half 1 in
    let minr := u64 (Z.shiftr full 2 + 2) in
    let maxt := Z.min (UINT64_MAX / full) minr in
    let mask := u64 (full - 1) in
    Ok {| numStateBits := stateSize;
          fullRange := full;
          halfRange := half;
          quarterRange := quarter;
          MIN_RANGE := minr;
          MAX_TOTAL := maxt;
          MASK := mask;
          low := 0;
          high := mask |}.

(** Assignment to [low] and [high]. *)
Definition with_interval (c : ArithmeticCoderBase) (l h : Z) : ArithmeticCoderBase :=
  {| numStateBits := numStateBits c;
     fullRange := fullRange c;
     halfRange := halfRange c;
     quarterRange := quarterRange c;
     MIN_RANGE := MIN_RANGE c;
     MAX_TOTAL := MAX_TOTAL c;
     MASK := MASK c;
     low := l;
     high := h |}.

(** The two virtual member functions a derived coder supplies. A hook sees
    the interval state and owns a state [X] of its own; a hook that throws
    does so before it changes anything. *)
Class CoderHooks (X : Type) : Type := {
  shift : ArithmeticCoderBase -> X -> res X;
  underflow : ArithmeticCoderBase -> X -> res X
}.

(** The outcome of a member function: what it returned or threw, and the
    state of the object at that point. *)
Definition outcome (A X : Type) : Type := (res A * (ArithmeticCoderBase * X))%type.

Section Update.
Context {X : Type} `{CoderHooks X}.

(** Loop conditions and the interval part of the loop bodies. *)
Definition top_bits_equal (c : ArithmeticCoderBase) : bool :=
  Z.land (Z.lxor (low c) (high c)) (halfRange c) =? 0.

Definition second_bits_straddle (c : ArithmeticCoderBase) : bool :=
  negb (Z.land (Z.land (low c) (not64 (high c))) (quarterRange c) =? 0).

Definition shift_interval (c : ArithmeticCoderBase) : ArithmeticCoderBase :=
  with_interval c
    (Z.land (shl64 (low c) 1) (MASK c))
    (Z.lor (Z.land (shl64 (high c) 1) (MASK c)) 1).

Definition underflow_interval (c : ArithmeticCoderBase) : ArithmeticCoderBase :=
  with_interval c
    (Z.land (shl64 (low c) 1) (Z.shiftr (MASK c) 1))
    (Z.lor (Z.lor (Z.land (shl64 (high c) 1) (Z.shiftr (MASK c) 1)) (halfRange c)) 1).

(** [while (((low ^ high) & halfRange) == 0)] *)
Fixpoint shift_loop (fuel : nat) (c : ArithmeticCoderBase) (x : X) : outcome unit X :=
  if top_bits_equal c then
    match fuel with
    | O => (Err OutOfFuel, (c, x))
    | S f =>
        match shift c x with
        | Err e => (Err e, (c, x))
        | Ok x' => shift_loop f (shift_interval c) x'
        end
    end
  else (Ok tt, (c, x)).

(** [while ((low & ~high & quarterRange) != 0)] *)
Fixpoint underflow_loop (fuel : nat) (c : ArithmeticCoderBase) (x : X) : outcome unit X :=
  if second_bits_straddle c then
    match fuel with
    | O => (Err OutOfFuel, (c, x))
    | S f =>
        match underflow c x with
        | Err e => (Err e, (c, x))
        | Ok x' => underflow_loop f (underflow_interval c) x'
        end
    end
  else (Ok tt, (c, x)).

(** The two loops as the source runs them: the first to exhaustion, then
    the second. *)
Definition renormalize (fuel : nat) (c : ArithmeticCoderBase) (x : X) : outcome unit X :=
  match shift_loop fuel c x with
  | (Ok _, (c1, x1)) => underflow_loop fuel c1 x1
  | r => r
  end.

(** The narrowing of lines 52-56, in 64-bit arithmetic. *)
Definition narrow (c : ArithmeticCoderBase) (symLow symHigh total : Z) : ArithmeticCoderBase :=
  let range := u64 (high c - low c + 1) in
  let newLow := u64 (low c + u64 (symLow * range) / total) in
  let newHigh := u64 (u64 (low c + u64 (symHigh * range) / total) - 1) in
  with_interval c newLow newHigh.

(** [ArithmeticCoderBase::update] (lines 35-71). The division by [total]
    is undefined for a total of 0, which no check of the source excludes. *)
Definition update (fuel : nat) (freqs : FrequencyTable) (symbol : Z)
    (c : ArithmeticCoderBase) (x : X) : outcome unit X :=
  if (low c >=? high c)
     || negb (Z.land (low c) (MASK c) =? low c)
     || negb (Z.land (high c) (MASK c) =? high c)
  then (Err LowOrHighOutOfRange, (c, x))
  else
    let range := u64 (high c - low c + 1) in
    if (range <? MIN_RANGE c) || (range >? fullRange c)
    then (Err RangeOutOfRange, (c, x))
    else
      let total := getTotal freqs in
      let symLow := getLow freqs symbol in
      let symHigh := getHigh freqs symbol in
      if symLow =? symHigh then (Err SymbolHasZeroFrequency, (c, x))
      else if total >? MAX_TOTAL c then (Err TotalTooLargeToCode, (c, x))
      else if total =? 0 then (Err DivisionByZero, (c, x))
      else renormalize fuel (narrow c symLow symHigh total) x.

(** The renormalization as the specification words it: one loop that
    checks top-bit agreement first on every iteration and the underflow
    condition only when the top bits differ. *)
Fixpoint renormalize_interleaved (fuel : nat) (c : ArithmeticCoderBase) (x : X)
    : outcome unit X :=
  if top_bits_equal c then
    match fuel with
    | O => (Err OutOfFuel, (c, x))
    | S f =>
        match shift c x with
        | Err e => (Err e, (c, x))
        | Ok x' => renormalize_interleaved f (shift_interval c) x'
        end
    end
  else if second_bits_straddle c then
    match fuel with
    | O => (Err OutOfFuel, (c, x))
    | S f =>
        match underflow c x with
        | Err e => (Err e, (c, x))
        | Ok x' => renormalize_interleaved f (underflow_interval c) x'
        end
    end
  else (Ok tt, (c, x)).

(** What can make a loop fail: the fuel runs out, or a hook fails. *)
Definition hook_error (e : error) : Prop :=
  e = OutOfFuel \/
  (exists c x, shift c x = Err e) \/ (exists c x, underflow c x = Err e).

(** The two loops, each with a fuel of its own. *)
Definition renormalize2 (f g : nat) (c : ArithmeticCoderBase) (x : X) : outcome unit X :=
  match shift_loop f c x with
  | (Ok _, (c1, x1)) => underflow_loop g c1 x1
  | r => r
  end.

End Update.

(** ** Bit streams (consumed interface) *)

(** Modelled from the spec: [BitInputStream::read] belongs to the bit
    reader, a class outside ArithmeticCoder.cpp. It yields the bits of its
    stream, 0 or 1, and then the end-of-stream value -1 for ever. *)
Definition BitInputStream_read (input : list Z) : Z * list Z :=
  match input with
  | [] => (-1, [])
  | t :: rest => (t, rest)
  end.

(** Modelled from the spec: [BitOutputStream::write] belongs to the bit
    writer, a class outside ArithmeticCoder.cpp. It appends the bit it is
    given. *)
Definition BitOutputStream_write (output : list Z) (b : Z) : list Z :=
  output ++ [b].

(** ** [ArithmeticDecoder] *)

Record DecoderState : Type := {
  input : list Z;
  code : Z
}.

(** [ArithmeticDecoder::readCodeBit] (lines 129-134). *)
Definition readCodeBit (inp : list Z) : Z * list Z :=
  let (temp, rest) := BitInputStream_read inp in
  (if temp =? -1 then 0 else temp, rest).

(** [ArithmeticDecoder::shift] (lines 119-121). *)
Definition Decoder_shift (c : ArithmeticCoderBase) (d : DecoderState) : res DecoderState :=
  let (bit, rest) := readCodeBit (input d) in
  Ok {| input := rest;
        code := Z.lor (Z.land (shl64 (code d) 1) (MASK c)) bit |}.

(** [ArithmeticDecoder::underflow] (lines 124-126). *)
Definition Decoder_underflow (c : ArithmeticCoderBase) (d : DecoderState) : res DecoderState :=
  let (bit, rest) := readCodeBit (input d) in
  Ok {| input := rest;
        code := Z.lor (Z.lor (Z.land (code d) (halfRange c))
                             (Z.land (shl64 (code d) 1) (Z.shiftr (MASK c) 1)))
                      bit |}.

#[export] Instance DecoderHooks : CoderHooks DecoderState := {|
  shift := Decoder_shift;
  underflow := Decoder_underflow
|}.

(** The priming loop of the constructor: [n] more bits to read. *)
Fixpoint prime_code (n : nat) (d : DecoderState) : DecoderState :=
  match n with
  | O => d
  | S k =>
      let (bit, rest) := readCodeBit (input d) in
      prime_code k {| input := rest; code := Z.lor (shl64 (code d) 1) bit |}
  end.

(** The constructor (lines 74-80). *)
Definition ArithmeticDecoder_new (stateSize : Z) (inp : list Z)
    : res (ArithmeticCoderBase * DecoderState) :=
  match ArithmeticCoderBase_new stateSize with
  | Err e => Err e
  | Ok c => Ok (c, prime_code (Z.to_nat (numStateBits c)) {| input := inp; code := 0 |})
  end.

(** The search loop of [read], on [uint32_t] indices: the pair it stops at,
    or nothing when the fuel runs out first. *)
Fixpoint search (fuel : nat) (freqs : FrequencyTable) (value start end_ : Z)
    : option (Z * Z) :=
  if u32 (end_ - start) >? 1 then
    match fuel with
    | O => None
    | S f =>
        let middle := Z.shiftr (u32 (start + end_)) 1 in
        if getLow freqs middle >? value
        then search f freqs value start middle
        else search f freqs value middle end_
    end
  else Some (start, end_).

(** [ArithmeticDecoder::read] (lines 83-116). The two divisions are
    undefined for a divisor of 0. *)
Definition read (fuel : nat) (freqs : FrequencyTable)
    (c : ArithmeticCoderBase) (d : DecoderState) : outcome Z DecoderState :=
  let total := getTotal freqs in
  if total >? MAX_TOTAL c then (Err TotalTooLargeToDecode, (c, d))
  else
    let range := u64 (high c - low c + 1) in
    let offset := u64 (code d - low c) in
    if range =? 0 then (Err DivisionByZero, (c, d))
    else
      let value := u64 (u64 (u64 (offset + 1) * total) - 1) / range in
      if total =? 0 then (Err DivisionByZero, (c, d))
      else if u64 (value * range) / total >? offset then (Err AssertionError, (c, d))
      else if value >=? total then (Err AssertionError, (c, d))
      else
        match search fuel freqs value 0 (getSymbolLimit freqs) with
        | None => (Err OutOfFuel, (c, d))
        | Some (start, end_) =>
            if negb (u32 (start + 1) =? end_) then (Err AssertionError, (c, d))
            else
              let symbol := start in
              if (offset <? u64 (getLow freqs symbol * range) / total)
                 || (u64 (getHigh freqs symbol * range) / total <=? offset)
              then (Err AssertionError, (c, d))
              else
                match update fuel freqs symbol c d with
                | (Ok _, (c', d')) =>
                    if (code d' <? low c') || (code d' >? high c')
                    then (Err CodeOutOfRange, (c', d'))
                    else (Ok symbol, (c', d'))
                | (Err e, st) => (Err e, st)
                end
        end.

(** ** [ArithmeticEncoder] *)

(** The output stream and the counter of pending underflow bits. The type
    of [numUnderflow] is declared in ArithmeticCoder.hpp; its largest value,
    [numeric_limits<decltype(numUnderflow)>::max()], is the parameter [umax]
    of [Encoder_underflow]. *)
Record EncoderState : Type := {
  output : list Z;
  numUnderflow : Z
}.

(** [ArithmeticEncoder::shift] (lines 153-160): the top bit of [low], then
    [numUnderflow] copies of its complement, which the [for] loop counts
    down to 0. *)
Definition Encoder_shift (c : ArithmeticCoderBase) (e : EncoderState) : res EncoderState :=
  let bit := to_int (Z.shiftr (low c) (numStateBits c - 1)) in
  Ok {| output := BitOutputStream_write (output e) bit
                    ++ repeat (Z.lxor bit 1) (Z.to_nat (numUnderflow e));
        numUnderflow := 0 |}.

(** [ArithmeticEncoder::underflow] (lines 163-167). *)
Definition Encoder_underflow (umax : Z) (c : ArithmeticCoderBase) (e : EncoderState)
    : res EncoderState :=
  if numUnderflow e =? umax then Err MaximumUnderflowReached
  else Ok {| output := output e; numUnderflow := numUnderflow e + 1 |}.

Definition EncoderHooks (umax : Z) : CoderHooks EncoderState := {|
  shift := Encoder_shift;
  underflow := Encoder_underflow umax
|}.

(** The constructor (lines 137-140). *)
Definition ArithmeticEncoder_new (stateSize : Z) (out : list Z)
    : res (ArithmeticCoderBase * EncoderState) :=
  match ArithmeticCoderBase_new stateSize with
  | Err e => Err e
  | Ok c => Ok (c, {| output := out; numUnderflow := 0 |})
  end.

(** [ArithmeticEncoder::write] (lines 143-145). *)
Definition write (umax : Z) (fuel : nat) (freqs : FrequencyTable) (symbol : Z)
    (c : ArithmeticCoderBase) (e : EncoderState) : outcome unit EncoderState :=
  @update _ (EncoderHooks umax) fuel freqs symbol c e.

(** [ArithmeticEncoder::finish] (lines 148-150). *)
Definition finish (c : ArithmeticCoderBase) (e : EncoderState)
    : ArithmeticCoderBase * EncoderState :=
  (c, {| output := BitOutputStream_write (output e) 1;
         numUnderflow := numUnderflow e |}).

(** ** Whole runs *)

(** One [write] per symbol, stopping at the first failure. *)
Fixpoint write_all (umax : Z) (fuel : nat) (freqs : FrequencyTable) (syms : list Z)
    (c : ArithmeticCoderBase) (e : EncoderState) : outcome unit EncoderState :=
  match syms with
  | [] => (Ok tt, (c, e))
  | s :: rest =>
      match write umax fuel freqs s c e with
      | (Ok _, (c', e')) => write_all umax fuel freqs rest c' e'
      | r => r
      end
  end.

(** Encoder constructed on an empty stream, one [write] per symbol, then
    [finish]: the bits written. *)
Definition encode (stateSize umax : Z) (fuel : nat) (freqs : FrequencyTable)
    (syms : list Z) : res (list Z) :=
  match ArithmeticEncoder_new stateSize [] with
  | Err e => Err e
  | Ok (c, e) =>
      match write_all umax fuel freqs syms c e with
      | (Ok _, (c', e')) => Ok (output (snd (finish c' e')))
      | (Err er, _) => Err er
      end
  end.

(** [n] calls of [read], stopping at the first failure. *)
Fixpoint read_all (fuel : nat) (freqs : FrequencyTable) (n : nat)
    (c : ArithmeticCoderBase) (d : DecoderState) : outcome (list Z) DecoderState :=
  match n with
  | O => (Ok [], (c, d))
  | S k =>
      match read fuel freqs c d with
      | (Ok s, (c', d')) =>
          match read_all fuel freqs k c' d' with
          | (Ok l, st) => (Ok (s :: l), st)
          | r => r
          end
      | (Err e, st) => (Err e, st)
      end
  end.

(** Decoder constructed on the bit stream, then [n] symbols read. *)
Definition decode (stateSize : Z) (fuel : nat) (freqs : FrequencyTable)
    (n : nat) (bits : list Z) : res (list Z) :=
  match ArithmeticDecoder_new stateSize bits with
  | Err e => Err e
  | Ok (c, d) => fst (read_all fuel freqs n c d)
  end.

(** Hooks that only record the order in which they are called. *)
Inductive hook_call : Type := ShiftCall | UnderflowCall.

Definition TraceHooks : CoderHooks (list hook_call) := {|
  shift := fun _ tr => Ok (tr ++ [ShiftCall]);
  underflow := fun _ tr => Ok (tr ++ [UnderflowCall])
|}.

(** ** A table with more than 2^31 symbols

    Every symbol but the last has frequency 0, so every cumulative low is 0
    and the total is 1. *)
Definition sparse_table : FrequencyTable := {|
  getSymbolLimit := 2 ^ 31 + 1;
  getTotal := 1;
  getLow := fun _ => 0;
  getHigh := fun s => if s =? 2 ^ 31 then 1 else 0
|}.

(** The search when every comparison sends it to the right: the next
    [start], the [start] after [k] iterations, and whether the loop
    condition holds at each of the first [k] iterations. *)
Definition search_right (end_ start : Z) : Z := Z.shiftr (u32 (start + end_)) 1.

Fixpoint search_orbit (k : nat) (end_ start : Z) : Z :=
  match k with
  | O => start
  | S k' => search_orbit k' end_ (search_right end_ start)
  end.

Fixpoint keeps_searching (k : nat) (end_ start : Z) : bool :=
  match k with
  | O => true
  | S k' => (u32 (end_ - start) >? 1) && keeps_searching k' end_ (search_right end_ start)
  end.

(** The coder of state size 8 as constructed. *)
Definition coder8 : ArithmeticCoderBase :=
  {| numStateBits := 8; fullRange := 256; halfRange := 128; quarterRange := 64;
     MIN_RANGE := 66; MAX_TOTAL := 66; MASK := 255; low := 0; high := 255 |}.

(** ** Predicates of the specification *)

(** The constants a coder of state size [b] carries. *)
Definition coder_consts (b : Z) (c : ArithmeticCoderBase) : Prop :=
  numStateBits c = b /\
  fullRange c = 2 ^ b /\
  halfRange c = 2 ^ (b - 1) /\
  quarterRange c = 2 ^ b / 4 /\
  MIN_RANGE c = 2 ^ b / 4 + 2 /\
  MAX_TOTAL c = Z.min (UINT64_MAX / 2 ^ b) (2 ^ b / 4 + 2) /\
  MASK c = 2 ^ b - 1.

(** The interval invariant of the data model. *)
Definition state_ok (c : ArithmeticCoderBase) : Prop :=
  0 <= low c /\ low c < high c /\ high c <= MASK c /\
  MIN_RANGE c <= high c - low c + 1 /\ high c - low c + 1 <= fullRange c.

(** The decoder's window lies in the interval. *)
Definition code_ok (c : ArithmeticCoderBase) (d : DecoderState) : Prop :=
  low c <= code d /\ code d <= high c.

Definition is_bit (z : Z) : Prop := z = 0 \/ z = 1.

(** What the proofs use of the constants, without powers. *)
Definition consts_facts (c : ArithmeticCoderBase) : Prop :=
  1 <= halfRange c /\
  fullRange c = 2 * halfRange c /\
  MASK c = 2 * halfRange c - 1 /\
  MIN_RANGE c = quarterRange c + 2 /\
  (halfRange c = 1 /\ quarterRange c = 0 \/
   halfRange c = 2 * quarterRange c /\ 1 <= quarterRange c) /\
  0 <= MAX_TOTAL c <= MIN_RANGE c /\
  MAX_TOTAL c * fullRange c <= 2 ^ 64 - 1 /\
  fullRange c <= 2 ^ 63.

(** The interval between the narrowing and the loops, after the first
    loop, and after both. *)
Definition pre_ok (c : ArithmeticCoderBase) : Prop :=
  0 <= low c /\ low c <= high c /\ high c <= MASK c.

Definition split_ok (c : ArithmeticCoderBase) : Prop :=
  0 <= low c /\ low c < halfRange c /\ halfRange c <= high c /\ high c <= MASK c.

Definition renormalized (c : ArithmeticCoderBase) : Prop :=
  split_ok c /\
  ~ (1 <= quarterRange c /\ quarterRange c <= low c /\
     high c < halfRange c + quarterRange c).

(** What the coder asks of a table and a symbol it codes. *)
Definition codable (c : ArithmeticCoderBase) (t : FrequencyTable) (s : Z) : Prop :=
  0 <= getLow t s /\ getLow t s < getHigh t s /\ getHigh t s <= getTotal t /\
  getTotal t <= MAX_TOTAL c.

(** ** The bits ahead of a coder

    A bit stream is the list of its bits followed by zeros, which is how the
    decoder reads it. *)

(** The first [n] bits of a stream as a number, most significant first. *)
Fixpoint val (n : nat) (G : list Z) : Z :=
  match n with
  | O => 0
  | S k => hd 0 G * 2 ^ Z.of_nat k + val k (tl G)
  end.

(** The window a decoder holds when the bits still to come are [F] and [nu]
    underflow bits are pending: the first bit of [F], then the bits after the
    [nu] pending ones. *)
Definition codeOf (c : ArithmeticCoderBase) (nu : nat) (F : list Z) : Z :=
  hd 0 F * halfRange c + val (Z.to_nat (numStateBits c - 1)) (skipn (S nu) F).

(** The pending bits are the complement of the bit that resolves them. *)
Definition pending (nu : nat) (F : list Z) : Prop :=
  forall i, (1 <= i <= nu)%nat -> nth i F 0 = 1 - hd 0 F.

(** The stream [F] an encoder is about to write, with [nu] pending underflow
    bits, names a point of the interval. *)
Definition contains (c : ArithmeticCoderBase) (nu : nat) (F : list Z) : Prop :=
  Forall is_bit F /\ pending nu F /\
  low c <= codeOf c nu F /\ codeOf c nu F <= high c.

(** The decoder has read exactly the window of [F]. *)
Definition synced (c : ArithmeticCoderBase) (nu : nat) (F : list Z)
    (d : DecoderState) : Prop :=
  code d = codeOf c nu F /\
  input d = skipn (nu + Z.to_nat (numStateBits c)) F.

(** The pending underflow count of an encoder, as a number of bits. *)
Definition pendingBits (e : EncoderState) : nat := Z.to_nat (numUnderflow e).

(** Every symbol of a message is a symbol of the table with a nonzero
    frequency. *)
Definition symbols_ok (t : FrequencyTable) (syms : list Z) : Prop :=
  Forall (fun s => 0 <= s < getSymbolLimit t /\ getLow t s <> getHigh t s) syms.

(** The largest total a coder of state size [b] accepts, as the
    specification gives it. *)
Definition maxTotal (b : Z) : Z := Z.min (UINT64_MAX / 2 ^ b) (2 ^ b / 4 + 2).

(** ** Runs with one table per symbol

    [write] and [read] take the table at every call, so a model may change
    it from one symbol to the next. *)

(** One [write] per pair of a table and a symbol, stopping at the first
    failure. *)
Fixpoint write_seq (umax : Z) (fuel : nat) (msg : list (FrequencyTable * Z))
    (c : ArithmeticCoderBase) (e : EncoderState) : outcome unit EncoderState :=
  match msg with
  | [] => (Ok tt, (c, e))
  | (t, s) :: rest =>
      match write umax fuel t s c e with
      | (Ok _, (c', e')) => write_seq umax fuel rest c' e'
      | r => r
      end
  end.

Definition encode_seq (stateSize umax : Z) (fuel : nat)
    (msg : list (FrequencyTable * Z)) : res (list Z) :=
  match ArithmeticEncoder_new stateSize [] with
  | Err e => Err e
  | Ok (c, e) =>
      match write_seq umax fuel msg c e with
      | (Ok _, (c', e')) => Ok (output (snd (finish c' e')))
      | (Err er, _) => Err er
      end
  end.

(** One [read] per table, stopping at the first failure. *)
Fixpoint read_seq (fuel : nat) (tables : list FrequencyTable)
    (c : ArithmeticCoderBase) (d : DecoderState) : outcome (list Z) DecoderState :=
  match tables with
  | [] => (Ok [], (c, d))
  | t :: rest =>
      match read fuel t c d with
      | (Ok s, (c', d')) =>
          match read_seq fuel rest c' d' with
          | (Ok l, st) => (Ok (s :: l), st)
          | r => r
          end
      | (Err e, st) => (Err e, st)
      end
  end.

Definition decode_seq (stateSize : Z) (fuel : nat) (tables : list FrequencyTable)
    (bits : list Z) : res (list Z) :=
  match ArithmeticDecoder_new stateSize bits with
  | Err e => Err e
  | Ok (c, d) => fst (read_seq fuel tables c d)
  end.

(** Every step of a message has a table the coder of state size [b]
    accepts and a symbol of nonzero frequency in it. *)
Definition message_ok (b : Z) (msg : list (FrequencyTable * Z)) : Prop :=
  Forall (fun ts =>
            table_contract (fst ts) /\ getSymbolLimit (fst ts) <= 2 ^ 31 /\
            getTotal (fst ts) <= maxTotal b /\
            0 <= snd ts < getSymbolLimit (fst ts) /\
            getLow (fst ts) (snd ts) <> getHigh (fst ts) (snd ts)) msg.

(** The second decoder holds the same window as the first and reads the
    same stream followed by some zeros. *)
Definition padded (d d' : DecoderState) : Prop :=
  code d' = code d /\ exists k, input d' = input d ++ repeat 0 k.

(** Two outcomes of the decoder that differ only by zeros at the end of the
    input. *)
Definition same_but_padded {A : Type} (r r' : outcome A DecoderState) : Prop :=
  fst r' = fst r /\ fst (snd r') = fst (snd r) /\ padded (snd (snd r)) (snd (snd r')).

(** The number of values in the interval. *)
Definition interval_size (c : ArithmeticCoderBase) : Z := high c - low c + 1.

(** ** Bits written and bits read *)

(** The bits an encoder has written and deferred since the state [e0], and
    the size of its interval against the size [r0] it started from. *)
Definition written_since (e0 : EncoderState) (r0 : Z)
    (c : ArithmeticCoderBase) (e : EncoderState) : Prop :=
  exists em k, output e = output e0 ++ em /\ Forall is_bit em /\
    0 <= numUnderflow e /\ 0 <= k /\
    Z.of_nat (length em) + numUnderflow e = numUnderflow e0 + k /\
    interval_size c = 2 ^ k * r0.

(** The bits a decoder has consumed since its input was [inp0], and the
    size of its interval against the size [r0] it started from. *)
Definition consumed_since (inp0 : list Z) (r0 : Z)
    (c : ArithmeticCoderBase) (d : DecoderState) : Prop :=
  Forall is_bit (input d) /\ code_ok c d /\
  exists k, 0 <= k /\ input d = skipn (Z.to_nat k) inp0 /\
    interval_size c = 2 ^ k * r0.


(** * Lemmas *)

(** ** Bit operations as arithmetic *)

Lemma land_pow2 (x k : Z) : 0 <= k ->
  Z.land x (2 ^ k) = if Z.testbit x k then 2 ^ k else 0.
Proof.
  intros Hk. apply Z.bits_inj'. intros n Hn.
  rewrite Z.land_spec, Z.pow2_bits_eqb by lia.
  destruct (Z.eqb_spec k n) as [->|Hne].
  - destruct (Z.testbit x n); simpl.
    + rewrite Z.pow2_bits_eqb, Z.eqb_refl by lia. reflexivity.
    + now rewrite Z.bits_0.
  - rewrite andb_false_r. destruct (Z.testbit x k).
    + rewrite Z.pow2_bits_eqb by lia. symmetry. now apply Z.eqb_neq.
    + now rewrite Z.bits_0.
Qed.

Lemma testbit_div (x k : Z) : 0 <= k ->
  Z.testbit x k = ((x / 2 ^ k) mod 2 =? 1).
Proof.
  intros Hk. destruct (Z.testbit x k) eqn:E.
  - apply Z.testbit_true in E; [|lia]. rewrite E. reflexivity.
  - apply Z.testbit_false in E; [|lia]. rewrite E. reflexivity.
Qed.

Lemma testbit_top (x k : Z) : 0 <= k -> 0 <= x < 2 * 2 ^ k ->
  Z.testbit x k = (2 ^ k <=? x).
Proof.
  intros Hk Hx. rewrite testbit_div by lia.
  assert (0 < 2 ^ k) by (apply Z.pow_pos_nonneg; lia).
  destruct (Z.leb_spec (2 ^ k) x).
  - assert (x / 2 ^ k = 1) as ->.
    { symmetry; apply (Z.div_unique x (2 ^ k) 1 (x - 2 ^ k)); lia. }
    reflexivity.
  - rewrite Z.div_small by lia. reflexivity.
Qed.

Lemma lor_disjoint (x y : Z) : Z.land x y = 0 -> Z.lor x y = x + y.
Proof.
  intros H0. rewrite <- Z.lxor_lor by exact H0.
  symmetry. now apply Z.add_nocarry_lxor.
Qed.

Lemma lor_even_bit (x y : Z) : x mod 2 = 0 -> is_bit y -> Z.lor x y = x + y.
Proof.
  intros Hx [-> | ->].
  - now rewrite Z.lor_0_r, Z.add_0_r.
  - apply lor_disjoint. change 1 with (Z.ones 1).
    rewrite Z.land_ones by lia. exact Hx.
Qed.

Lemma pow2_minus_1_ones (b : Z) : 2 ^ b - 1 = Z.ones b.
Proof. rewrite Z.ones_equiv. lia. Qed.

Lemma u64_mod_pow2 (x b : Z) : 0 <= b <= 64 -> (u64 x) mod 2 ^ b = x mod 2 ^ b.
Proof.
  intros Hb. unfold u64. apply Z.mod_mod_divide.
  exists (2 ^ (64 - b)). rewrite <- Z.pow_add_r by lia. f_equal; lia.
Qed.

Lemma shl64_1_mod (x b : Z) : 0 <= b <= 64 ->
  (shl64 x 1) mod 2 ^ b = (2 * x) mod 2 ^ b.
Proof.
  intros Hb. unfold shl64. rewrite u64_mod_pow2 by lia.
  rewrite Z.shiftl_mul_pow2 by lia. f_equal. lia.
Qed.

Lemma u64_small (x : Z) : 0 <= x < 2 ^ 64 -> u64 x = x.
Proof. intros. unfold u64. now apply Z.mod_small. Qed.

Lemma double_mod_even (x m : Z) : 0 < m -> (2 * x) mod (2 * m) = 2 * (x mod m).
Proof.
  intros Hm. rewrite Z.mul_mod_distr_l by lia. reflexivity.
Qed.

(** ** The constants of a coder *)

Lemma pow2_split (b : Z) : 1 <= b -> 2 ^ b = 2 * 2 ^ (b - 1).
Proof.
  intros Hb. replace b with (1 + (b - 1)) at 1 by lia.
  rewrite Z.pow_add_r by lia. reflexivity.
Qed.

Lemma pow2_63_bound (b : Z) : 1 <= b <= 63 -> 1 <= 2 ^ (b - 1) /\ 2 ^ b <= 2 ^ 63.
Proof.
  intros Hb. split.
  - assert (0 < 2 ^ (b - 1)) by (apply Z.pow_pos_nonneg; lia). lia.
  - apply Z.pow_le_mono_r; lia.
Qed.

Lemma ArithmeticCoderBase_new_ok (b : Z) :
  1 <= b <= 63 ->
  exists c, ArithmeticCoderBase_new b = Ok c /\ coder_consts b c /\
            low c = 0 /\ high c = 2 ^ b - 1.
Proof.
  intros Hb. unfold ArithmeticCoderBase_new.
  destruct (Z.ltb_spec b 1); [lia|]. destruct (Z.gtb_spec b 63); [lia|]. simpl.
  destruct (pow2_63_bound b Hb) as [H1 H2].
  pose proof (pow2_split b ltac:(lia)) as Hs.
  assert (E : shl64 1 b = 2 ^ b).
  { unfold shl64. rewrite Z.shiftl_mul_pow2, Z.mul_1_l by lia.
    apply u64_small. change (2 ^ 64) with (2 * 2 ^ 63). lia. }
  eexists. split; [reflexivity|]. unfold coder_consts; simpl. rewrite !E.
  assert (Hq : Z.shiftr (2 ^ b) 2 = 2 ^ b / 4).
  { rewrite Z.shiftr_div_pow2 by lia. reflexivity. }
  assert (Hm : u64 (2 ^ b / 4 + 2) = 2 ^ b / 4 + 2).
  { apply u64_small. change (2 ^ 64) with (2 * 2 ^ 63).
    assert (0 <= 2 ^ b / 4 <= 2 ^ b / 1) by
      (split; [apply Z.div_pos; lia | apply Z.div_le_compat_l; lia]).
    rewrite Z.div_1_r in *. change (2 ^ 63) with 9223372036854775808 in *. lia. }
  assert (Hk : u64 (2 ^ b - 1) = 2 ^ b - 1).
  { apply u64_small. change (2 ^ 64) with (2 * 2 ^ 63). lia. }
  rewrite Hq, Hm, Hk.
  repeat split; try reflexivity.
  - rewrite Z.shiftr_div_pow2 by lia. change (2 ^ 1) with 2.
    rewrite Hs. rewrite Z.mul_comm, Z.div_mul by lia. reflexivity.
  - rewrite !Z.shiftr_div_pow2 by lia. change (2 ^ 1) with 2.
    rewrite Z.div_div by lia. reflexivity.
Qed.

Lemma coder_consts_facts (b : Z) (c : ArithmeticCoderBase) :
  1 <= b <= 63 -> coder_consts b c -> consts_facts c.
Proof.
  intros Hb (Hn & Hf & Hh & Hq & Hmin & Hmax & Hmask).
  destruct (pow2_63_bound b Hb) as [H1 H2].
  pose proof (pow2_split b ltac:(lia)) as Hs.
  assert (Hquarter : 2 ^ (b - 1) = 1 /\ 2 ^ b / 4 = 0 \/
                     2 ^ (b - 1) = 2 * (2 ^ b / 4) /\ 1 <= 2 ^ b / 4).
  { destruct (Z.eq_dec b 1) as [->|Hne].
    - left. split; reflexivity.
    - right. pose proof (pow2_split (b - 1) ltac:(lia)) as Hs'.
      assert (0 < 2 ^ (b - 1 - 1)) by (apply Z.pow_pos_nonneg; lia).
      assert (2 ^ b / 4 = 2 ^ (b - 1 - 1)) as ->.
      { rewrite Hs, Hs'. replace (2 * (2 * 2 ^ (b - 1 - 1))) with (2 ^ (b - 1 - 1) * 4) by lia.
        apply Z.div_mul. lia. }
      lia. }
  unfold consts_facts. rewrite Hf, Hh, Hq, Hmin, Hmax, Hmask.
  assert (0 <= UINT64_MAX / 2 ^ b) by (apply Z.div_pos; unfold UINT64_MAX; lia).
  assert (UINT64_MAX / 2 ^ b * 2 ^ b <= 2 ^ 64 - 1).
  { rewrite Z.mul_comm. apply Z.mul_div_le. lia. }
  repeat split; try lia.
  assert (0 <= Z.min (UINT64_MAX / 2 ^ b) (2 ^ b / 4 + 2) <= UINT64_MAX / 2 ^ b) by lia.
  nia.
Qed.

(** ** The loop conditions and bodies as arithmetic *)

Section BitLevel.
Variable b : Z.
Variable c : ArithmeticCoderBase.
Hypothesis Hb : 1 <= b <= 63.
Hypothesis Hc : coder_consts b c.

Lemma land_mask (x : Z) : Z.land x (MASK c) = x mod fullRange c.
Proof.
  destruct Hc as (_ & -> & _ & _ & _ & _ & ->).
  rewrite pow2_minus_1_ones, Z.land_ones by lia. reflexivity.
Qed.

Lemma shiftr_mask : Z.shiftr (MASK c) 1 = Z.ones (b - 1).
Proof.
  destruct Hc as (_ & _ & _ & _ & _ & _ & ->).
  rewrite Z.shiftr_div_pow2 by lia. change (2 ^ 1) with 2.
  rewrite Z.ones_equiv, (pow2_split b) by lia.
  replace (2 * 2 ^ (b - 1) - 1) with (1 + (2 ^ (b - 1) - 1) * 2) by lia.
  rewrite Z.div_add by lia. change (1 / 2) with 0. lia.
Qed.

Lemma land_half_mask (x : Z) : Z.land x (Z.shiftr (MASK c) 1) = x mod halfRange c.
Proof.
  rewrite shiftr_mask, Z.land_ones by lia.
  destruct Hc as (_ & _ & -> & _). reflexivity.
Qed.

Lemma land_half (x : Z) : 0 <= x <= MASK c ->
  Z.land x (halfRange c) = if halfRange c <=? x then halfRange c else 0.
Proof.
  intros Hx. destruct Hc as (_ & _ & Hh & _ & _ & _ & Hm). rewrite Hh.
  rewrite land_pow2 by lia. rewrite testbit_top; [reflexivity|lia|].
  rewrite <- pow2_split by lia. lia.
Qed.

Lemma top_bits_equal_spec :
  0 <= low c <= MASK c -> 0 <= high c <= MASK c ->
  top_bits_equal c = Bool.eqb (halfRange c <=? low c) (halfRange c <=? high c).
Proof.
  intros Hl Hh. unfold top_bits_equal.
  destruct Hc as (_ & _ & Hhalf & _ & _ & _ & Hm). rewrite Hhalf.
  rewrite land_pow2, Z.lxor_spec by lia.
  assert (Hp : 0 < 2 ^ (b - 1)) by (apply Z.pow_pos_nonneg; lia).
  rewrite !testbit_top; try lia; try (rewrite <- pow2_split by lia; lia).
  destruct (2 ^ (b - 1) <=? low c), (2 ^ (b - 1) <=? high c); simpl;
    try reflexivity; apply Z.eqb_neq; lia.
Qed.

Lemma shift_interval_low :
  low (shift_interval c) = (2 * low c) mod fullRange c.
Proof.
  cbn [shift_interval with_interval high low]. rewrite land_mask.
  destruct Hc as (_ & -> & _). apply shl64_1_mod. lia.
Qed.

Lemma shift_interval_high :
  high (shift_interval c) = (2 * high c) mod fullRange c + 1.
Proof.
  cbn [shift_interval with_interval high low]. rewrite land_mask.
  destruct Hc as (_ & -> & _). rewrite shl64_1_mod by lia.
  apply lor_even_bit; [|right; reflexivity].
  rewrite (pow2_split b), double_mod_even by (try apply Z.pow_pos_nonneg; lia).
  rewrite Z.mul_comm. apply Z.mod_mul. lia.
Qed.

Lemma underflow_interval_low :
  low (underflow_interval c) = (2 * low c) mod halfRange c.
Proof.
  cbn [underflow_interval with_interval high low]. rewrite land_half_mask.
  destruct Hc as (_ & _ & -> & _). apply shl64_1_mod. lia.
Qed.

Lemma mod_lt_half (x : Z) : 0 <= x mod halfRange c < halfRange c.
Proof.
  destruct Hc as (_ & _ & -> & _). apply Z.mod_pos_bound.
  apply Z.pow_pos_nonneg; lia.
Qed.

(** A value below [halfRange] and the bit [halfRange] do not overlap. *)
Lemma lor_half (x : Z) : 0 <= x < halfRange c ->
  Z.lor x (halfRange c) = x + halfRange c.
Proof.
  intros Hx. apply lor_disjoint.
  destruct Hc as (_ & _ & Hh & _). rewrite Hh in *.
  rewrite land_pow2 by lia. rewrite testbit_top by lia.
  destruct (Z.leb_spec (2 ^ (b - 1)) x); [lia|reflexivity].
Qed.

Lemma double_mod_half_even (x : Z) : 2 <= b -> ((2 * x) mod halfRange c) mod 2 = 0.
Proof.
  intros Hb2. destruct Hc as (_ & _ & -> & _).
  rewrite (pow2_split (b - 1)), double_mod_even by (try apply Z.pow_pos_nonneg; lia).
  rewrite Z.mul_comm. apply Z.mod_mul. lia.
Qed.

Lemma half_even : 2 <= b -> halfRange c mod 2 = 0.
Proof.
  intros Hb2. destruct Hc as (_ & _ & -> & _).
  rewrite (pow2_split (b - 1)) by lia. rewrite Z.mul_comm. apply Z.mod_mul. lia.
Qed.

Lemma underflow_interval_high : 2 <= b ->
  high (underflow_interval c) = (2 * high c) mod halfRange c + halfRange c + 1.
Proof.
  intros Hb2. cbn [underflow_interval with_interval high low]. rewrite land_half_mask.
  assert (E : shl64 (high c) 1 mod halfRange c = (2 * high c) mod halfRange c).
  { destruct Hc as (_ & _ & -> & _). apply shl64_1_mod. lia. }
  rewrite E, lor_half by apply mod_lt_half.
  apply lor_even_bit; [|right; reflexivity].
  rewrite Z.add_mod, double_mod_half_even, half_even by lia. reflexivity.
Qed.
Lemma quarter_cases :
  b = 1 /\ halfRange c = 1 /\ quarterRange c = 0 \/
  2 <= b /\ quarterRange c = 2 ^ (b - 2) /\ halfRange c = 2 * quarterRange c /\
  1 <= quarterRange c.
Proof.
  destruct Hc as (_ & _ & Hh & Hq & _). rewrite Hh, Hq.
  destruct (Z.eq_dec b 1) as [->|Hne]; [left; repeat split; reflexivity|right].
  assert (E : 2 ^ b / 4 = 2 ^ (b - 2)).
  { rewrite (pow2_split b), (pow2_split (b - 1)) by lia.
    replace (b - 1 - 1) with (b - 2) by lia.
    replace (2 * (2 * 2 ^ (b - 2))) with (2 ^ (b - 2) * 4) by lia.
    apply Z.div_mul. lia. }
  rewrite E. assert (0 < 2 ^ (b - 2)) by (apply Z.pow_pos_nonneg; lia).
  repeat split; try lia.
  rewrite (pow2_split (b - 1)) by lia. replace (b - 1 - 1) with (b - 2) by lia. lia.
Qed.

Lemma testbit_not64 (x k : Z) : 0 <= k < 64 ->
  Z.testbit (not64 x) k = negb (Z.testbit x k).
Proof.
  intros Hk. unfold not64, u64.
  rewrite Z.mod_pow2_bits_low by lia. apply Z.lnot_spec. lia.
Qed.

(** The second-highest bit of a value whose highest bit is set. *)
Lemma testbit_second_high (x : Z) : 2 <= b ->
  halfRange c <= x <= MASK c ->
  Z.testbit x (b - 2) = (halfRange c + quarterRange c <=? x).
Proof.
  intros Hb2 Hx.
  destruct quarter_cases as [(? & _)|(_ & Hq & Hh & Hq1)]; [lia|].
  destruct Hc as (_ & _ & _ & _ & _ & _ & Hm).
  rewrite (pow2_split b), <- (proj1 (proj2 (proj2 Hc))), Hh in Hm by lia.
  rewrite testbit_div, <- Hq by lia. rewrite Hh.
  destruct (Z.leb_spec (2 * quarterRange c + quarterRange c) x).
  - assert (x / quarterRange c = 3) as ->.
    { symmetry. apply (Z.div_unique x _ 3 (x - 3 * quarterRange c)); lia. }
    reflexivity.
  - assert (x / quarterRange c = 2) as ->.
    { symmetry. apply (Z.div_unique x _ 2 (x - 2 * quarterRange c)); lia. }
    reflexivity.
Qed.

Lemma second_bits_straddle_spec :
  0 <= low c < halfRange c -> halfRange c <= high c <= MASK c ->
  second_bits_straddle c =
    (1 <=? quarterRange c) && (quarterRange c <=? low c)
    && (high c <? halfRange c + quarterRange c).
Proof.
  intros Hl Hh. unfold second_bits_straddle.
  destruct quarter_cases as [(_ & _ & Hq)|(Hb2 & Hq & Hhalf & Hq1)].
  - rewrite Hq, Z.land_0_r. reflexivity.
  - rewrite Hq at 1. rewrite land_pow2, Z.land_spec, testbit_not64 by lia.
    rewrite (testbit_second_high (high c)) by lia.
    rewrite (testbit_top (low c)) by (try rewrite <- Hq; lia). rewrite <- Hq.
    assert (0 < quarterRange c) by lia.
    destruct (Z.leb_spec 1 (quarterRange c)); [|lia].
    destruct (Z.leb_spec (quarterRange c) (low c)),
             (Z.leb_spec (halfRange c + quarterRange c) (high c)),
             (Z.ltb_spec (high c) (halfRange c + quarterRange c));
      simpl; try reflexivity; lia.
Qed.

(** The decoder's two windows after a hook. *)
Lemma decoder_shift_code (cd bit : Z) : is_bit bit ->
  Z.lor (Z.land (shl64 cd 1) (MASK c)) bit = (2 * cd) mod fullRange c + bit.
Proof.
  intros Hbit. rewrite land_mask.
  destruct Hc as (_ & -> & _). rewrite shl64_1_mod by lia.
  apply lor_even_bit; [|exact Hbit].
  rewrite (pow2_split b), double_mod_even by (try apply Z.pow_pos_nonneg; lia).
  rewrite Z.mul_comm. apply Z.mod_mul. lia.
Qed.

Lemma decoder_underflow_code (cd bit : Z) : 2 <= b -> is_bit bit ->
  0 <= cd <= MASK c ->
  Z.lor (Z.lor (Z.land cd (halfRange c))
               (Z.land (shl64 cd 1) (Z.shiftr (MASK c) 1))) bit
  = (if halfRange c <=? cd then halfRange c else 0)
    + (2 * cd) mod halfRange c + bit.
Proof.
  intros Hb2 Hbit Hcd. rewrite land_half, land_half_mask by exact Hcd.
  assert (E : shl64 cd 1 mod halfRange c = (2 * cd) mod halfRange c).
  { destruct Hc as (_ & _ & -> & _). apply shl64_1_mod. lia. }
  rewrite E.
  assert (Hor : Z.lor (if halfRange c <=? cd then halfRange c else 0)
                  ((2 * cd) mod halfRange c)
                = (if halfRange c <=? cd then halfRange c else 0)
                  + (2 * cd) mod halfRange c).
  { destruct (halfRange c <=? cd).
    - rewrite Z.lor_comm, lor_half by apply mod_lt_half. lia.
    - now rewrite Z.lor_0_l. }
  rewrite Hor. apply lor_even_bit; [|exact Hbit].
  rewrite Z.add_mod, double_mod_half_even by lia.
  destruct (halfRange c <=? cd); [rewrite half_even by lia|]; reflexivity.
Qed.

(** The bit the encoder writes in [shift]. *)
Lemma encoder_bit : 0 <= low c <= MASK c ->
  to_int (Z.shiftr (low c) (numStateBits c - 1))
  = if halfRange c <=? low c then 1 else 0.
Proof.
  intros Hl. destruct Hc as (-> & _ & Hh & _ & _ & _ & Hm).
  rewrite Z.shiftr_div_pow2, Hh by lia. rewrite Hm, (pow2_split b) in Hl by lia.
  assert (0 < 2 ^ (b - 1)) by (apply Z.pow_pos_nonneg; lia).
  destruct (Z.leb_spec (2 ^ (b - 1)) (low c)).
  - assert (low c / 2 ^ (b - 1) = 1) as ->.
    { symmetry. apply (Z.div_unique _ _ 1 (low c - 2 ^ (b - 1))); lia. }
    reflexivity.
  - rewrite Z.div_small by lia. reflexivity.
Qed.

(** After the body of the underflow loop the top bits differ, whatever
    the interval was. *)
Lemma underflow_interval_top_bits_differ :
  top_bits_equal (underflow_interval c) = false.
Proof.
  unfold top_bits_equal.
  cbn [underflow_interval with_interval high low halfRange].
  destruct Hc as (_ & _ & Hh & _). rewrite Hh.
  rewrite land_pow2, Z.lxor_spec, !Z.lor_spec, Z.land_spec by lia.
  rewrite shiftr_mask, Z.ones_spec_high by lia.
  rewrite Z.pow2_bits_eqb, Z.eqb_refl by lia.
  rewrite !andb_false_r, orb_true_r. simpl.
  apply Z.eqb_neq. assert (0 < 2 ^ (b - 1)) by (apply Z.pow_pos_nonneg; lia). lia.
Qed.
End BitLevel.

(** ** One iteration of each loop *)

Lemma coder_consts_with_interval (b : Z) (c : ArithmeticCoderBase) (l h : Z) :
  coder_consts b c -> coder_consts b (with_interval c l h).
Proof. intros Hc. exact Hc. Qed.

Section Steps.
Variable b : Z.
Variable c : ArithmeticCoderBase.
Hypothesis Hb : 1 <= b <= 63.
Hypothesis Hc : coder_consts b c.

Lemma top_bits_equal_true : pre_ok c -> top_bits_equal c = true ->
  (high c < halfRange c \/ halfRange c <= low c) /\
  high c - low c + 1 <= halfRange c.
Proof.
  intros (Hl & Hlh & Hh) Ht.
  destruct (coder_consts_facts b c Hb Hc) as (H1 & Hf & Hm & _).
  rewrite (top_bits_equal_spec b c Hb Hc) in Ht by lia.
  destruct (Z.leb_spec (halfRange c) (low c)), (Z.leb_spec (halfRange c) (high c));
    simpl in Ht; try discriminate; lia.
Qed.

Lemma top_bits_equal_false : pre_ok c -> top_bits_equal c = false -> split_ok c.
Proof.
  intros (Hl & Hlh & Hh) Ht.
  destruct (coder_consts_facts b c Hb Hc) as (H1 & Hf & Hm & _).
  rewrite (top_bits_equal_spec b c Hb Hc) in Ht by lia.
  unfold split_ok.
  destruct (Z.leb_spec (halfRange c) (low c)), (Z.leb_spec (halfRange c) (high c));
    simpl in Ht; try discriminate; lia.
Qed.

(** The shift doubles both ends after removing their common top bit. *)
Lemma shift_interval_step : pre_ok c -> top_bits_equal c = true ->
  let t := if halfRange c <=? low c then halfRange c else 0 in
  low (shift_interval c) = 2 * (low c - t) /\
  high (shift_interval c) = 2 * (high c - t) + 1 /\
  pre_ok (shift_interval c).
Proof.
  intros Hpre Ht. destruct (top_bits_equal_true Hpre Ht) as [Hcase Hr].
  destruct Hpre as (Hl & Hlh & Hh).
  destruct (coder_consts_facts b c Hb Hc) as (H1 & Hf & Hm & _).
  rewrite (shift_interval_low b c Hb Hc), (shift_interval_high b c Hb Hc), Hf.
  unfold pre_ok.
  rewrite (shift_interval_low b c Hb Hc), (shift_interval_high b c Hb Hc), Hf.
  rewrite !double_mod_even by lia.
  change (MASK (shift_interval c)) with (MASK c).
  destruct (Z.leb_spec (halfRange c) (low c)).
  - assert (low c mod halfRange c = low c - halfRange c) as ->.
    { symmetry. apply (Z.mod_unique _ _ 1); lia. }
    assert (high c mod halfRange c = high c - halfRange c) as ->.
    { symmetry. apply (Z.mod_unique _ _ 1); lia. }
    lia.
  - rewrite !Z.mod_small by lia. lia.
Qed.

Lemma straddle_true : split_ok c -> second_bits_straddle c = true ->
  halfRange c = 2 * quarterRange c /\ 2 <= b /\
  quarterRange c <= low c /\ high c < halfRange c + quarterRange c.
Proof.
  intros (Hl & Hlh & Hhl & Hh) Hs.
  rewrite (second_bits_straddle_spec b c Hb Hc) in Hs by lia.
  apply andb_prop in Hs as [Hs H3]. apply andb_prop in Hs as [H1 H2].
  destruct (quarter_cases b c Hb Hc) as [(_ & _ & Hq)|(Hb2 & _ & Hh2 & _)]; lia.
Qed.

Lemma straddle_false : split_ok c -> second_bits_straddle c = false ->
  renormalized c.
Proof.
  intros Hsp Hs. split; [exact Hsp|].
  destruct Hsp as (Hl & Hlh & Hhl & Hh).
  rewrite (second_bits_straddle_spec b c Hb Hc) in Hs by lia.
  intros (H1 & H2 & H3).
  destruct (Z.leb_spec 1 (quarterRange c)), (Z.leb_spec (quarterRange c) (low c)),
    (Z.ltb_spec (high c) (halfRange c + quarterRange c)); simpl in Hs;
    try discriminate; lia.
Qed.

Lemma renormalized_state_ok : renormalized c -> state_ok c.
Proof.
  intros ((Hl & Hlh & Hhl & Hh) & Hn).
  destruct (coder_consts_facts b c Hb Hc) as (H1 & Hf & Hm & Hmin & Hq & _).
  unfold state_ok. rewrite Hmin, Hf. lia.
Qed.

(** The underflow step doubles both ends after removing the second bit. *)
Lemma underflow_interval_step : split_ok c -> second_bits_straddle c = true ->
  low (underflow_interval c) = 2 * (low c - quarterRange c) /\
  high (underflow_interval c) = 2 * (high c - halfRange c) + halfRange c + 1 /\
  split_ok (underflow_interval c).
Proof.
  intros Hsp Hs. destruct (straddle_true Hsp Hs) as (Hhq & Hb2 & Hql & Hhq').
  destruct Hsp as (Hl & Hlh & Hhl & Hh).
  destruct (coder_consts_facts b c Hb Hc) as (H1 & Hf & Hm & _).
  unfold split_ok.
  rewrite (underflow_interval_low b c Hb Hc), (underflow_interval_high b c Hb Hc) by lia.
  change (MASK (underflow_interval c)) with (MASK c).
  change (halfRange (underflow_interval c)) with (halfRange c).
  assert (E1 : (2 * low c) mod halfRange c = 2 * (low c - quarterRange c)).
  { rewrite Hhq, double_mod_even by lia. f_equal.
    symmetry. apply (Z.mod_unique _ _ 1); lia. }
  assert (E2 : (2 * high c) mod halfRange c = 2 * (high c - halfRange c)).
  { rewrite Hhq at 1. rewrite double_mod_even by lia. f_equal.
    symmetry. apply (Z.mod_unique _ _ 2); lia. }
  rewrite E1, E2. lia.
Qed.

(** The narrowing does not wrap and stays inside the interval. *)
Lemma narrow_spec (symLow symHigh total : Z) :
  state_ok c -> 0 <= symLow -> symLow < symHigh -> symHigh <= total ->
  total <= MAX_TOTAL c ->
  let range := high c - low c + 1 in
  low (narrow c symLow symHigh total) = low c + symLow * range / total /\
  high (narrow c symLow symHigh total) = low c + symHigh * range / total - 1 /\
  low c <= low (narrow c symLow symHigh total) /\
  low (narrow c symLow symHigh total) <= high (narrow c symLow symHigh total) /\
  high (narrow c symLow symHigh total) <= high c.
Proof.
  intros (Hl & Hlh & Hh & Hmin & Hmax) H0 Hlt Hle Htot range.
  destruct (coder_consts_facts b c Hb Hc) as (H1 & Hf & Hm & Hmn & Hq & Hmt & Hprod & Hfull).
  cbn [narrow with_interval low high].
  assert (Hrange : range = high c - low c + 1) by reflexivity.
  rewrite <- Hrange. clearbody range.
  assert (H64 : 2 ^ 63 < 2 ^ 64) by reflexivity.
  rewrite (u64_small range) by lia.
  assert (Hrt : total <= range) by lia.
  assert (Hp1 : 0 <= symLow * range <= total * range) by nia.
  assert (Hp2 : 0 <= symHigh * range <= total * range) by nia.
  assert (Hp3 : total * range <= 2 ^ 64 - 1) by nia.
  rewrite (u64_small (symLow * range)), (u64_small (symHigh * range)) by lia.
  assert (Hd1 : 0 <= symLow * range / total) by (apply Z.div_pos; lia).
  assert (Hd2 : symHigh * range / total <= range).
  { apply Z.div_le_upper_bound; nia. }
  assert (Hd3 : symLow * range / total + 1 <= symHigh * range / total).
  { replace (symLow * range / total + 1) with ((symLow * range + 1 * total) / total)
      by (rewrite Z.div_add by lia; reflexivity).
    apply Z.div_le_mono; nia. }
  rewrite (u64_small (low c + symLow * range / total)) by lia.
  rewrite (u64_small (low c + symHigh * range / total)) by lia.
  rewrite u64_small by lia. lia.
Qed.
End Steps.

(** ** The loops, for any pair of hooks

    [J] is a property of the interval and the hook state that one iteration
    of each loop keeps; [E] holds of the errors a hook can raise. *)

Section LoopInvariant.
Context {X : Type} {hooks : CoderHooks X}.
Variable b : Z.
Hypothesis Hb : 1 <= b <= 63.
Variable J : ArithmeticCoderBase -> X -> Prop.
Variable E : error -> Prop.
Hypothesis shift_J : forall c x,
  coder_consts b c -> pre_ok c -> top_bits_equal c = true -> J c x ->
  match shift c x with
  | Ok x' => J (shift_interval c) x'
  | Err e => E e
  end.
Hypothesis underflow_J : forall c x,
  coder_consts b c -> split_ok c -> second_bits_straddle c = true -> J c x ->
  match underflow c x with
  | Ok x' => J (underflow_interval c) x'
  | Err e => E e
  end.

Lemma shift_loop_inv (fuel : nat) : forall c x,
  coder_consts b c -> pre_ok c -> J c x ->
  halfRange c < (high c - low c + 1) * 2 ^ Z.of_nat fuel ->
  match shift_loop fuel c x with
  | (Ok _, (c', x')) => coder_consts b c' /\ split_ok c' /\ J c' x'
  | (Err e, _) => E e
  end.
Proof.
  induction fuel as [|f IH]; intros c x Hc Hpre HJ Hfuel.
  - cbn [shift_loop]. destruct (top_bits_equal c) eqn:Ht.
    + destruct (top_bits_equal_true b c Hb Hc Hpre Ht) as [_ Hr].
      change (2 ^ Z.of_nat 0) with 1 in Hfuel. lia.
    + split; [exact Hc|]. split; [|exact HJ].
      exact (top_bits_equal_false b c Hb Hc Hpre Ht).
  - cbn [shift_loop]. destruct (top_bits_equal c) eqn:Ht.
    + pose proof (shift_J c x Hc Hpre Ht HJ) as Hs.
      destruct (shift c x) as [x'|e]; [|exact Hs].
      destruct (shift_interval_step b c Hb Hc Hpre Ht) as (El & Eh & Hpre').
      apply IH; [exact Hc | exact Hpre' | exact Hs |].
      rewrite El, Eh. change (halfRange (shift_interval c)) with (halfRange c).
      rewrite Nat2Z.inj_succ, Z.pow_succ_r in Hfuel by lia. lia.
    + split; [exact Hc|]. split; [|exact HJ].
      exact (top_bits_equal_false b c Hb Hc Hpre Ht).
Qed.

Lemma underflow_loop_inv (fuel : nat) : forall c x,
  coder_consts b c -> split_ok c -> J c x ->
  halfRange c < (high c - low c + 1) * 2 ^ Z.of_nat fuel ->
  match underflow_loop fuel c x with
  | (Ok _, (c', x')) => coder_consts b c' /\ renormalized c' /\ J c' x'
  | (Err e, _) => E e
  end.
Proof.
  induction fuel as [|f IH]; intros c x Hc Hsp HJ Hfuel.
  - cbn [underflow_loop]. destruct (second_bits_straddle c) eqn:Hs.
    + destruct (straddle_true b c Hb Hc Hsp Hs) as (? & ? & ? & ?).
      change (2 ^ Z.of_nat 0) with 1 in Hfuel. lia.
    + split; [exact Hc|]. split; [|exact HJ].
      exact (straddle_false b c Hb Hc Hsp Hs).
  - cbn [underflow_loop]. destruct (second_bits_straddle c) eqn:Hs.
    + pose proof (underflow_J c x Hc Hsp Hs HJ) as Hu.
      destruct (underflow c x) as [x'|e]; [|exact Hu].
      destruct (underflow_interval_step b c Hb Hc Hsp Hs) as (El & Eh & Hsp').
      destruct (straddle_true b c Hb Hc Hsp Hs) as (Hhq & _).
      apply IH; [exact Hc | exact Hsp' | exact Hu |].
      rewrite El, Eh. change (halfRange (underflow_interval c)) with (halfRange c).
      rewrite Nat2Z.inj_succ, Z.pow_succ_r in Hfuel by lia. lia.
    + split; [exact Hc|]. split; [|exact HJ].
      exact (straddle_false b c Hb Hc Hsp Hs).
Qed.

Lemma pow2_fuel (fuel : nat) (c : ArithmeticCoderBase) :
  coder_consts b c -> b <= Z.of_nat fuel ->
  2 * halfRange c <= 2 ^ Z.of_nat fuel.
Proof.
  intros Hc Hf. destruct Hc as (_ & _ & -> & _).
  rewrite <- pow2_split by lia. apply Z.pow_le_mono_r; lia.
Qed.

Lemma renormalize_inv (fuel : nat) (c : ArithmeticCoderBase) (x : X) :
  coder_consts b c -> pre_ok c -> J c x -> b <= Z.of_nat fuel ->
  match renormalize fuel c x with
  | (Ok _, (c', x')) => coder_consts b c' /\ renormalized c' /\ J c' x'
  | (Err e, _) => E e
  end.
Proof.
  intros Hc Hpre HJ Hf. unfold renormalize.
  pose proof (pow2_fuel fuel c Hc Hf) as Hp.
  assert (Hfuel : halfRange c < (high c - low c + 1) * 2 ^ Z.of_nat fuel).
  { destruct Hpre as (? & ? & ?). nia. }
  pose proof (shift_loop_inv fuel c x Hc Hpre HJ Hfuel) as Hs.
  destruct (shift_loop fuel c x) as [[[]|e] [c1 x1]]; [|exact Hs].
  destruct Hs as (Hc1 & Hsp1 & HJ1).
  apply underflow_loop_inv; [exact Hc1 | exact Hsp1 | exact HJ1 |].
  pose proof (pow2_fuel fuel c1 Hc1 Hf) as Hp1.
  destruct Hsp1 as (? & ? & ? & ?). nia.
Qed.

(** With the interval invariant and a codable symbol, every check of
    [update] passes and the call is the narrowing followed by the loops. *)
Lemma update_unfold (fuel : nat) (freqs : FrequencyTable) (symbol : Z)
    (c : ArithmeticCoderBase) (x : X) :
  coder_consts b c -> state_ok c -> codable c freqs symbol ->
  update fuel freqs symbol c x
  = renormalize fuel
      (narrow c (getLow freqs symbol) (getHigh freqs symbol) (getTotal freqs)) x.
Proof.
  intros Hc (Hl & Hlh & Hh & Hmin & Hmax) (H0 & Hlt & Hle & Htot).
  pose proof (coder_consts_facts b c Hb Hc) as (H1 & Hf & Hm & Hmn & Hq & Hmt & Hprod & Hfull).
  unfold update.
  assert (E1 : (low c >=? high c) = false) by lia.
  assert (E2 : Z.land (low c) (MASK c) = low c).
  { rewrite (land_mask b c Hb Hc). apply Z.mod_small. lia. }
  assert (E3 : Z.land (high c) (MASK c) = high c).
  { rewrite (land_mask b c Hb Hc). apply Z.mod_small. lia. }
  rewrite E1, E2, E3, !Z.eqb_refl. cbn [negb orb].
  assert (H64 : 2 ^ 63 < 2 ^ 64) by reflexivity.
  rewrite (u64_small (high c - low c + 1)) by lia.
  assert (E4 : (high c - low c + 1 <? MIN_RANGE c) = false) by lia.
  assert (E5 : (high c - low c + 1 >? fullRange c) = false) by lia.
  rewrite E4, E5. cbn [orb].
  assert (E6 : (getLow freqs symbol =? getHigh freqs symbol) = false) by lia.
  assert (E7 : (getTotal freqs >? MAX_TOTAL c) = false) by lia.
  assert (E8 : (getTotal freqs =? 0) = false) by lia.
  rewrite E6, E7, E8. reflexivity.
Qed.

Lemma update_inv (fuel : nat) (freqs : FrequencyTable) (symbol : Z)
    (c : ArithmeticCoderBase) (x : X) :
  coder_consts b c -> state_ok c -> codable c freqs symbol ->
  J (narrow c (getLow freqs symbol) (getHigh freqs symbol) (getTotal freqs)) x ->
  b <= Z.of_nat fuel ->
  match update fuel freqs symbol c x with
  | (Ok _, (c', x')) => coder_consts b c' /\ renormalized c' /\ J c' x'
  | (Err e, _) => E e
  end.
Proof.
  intros Hc Hok Hcod HJ Hf. rewrite update_unfold by assumption.
  destruct Hcod as (H0 & Hlt & Hle & Htot).
  destruct (narrow_spec b c Hb Hc _ _ _ Hok H0 Hlt Hle Htot) as (_ & _ & Hn1 & Hn2 & Hn3).
  apply renormalize_inv; [exact Hc | | exact HJ | exact Hf].
  destruct Hok as (? & ? & ? & _). unfold pre_ok.
  change (MASK (narrow c (getLow freqs symbol) (getHigh freqs symbol) (getTotal freqs)))
    with (MASK c). lia.
Qed.
End LoopInvariant.

(** ** The decoder's hooks *)

Lemma readCodeBit_bits (inp : list Z) : Forall is_bit inp ->
  readCodeBit inp = (hd 0 inp, tl inp) /\ is_bit (hd 0 inp) /\ Forall is_bit (tl inp).
Proof.
  intros Hbits. destruct inp as [|t rest]; cbn.
  - repeat split; [left; reflexivity | constructor].
  - inversion Hbits as [|? ? Ht Hrest]; subst.
    destruct Ht as [-> | ->]; cbn; repeat split; auto; [left|right]; reflexivity.
Qed.

Section DecoderHooksSpec.
Variable b : Z.
Variable c : ArithmeticCoderBase.
Variable d : DecoderState.
Hypothesis Hb : 1 <= b <= 63.
Hypothesis Hc : coder_consts b c.
Hypothesis Hbits : Forall is_bit (input d).

Lemma Decoder_shift_spec : pre_ok c -> top_bits_equal c = true -> code_ok c d ->
  let t := if halfRange c <=? low c then halfRange c else 0 in
  Decoder_shift c d
  = Ok {| input := tl (input d); code := 2 * (code d - t) + hd 0 (input d) |}.
Proof.
  intros Hpre Ht [Hlo Hhi] t.
  destruct (top_bits_equal_true b c Hb Hc Hpre Ht) as [Hcase Hr].
  destruct Hpre as (Hl & Hlh & Hh).
  destruct (coder_consts_facts b c Hb Hc) as (H1 & Hf & Hm & _).
  destruct (readCodeBit_bits _ Hbits) as (Er & Hbit & _).
  unfold Decoder_shift. rewrite Er.
  rewrite (decoder_shift_code b c Hb Hc) by exact Hbit.
  rewrite Hf, double_mod_even by lia.
  assert (Em : code d mod halfRange c = code d - t).
  { subst t. destruct (Z.leb_spec (halfRange c) (low c)).
    - symmetry. apply (Z.mod_unique _ _ 1); lia.
    - rewrite Z.mod_small by lia. lia. }
  rewrite Em. reflexivity.
Qed.

Lemma Decoder_underflow_spec :
  split_ok c -> second_bits_straddle c = true -> code_ok c d ->
  Decoder_underflow c d
  = Ok {| input := tl (input d);
          code := (if halfRange c <=? code d
                   then halfRange c + 2 * (code d - halfRange c)
                   else 2 * (code d - quarterRange c))
                  + hd 0 (input d) |}.
Proof.
  intros Hsp Hs [Hlo Hhi].
  destruct (straddle_true b c Hb Hc Hsp Hs) as (Hhq & Hb2 & Hql & Hhq').
  destruct Hsp as (Hl & Hlh & Hhl & Hh).
  destruct (coder_consts_facts b c Hb Hc) as (H1 & Hf & Hm & _).
  destruct (readCodeBit_bits _ Hbits) as (Er & Hbit & _).
  unfold Decoder_underflow. rewrite Er.
  rewrite (decoder_underflow_code b c Hb Hc) by (try exact Hbit; lia).
  assert (Em : (2 * code d) mod halfRange c
               = 2 * (code d - if halfRange c <=? code d
                               then halfRange c else quarterRange c)).
  { rewrite Hhq at 1. rewrite double_mod_even by lia. f_equal.
    destruct (Z.leb_spec (halfRange c) (code d)).
    - symmetry. apply (Z.mod_unique _ _ 2); lia.
    - symmetry. apply (Z.mod_unique _ _ 1); lia. }
  rewrite Em. destruct (halfRange c <=? code d); reflexivity.
Qed.
End DecoderHooksSpec.

(** What the decoder's hooks keep: a stream of bits ahead and the window
    inside the interval. *)
Lemma Decoder_shift_keeps (b : Z) (c : ArithmeticCoderBase) (d : DecoderState) :
  1 <= b <= 63 -> coder_consts b c -> pre_ok c -> top_bits_equal c = true ->
  Forall is_bit (input d) /\ code_ok c d ->
  match Decoder_shift c d with
  | Ok d' => Forall is_bit (input d') /\ code_ok (shift_interval c) d'
  | Err e => False
  end.
Proof.
  intros Hb Hc Hpre Ht [Hbits Hcode].
  rewrite (Decoder_shift_spec b c d Hb Hc Hbits Hpre Ht Hcode).
  destruct (readCodeBit_bits _ Hbits) as (_ & Hbit & Hrest).
  split; [exact Hrest|].
  destruct (shift_interval_step b c Hb Hc Hpre Ht) as (El & Eh & _).
  unfold code_ok. rewrite El, Eh. cbn [code].
  destruct Hcode. destruct Hbit as [-> | ->]; lia.
Qed.

Lemma Decoder_underflow_keeps (b : Z) (c : ArithmeticCoderBase) (d : DecoderState) :
  1 <= b <= 63 -> coder_consts b c -> split_ok c -> second_bits_straddle c = true ->
  Forall is_bit (input d) /\ code_ok c d ->
  match Decoder_underflow c d with
  | Ok d' => Forall is_bit (input d') /\ code_ok (underflow_interval c) d'
  | Err e => False
  end.
Proof.
  intros Hb Hc Hsp Hs [Hbits Hcode].
  rewrite (Decoder_underflow_spec b c d Hb Hc Hbits Hsp Hs Hcode).
  destruct (readCodeBit_bits _ Hbits) as (_ & Hbit & Hrest).
  split; [exact Hrest|].
  destruct (underflow_interval_step b c Hb Hc Hsp Hs) as (El & Eh & _).
  destruct (straddle_true b c Hb Hc Hsp Hs) as (Hhq & Hb2 & Hql & Hhq').
  destruct Hsp as (Hl & Hlh & Hhl & Hh).
  unfold code_ok. rewrite El, Eh. cbn [code].
  destruct Hcode.
  destruct (Z.leb_spec (halfRange c) (code d)); destruct Hbit as [-> | ->]; lia.
Qed.

(** ** Tables under the contract, and the search of [read] *)

Lemma getLow_mono (t : FrequencyTable) : table_contract t ->
  forall n i, 0 <= i -> i + Z.of_nat n < getSymbolLimit t ->
  getLow t i <= getLow t (i + Z.of_nat n).
Proof.
  intros (Hlim & H0 & Hle & Hchain & Hlast).
  induction n as [|n IH]; intros i Hi Hn.
  - rewrite Z.add_0_r. lia.
  - rewrite Nat2Z.inj_succ in *.
    specialize (IH i Hi ltac:(lia)).
    specialize (Hle (i + Z.of_nat n) ltac:(lia)).
    specialize (Hchain (i + Z.of_nat n) ltac:(lia) ltac:(lia)).
    replace (i + Z.succ (Z.of_nat n)) with (i + Z.of_nat n + 1) by lia. lia.
Qed.

Lemma getLow_le (t : FrequencyTable) (i j : Z) : table_contract t ->
  0 <= i -> i <= j -> j < getSymbolLimit t -> getLow t i <= getLow t j.
Proof.
  intros Ht Hi Hij Hj.
  replace j with (i + Z.of_nat (Z.to_nat (j - i))) by lia.
  apply getLow_mono; [exact Ht | lia | lia].
Qed.

Lemma getLow_nonneg (t : FrequencyTable) (s : Z) : table_contract t ->
  0 <= s < getSymbolLimit t -> 0 <= getLow t s.
Proof.
  intros Ht Hs. pose proof (getLow_le t 0 s Ht ltac:(lia) ltac:(lia) ltac:(lia)).
  destruct Ht as (_ & H0 & _). lia.
Qed.

Lemma getHigh_le_total (t : FrequencyTable) (s : Z) : table_contract t ->
  0 <= s < getSymbolLimit t -> getHigh t s <= getTotal t.
Proof.
  intros Ht Hs. pose proof Ht as (Hlim & H0 & Hle & Hchain & Hlast).
  destruct (Z.eq_dec (s + 1) (getSymbolLimit t)) as [E|Hne].
  - replace s with (getSymbolLimit t - 1) by lia. lia.
  - rewrite Hchain by lia. rewrite <- Hlast.
    specialize (Hle (getSymbolLimit t - 1) ltac:(lia)).
    pose proof (getLow_le t (s + 1) (getSymbolLimit t - 1) Ht ltac:(lia) ltac:(lia) ltac:(lia)).
    lia.
Qed.

(** At most one symbol holds a given value. *)
Lemma symbol_unique (t : FrequencyTable) (value s s' : Z) : table_contract t ->
  0 <= s < getSymbolLimit t -> 0 <= s' < getSymbolLimit t ->
  getLow t s <= value < getHigh t s ->
  getLow t s' <= value < getHigh t s' ->
  s = s'.
Proof.
  intros Ht Hs Hs' Hv Hv'. pose proof Ht as (Hlim & H0 & Hle & Hchain & Hlast).
  destruct (Z.lt_trichotomy s s') as [Hlt | [Heq | Hgt]]; [|exact Heq|].
  - pose proof (Hchain s ltac:(lia) ltac:(lia)).
    pose proof (getLow_le t (s + 1) s' Ht ltac:(lia) ltac:(lia) ltac:(lia)). lia.
  - pose proof (Hchain s' ltac:(lia) ltac:(lia)).
    pose proof (getLow_le t (s' + 1) s Ht ltac:(lia) ltac:(lia) ltac:(lia)). lia.
Qed.

Lemma u32_small (x : Z) : 0 <= x < 2 ^ 32 -> u32 x = x.
Proof. intros. unfold u32. now apply Z.mod_small. Qed.

Lemma search_finds (t : FrequencyTable) (value : Z) :
  table_contract t -> getSymbolLimit t <= 2 ^ 31 -> value < getTotal t ->
  forall fuel start end_,
  0 <= start -> start < end_ -> end_ <= getSymbolLimit t ->
  end_ - start <= 2 ^ Z.of_nat fuel ->
  getLow t start <= value ->
  (end_ < getSymbolLimit t -> value < getLow t end_) ->
  exists s, search fuel t value start end_ = Some (s, s + 1) /\
            start <= s < end_ /\ getLow t s <= value < getHigh t s.
Proof.
  intros Ht Hlim31 Hvt. pose proof Ht as (Hlim & H0 & Hle & Hchain & Hlast).
  assert (H31 : 2 ^ 31 + 2 ^ 31 = 2 ^ 32) by reflexivity.
  assert (Hstop : forall start end_, 0 <= start -> start < end_ ->
            end_ <= getSymbolLimit t -> end_ - start <= 1 ->
            getLow t start <= value ->
            (end_ < getSymbolLimit t -> value < getLow t end_) ->
            start <= start < end_ /\ end_ = start + 1 /\
            getLow t start <= value < getHigh t start).
  { intros start end_ Hs Hse He H1 Hlo Hhi.
    assert (end_ = start + 1) by lia. subst end_.
    repeat split; try lia.
    destruct (Z.eq_dec (start + 1) (getSymbolLimit t)) as [E|Hne].
    - replace start with (getSymbolLimit t - 1) by lia. lia.
    - rewrite Hchain by lia. apply Hhi. lia. }
  induction fuel as [|f IH]; intros start end_ Hs Hse He Hsize Hlo Hhi;
    cbn [search]; rewrite (u32_small (end_ - start)) by lia;
    destruct (Z.gtb_spec (end_ - start) 1) as [Hgt|Hle1].
  - change (2 ^ Z.of_nat 0) with 1 in Hsize. lia.
  - destruct (Hstop start end_) as (? & -> & ?); try assumption.
    exists start. repeat split; try lia.
  - rewrite (u32_small (start + end_)) by lia.
    rewrite Z.shiftr_div_pow2 by lia. change (2 ^ 1) with 2.
    rewrite Nat2Z.inj_succ, Z.pow_succ_r in Hsize by lia.
    assert (Hm : 2 * ((start + end_) / 2) <= start + end_ < 2 * ((start + end_) / 2) + 2).
    { pose proof (Z.div_mod (start + end_) 2 ltac:(lia)).
      pose proof (Z.mod_pos_bound (start + end_) 2 ltac:(lia)). lia. }
    destruct (Z.gtb_spec (getLow t ((start + end_) / 2)) value) as [Hg|Hng].
    + destruct (IH start ((start + end_) / 2)) as (s & Es & Hr & Hv); try lia.
      exists s. split; [exact Es|]. split; [lia|exact Hv].
    + destruct (IH ((start + end_) / 2) end_) as (s & Es & Hr & Hv); try lia.
      exists s. split; [exact Es|]. split; [lia|exact Hv].
  - destruct (Hstop start end_) as (? & -> & ?); try assumption.
    exists start. repeat split; try lia.
Qed.

(** ** From the window to the symbol *)

(** The value computed by [read] lies in a symbol's frequency interval
    exactly when the offset lies in the symbol's share of the range. *)
Lemma value_in_symbol (range total offset symLow symHigh : Z) :
  0 < range -> 0 < total -> 0 <= offset ->
  let value := ((offset + 1) * total - 1) / range in
  (symLow <= value /\ value < symHigh) <->
  (symLow * range / total <= offset /\ offset < symHigh * range / total).
Proof.
  intros Hr Ht Ho value.
  pose proof (Z.div_mod ((offset + 1) * total - 1) range ltac:(lia)) as Ev.
  pose proof (Z.mod_pos_bound ((offset + 1) * total - 1) range Hr) as Bv.
  fold value in Ev.
  pose proof (Z.div_mod (symLow * range) total ltac:(lia)) as El.
  pose proof (Z.mod_pos_bound (symLow * range) total Ht) as Bl.
  pose proof (Z.div_mod (symHigh * range) total ltac:(lia)) as Eh.
  pose proof (Z.mod_pos_bound (symHigh * range) total Ht) as Bh.
  split; intros [H1 H2]; split; nia.
Qed.

Section ReadArith.
Variable b : Z.
Variable c : ArithmeticCoderBase.
Variable d : DecoderState.
Variable total : Z.
Hypothesis Hb : 1 <= b <= 63.
Hypothesis Hc : coder_consts b c.
Hypothesis Hok : state_ok c.
Hypothesis Hcode : code_ok c d.
Hypothesis Htot : 1 <= total <= MAX_TOTAL c.

Local Abbreviation range := (high c - low c + 1).
Local Abbreviation offset := (code d - low c).
Local Abbreviation value := (((offset + 1) * total - 1) / range).

Lemma read_range : u64 (high c - low c + 1) = range /\ 1 <= range /\ total <= range.
Proof using Hb Hc Hok Hcode Htot.
  destruct Hok as (Hl & Hlh & Hh & Hmin & Hmax).
  destruct (coder_consts_facts b c Hb Hc) as (H1 & Hf & Hm & Hmn & Hq & Hmt & Hprod & Hfull).
  assert (H64 : 2 ^ 63 < 2 ^ 64) by reflexivity.
  rewrite u64_small by lia. lia.
Qed.

Lemma read_offset : u64 (code d - low c) = offset /\ 0 <= offset < range.
Proof using Hb Hc Hok Hcode Htot.
  destruct Hok as (Hl & Hlh & Hh & Hmin & Hmax). destruct Hcode as [Hlo Hhi].
  destruct (coder_consts_facts b c Hb Hc) as (H1 & Hf & Hm & Hmn & Hq & Hmt & Hprod & Hfull).
  assert (H64 : 2 ^ 63 < 2 ^ 64) by reflexivity.
  rewrite u64_small by lia. lia.
Qed.

Lemma range_total_bound : range * total <= 2 ^ 64 - 1 /\ range <= 2 ^ 63.
Proof using Hb Hc Hok Hcode Htot.
  destruct Hok as (Hl & Hlh & Hh & Hmin & Hmax).
  destruct (coder_consts_facts b c Hb Hc) as (H1 & Hf & Hm & Hmn & Hq & Hmt & Hprod & Hfull).
  split; [nia | lia].
Qed.

Lemma read_value :
  u64 (u64 (u64 (offset + 1) * total) - 1) / range = value /\ 0 <= value < total.
Proof using Hb Hc Hok Hcode Htot.
  destruct read_range as (_ & Hr1 & Hrt). destruct read_offset as (_ & Ho).
  destruct range_total_bound as [Hp H63].
  assert (H64 : 2 ^ 63 < 2 ^ 64) by reflexivity.
  assert (Hn : 0 <= (offset + 1) * total - 1 < range * total) by nia.
  rewrite (u64_small (offset + 1)) by lia.
  rewrite (u64_small ((offset + 1) * total)) by lia.
  rewrite u64_small by lia. split; [reflexivity|]. split.
  - apply Z.div_pos; lia.
  - apply Z.div_lt_upper_bound; lia.
Qed.

Lemma read_first_assertion : (u64 (value * range) / total >? offset) = false.
Proof using Hb Hc Hok Hcode Htot.
  destruct read_range as (_ & Hr1 & Hrt). destruct read_offset as (_ & Ho).
  destruct range_total_bound as [Hp H63]. destruct read_value as (_ & Hv).
  rewrite u64_small by nia.
  destruct (value_in_symbol range total offset value (value + 1)
              ltac:(lia) ltac:(lia) ltac:(lia)) as [Hin _].
  cbv zeta in Hin. specialize (Hin ltac:(lia)). lia.
Qed.

(** The share of a frequency interval inside the current range. *)
Lemma product_no_wrap (x : Z) : 0 <= x <= total -> u64 (x * range) = x * range.
Proof using Hb Hc Hok Hcode Htot.
  intros Hx. destruct read_range as (_ & Hr1 & Hrt).
  destruct range_total_bound as [Hp H63]. apply u64_small. nia.
Qed.
End ReadArith.

(** ** [read] on a well-formed decoder *)

Lemma contract_codable (c : ArithmeticCoderBase) (t : FrequencyTable) (s : Z) :
  table_contract t -> getTotal t <= MAX_TOTAL c ->
  0 <= s < getSymbolLimit t -> getLow t s < getHigh t s -> codable c t s.
Proof.
  intros Ht Htot Hs Hlt. unfold codable.
  pose proof (getLow_nonneg t s Ht Hs). pose proof (getHigh_le_total t s Ht Hs). lia.
Qed.

Lemma code_in_narrow_iff (b : Z) (c : ArithmeticCoderBase) (d : DecoderState)
    (t : FrequencyTable) (s : Z) :
  1 <= b <= 63 -> coder_consts b c -> state_ok c -> code_ok c d -> codable c t s ->
  let value := ((code d - low c + 1) * getTotal t - 1) / (high c - low c + 1) in
  code_ok (narrow c (getLow t s) (getHigh t s) (getTotal t)) d <->
  getLow t s <= value < getHigh t s.
Proof.
  intros Hb Hc Hok Hcode (H0 & Hlt & Hle & Htot) value.
  destruct (narrow_spec b c Hb Hc _ _ _ Hok H0 Hlt Hle Htot) as (El & Eh & _).
  assert (Ht1 : 1 <= getTotal t <= MAX_TOTAL c) by lia.
  destruct (read_range b c d _ Hb Hc Hok Hcode Ht1) as (_ & Hr1 & _).
  destruct (read_offset b c d _ Hb Hc Hok Hcode Ht1) as (_ & Ho).
  pose proof (value_in_symbol (high c - low c + 1) (getTotal t) (code d - low c)
                (getLow t s) (getHigh t s) ltac:(lia) ltac:(lia) ltac:(lia)) as Hiff.
  cbv zeta in Hiff. fold value in Hiff.
  unfold code_ok. rewrite El, Eh. rewrite Hiff. lia.
Qed.

Lemma read_unfold (b : Z) (fuel : nat) (t : FrequencyTable)
    (c : ArithmeticCoderBase) (d : DecoderState) :
  1 <= b <= 63 -> coder_consts b c -> state_ok c -> code_ok c d ->
  table_contract t -> getSymbolLimit t <= 2 ^ 31 ->
  1 <= getTotal t <= MAX_TOTAL c -> (31 <= fuel)%nat ->
  exists s, 0 <= s < getSymbolLimit t /\ codable c t s /\
    code_ok (narrow c (getLow t s) (getHigh t s) (getTotal t)) d /\
    read fuel t c d
    = match update fuel t s c d with
      | (Ok _, (c', d')) =>
          if (code d' <? low c') || (code d' >? high c')
          then (Err CodeOutOfRange, (c', d'))
          else (Ok s, (c', d'))
      | (Err e, st) => (Err e, st)
      end.
Proof.
  intros Hb Hc Hok Hcode Ht Hlim31 Htot Hfuel.
  destruct (read_range b c d _ Hb Hc Hok Hcode Htot) as (Er & Hr1 & _).
  destruct (read_offset b c d _ Hb Hc Hok Hcode Htot) as (Eo & Ho).
  destruct (read_value b c d _ Hb Hc Hok Hcode Htot) as (Ev & Hv).
  pose proof (read_first_assertion b c d _ Hb Hc Hok Hcode Htot) as Ea.
  pose proof Ht as (Hlim & H0 & Hle & Hchain & Hlast).
  set (value := ((code d - low c + 1) * getTotal t - 1) / (high c - low c + 1)) in *.
  destruct (search_finds t value Ht Hlim31 ltac:(lia) fuel 0 (getSymbolLimit t))
    as (s & Es & Hs & Hin); try lia.
  { rewrite Z.sub_0_r. apply Z.le_trans with (2 ^ 31); [exact Hlim31|].
    apply Z.pow_le_mono_r; lia. }
  assert (Hcod : codable c t s) by (apply contract_codable; try assumption; lia).
  exists s. split; [lia|]. split; [exact Hcod|].
  split; [apply (code_in_narrow_iff b); assumption|].
  unfold read.
  assert (E1 : (getTotal t >? MAX_TOTAL c) = false) by lia.
  rewrite E1, Er, Eo.
  assert (E2 : (high c - low c + 1 =? 0) = false) by lia.
  rewrite E2, Ev. fold value.
  assert (E3 : (getTotal t =? 0) = false) by lia.
  rewrite E3, Ea.
  assert (E4 : (value >=? getTotal t) = false) by lia.
  rewrite E4, Es.
  assert (H32 : 2 ^ 31 < 2 ^ 32) by reflexivity.
  rewrite (u32_small (s + 1)), Z.eqb_refl by lia. cbn [negb].
  destruct Hcod as (Hc0 & Hclt & Hcle & _).
  rewrite !(product_no_wrap b c d _ Hb Hc Hok Hcode Htot) by lia.
  destruct (value_in_symbol (high c - low c + 1) (getTotal t) (code d - low c)
              (getLow t s) (getHigh t s) ltac:(lia) ltac:(lia) ltac:(lia)) as [Hto _].
  fold value in Hto. specialize (Hto ltac:(lia)).
  assert (E5 : (code d - low c <? getLow t s * (high c - low c + 1) / getTotal t) = false)
    by lia.
  assert (E6 : (getHigh t s * (high c - low c + 1) / getTotal t <=? code d - low c) = false)
    by lia.
  rewrite E5, E6. cbn [orb]. reflexivity.
Qed.

(** ** Streams of bits *)

Lemma hd_skipn (n : nat) (G : list Z) : hd 0 (skipn n G) = nth n G 0.
Proof.
  revert G. induction n as [|n IH]; intros [|g G]; cbn; auto.
Qed.

Lemma tl_skipn (n : nat) (G : list Z) : tl (skipn n G) = skipn (S n) G.
Proof.
  revert G. induction n as [|n IH]; intros [|g G]; cbn; auto.
Qed.

Lemma skipn_tl (n : nat) (G : list Z) : skipn n (tl G) = skipn (S n) G.
Proof. destruct G; cbn; [destruct n|]; reflexivity. Qed.

Lemma nth_tl (n : nat) (G : list Z) : nth n (tl G) 0 = nth (S n) G 0.
Proof. destruct G; cbn; [destruct n|]; reflexivity. Qed.

Lemma skipn_add (n m : nat) (G : list Z) : skipn n (skipn m G) = skipn (m + n) G.
Proof.
  revert G. induction m as [|m IH]; intros G; [reflexivity|].
  destruct G as [|g G]; cbn; [destruct n; reflexivity | apply IH].
Qed.

Lemma nth_skipn_add (n m : nat) (G : list Z) : nth n (skipn m G) 0 = nth (m + n) G 0.
Proof. rewrite <- hd_skipn, skipn_add, hd_skipn. reflexivity. Qed.

Lemma bits_tl (G : list Z) : Forall is_bit G -> Forall is_bit (tl G).
Proof. intros H. destruct G; [constructor | now inversion H]. Qed.

Lemma bits_skipn (n : nat) (G : list Z) : Forall is_bit G -> Forall is_bit (skipn n G).
Proof.
  revert G. induction n as [|n IH]; intros G H; [exact H|].
  destruct G; [constructor|]. cbn. apply IH. now inversion H.
Qed.

Lemma bits_hd (G : list Z) : Forall is_bit G -> is_bit (hd 0 G).
Proof. intros H. destruct G; [left; reflexivity | now inversion H]. Qed.

Lemma bits_nth (n : nat) (G : list Z) : Forall is_bit G -> is_bit (nth n G 0).
Proof. intros H. rewrite <- hd_skipn. apply bits_hd, bits_skipn, H. Qed.

Lemma bits_repeat (x : Z) (n : nat) : is_bit x -> Forall is_bit (repeat x n).
Proof. intros Hx. induction n; cbn; constructor; auto. Qed.

Lemma val_bound (n : nat) : forall G, Forall is_bit G -> 0 <= val n G < 2 ^ Z.of_nat n.
Proof.
  induction n as [|n IH]; intros G HG; cbn [val]; [simpl; lia|].
  specialize (IH (tl G) (bits_tl G HG)).
  rewrite Nat2Z.inj_succ, Z.pow_succ_r by lia.
  destruct (bits_hd G HG) as [-> | ->]; lia.
Qed.

(** Reading one more bit at the low end. *)
Lemma val_snoc (n : nat) : forall G, val (S n) G = 2 * val n G + nth n G 0.
Proof.
  induction n as [|n IH]; intros G.
  - cbn [val]. change (2 ^ Z.of_nat 0) with 1. destruct G; cbn [hd nth]; lia.
  - change (val (S (S n)) G) with (hd 0 G * 2 ^ Z.of_nat (S n) + val (S n) (tl G)).
    rewrite IH, nth_tl. cbn [val].
    rewrite Nat2Z.inj_succ, Z.pow_succ_r by lia. lia.
Qed.

(** ** One iteration, seen from the bits ahead *)

Lemma skipn_repeat_app (x : Z) (nu : nat) (G : list Z) :
  skipn nu (repeat x nu ++ G) = G.
Proof. induction nu as [|nu IH]; [reflexivity | exact IH]. Qed.

Lemma nth_repeat_app (x : Z) (nu i : nat) (G : list Z) :
  (i < nu)%nat -> nth i (repeat x nu ++ G) 0 = x.
Proof.
  revert i. induction nu as [|nu IH]; intros i Hi; [lia|].
  destruct i as [|i]; [reflexivity|]. cbn. apply IH. lia.
Qed.

Lemma lxor_bit_1 (x : Z) : is_bit x -> Z.lxor x 1 = 1 - x.
Proof. intros [-> | ->]; reflexivity. Qed.

Section StreamSteps.
Variable b : Z.
Variable c : ArithmeticCoderBase.
Hypothesis Hb : 1 <= b <= 63.
Hypothesis Hc : coder_consts b c.

Lemma half_pow : halfRange c = 2 ^ Z.of_nat (Z.to_nat (numStateBits c - 1)).
Proof using Hb Hc.
  destruct Hc as (-> & _ & -> & _). f_equal. lia.
Qed.

Lemma bits_succ : Z.to_nat (numStateBits c) = S (Z.to_nat (numStateBits c - 1)).
Proof using Hb Hc. destruct Hc as (-> & _). lia. Qed.

Lemma codeOf_zero (G : list Z) :
  codeOf c 0 G = val (Z.to_nat (numStateBits c)) G.
Proof using Hb Hc.
  unfold codeOf. rewrite bits_succ. cbn [val]. rewrite <- half_pow.
  destruct G; reflexivity.
Qed.

Lemma codeOf_resolved (bit x : Z) (nu : nat) (G : list Z) :
  codeOf c nu (bit :: repeat x nu ++ G)
  = bit * halfRange c + val (Z.to_nat (numStateBits c - 1)) G.
Proof using Hb Hc.
  unfold codeOf. cbn [hd skipn]. rewrite skipn_repeat_app. reflexivity.
Qed.

(** The bit of a shift, as the number subtracted from both ends. *)
Lemma encoder_bit_half : pre_ok c ->
  let bit := to_int (Z.shiftr (low c) (numStateBits c - 1)) in
  is_bit bit /\
  bit * halfRange c = if halfRange c <=? low c then halfRange c else 0.
Proof using Hb Hc.
  intros (Hl & Hlh & Hh) bit. subst bit.
  rewrite (encoder_bit b c Hb Hc) by lia.
  destruct (halfRange c <=? low c); split; try lia; [right|left]; reflexivity.
Qed.

(** A shift, backwards: a stream inside the shifted interval, put behind
    the bits the shift writes, is inside the interval before. *)
Lemma shift_contains (nu : nat) (G : list Z) :
  pre_ok c -> top_bits_equal c = true ->
  let bit := to_int (Z.shiftr (low c) (numStateBits c - 1)) in
  contains (shift_interval c) 0 G ->
  contains c nu (bit :: repeat (Z.lxor bit 1) nu ++ G).
Proof using Hb Hc.
  intros Hpre Ht bit (HG & _ & Hlo & Hhi).
  destruct (encoder_bit_half Hpre) as [Hbit Ebit]. fold bit in Hbit, Ebit.
  destruct (shift_interval_step b c Hb Hc Hpre Ht) as (El & Eh & _).
  rewrite (lxor_bit_1 bit Hbit).
  unfold contains. repeat split.
  - constructor; [exact Hbit|]. apply Forall_app. split; [|exact HG].
    apply bits_repeat. destruct Hbit as [-> | ->]; [right|left]; reflexivity.
  - intros i Hi. destruct i as [|i]; [lia|]. cbn [nth hd].
    apply nth_repeat_app. lia.
  - rewrite codeOf_resolved, Ebit.
    change (codeOf (shift_interval c) 0 G) with (codeOf c 0 G) in Hlo.
    rewrite codeOf_zero, bits_succ, val_snoc, El in Hlo.
    destruct (bits_nth (Z.to_nat (numStateBits c - 1)) G HG) as [E | E];
      rewrite E in Hlo; lia.
  - rewrite codeOf_resolved, Ebit.
    change (codeOf (shift_interval c) 0 G) with (codeOf c 0 G) in Hhi.
    rewrite codeOf_zero, bits_succ, val_snoc, Eh in Hhi.
    destruct (bits_nth (Z.to_nat (numStateBits c - 1)) G HG) as [E | E];
      rewrite E in Hhi; lia.
Qed.

(** A shift, forwards: the decoder that held the window of the stream
    holds, after its own shift, the window of what follows. *)
Lemma shift_synced (nu : nat) (G : list Z) (d : DecoderState) :
  pre_ok c -> top_bits_equal c = true ->
  let bit := to_int (Z.shiftr (low c) (numStateBits c - 1)) in
  Forall is_bit G -> code_ok c d ->
  synced c nu (bit :: repeat (Z.lxor bit 1) nu ++ G) d ->
  exists d', Decoder_shift c d = Ok d' /\ synced (shift_interval c) 0 G d'.
Proof using Hb Hc.
  intros Hpre Ht bit HG Hcode [Ecode Einp].
  destruct (encoder_bit_half Hpre) as [Hbit Ebit]. fold bit in Hbit, Ebit.
  assert (Hinp : input d = skipn (Z.to_nat (numStateBits c - 1)) G).
  { rewrite Einp, bits_succ.
    replace (nu + S (Z.to_nat (numStateBits c - 1)))%nat
      with (S nu + Z.to_nat (numStateBits c - 1))%nat by lia.
    rewrite <- skipn_add. cbn [skipn]. rewrite skipn_repeat_app. reflexivity. }
  assert (Hbits : Forall is_bit (input d)) by (rewrite Hinp; apply bits_skipn, HG).
  rewrite (Decoder_shift_spec b c d Hb Hc Hbits Hpre Ht Hcode).
  eexists. split; [reflexivity|].
  unfold synced. cbn [code input]. split.
  - change (codeOf (shift_interval c) 0 G) with (codeOf c 0 G).
    rewrite codeOf_zero, bits_succ, val_snoc, Hinp, hd_skipn.
    rewrite Ecode, codeOf_resolved, Ebit. lia.
  - change (numStateBits (shift_interval c)) with (numStateBits c).
    rewrite Hinp, tl_skipn, bits_succ. reflexivity.
Qed.
(** The pieces of the two windows around an underflow step. *)
Lemma underflow_windows (nu : nat) (F : list Z) :
  2 <= b -> Forall is_bit F -> pending (S nu) F ->
  let k := Z.to_nat (b - 2) in
  let G' := skipn (S (S nu)) F in
  quarterRange c = 2 ^ Z.of_nat k /\
  0 <= val k G' < quarterRange c /\
  is_bit (hd 0 F) /\
  nth k G' 0 = nth (nu + Z.to_nat (numStateBits c)) F 0 /\
  codeOf c nu F = hd 0 F * halfRange c + (1 - hd 0 F) * quarterRange c + val k G' /\
  codeOf c (S nu) F = hd 0 F * halfRange c + 2 * val k G' + nth k G' 0.
Proof using Hb Hc.
  intros Hb2 HF Hpend k G'.
  destruct (quarter_cases b c Hb Hc) as [(? & _)|(_ & Hq & Hh & Hq1)]; [lia|].
  assert (Ek : Z.to_nat (numStateBits c - 1) = S k).
  { destruct Hc as (-> & _). subst k. lia. }
  assert (Eq : quarterRange c = 2 ^ Z.of_nat k).
  { rewrite Hq. f_equal. subst k. lia. }
  split; [exact Eq|]. split; [rewrite Eq; apply val_bound, bits_skipn, HF|].
  split; [apply bits_hd, HF|]. split.
  - subst G'. rewrite nth_skipn_add. f_equal.
    destruct Hc as (-> & _). subst k. lia.
  - unfold codeOf. rewrite Ek. split.
    + cbn [val]. rewrite hd_skipn, tl_skipn, <- Eq.
      rewrite (Hpend (S nu)) by lia. fold G'. lia.
    + rewrite val_snoc. fold G'. lia.
Qed.

(** An underflow step, backwards. *)
Lemma underflow_contains (nu : nat) (F : list Z) :
  split_ok c -> second_bits_straddle c = true ->
  contains (underflow_interval c) (S nu) F -> contains c nu F.
Proof using Hb Hc.
  intros Hsp Hs (HF & Hpend & Hlo & Hhi).
  destruct (straddle_true b c Hb Hc Hsp Hs) as (Hhq & Hb2 & Hql & Hhq').
  destruct (underflow_interval_step b c Hb Hc Hsp Hs) as (El & Eh & _).
  destruct (underflow_windows nu F Hb2 HF Hpend) as (_ & Hv & Hf0 & _ & E0 & E1).
  change (codeOf (underflow_interval c) (S nu) F) with (codeOf c (S nu) F) in Hlo, Hhi.
  rewrite E1, El in Hlo. rewrite E1, Eh in Hhi.
  destruct Hsp as (Hl & Hlh & Hhl & Hh).
  pose proof (bits_nth (Z.to_nat (b - 2)) (skipn (S (S nu)) F) (bits_skipn _ _ HF)) as Hx.
  unfold contains. split; [exact HF|]. split.
  - intros i Hi. apply Hpend. lia.
  - rewrite E0. destruct Hf0 as [E | E]; rewrite E in *;
      destruct Hx as [Ex | Ex]; rewrite Ex in *; lia.
Qed.

(** An underflow step, forwards. *)
Lemma underflow_synced (nu : nat) (F : list Z) (d : DecoderState) :
  split_ok c -> second_bits_straddle c = true ->
  Forall is_bit F -> pending (S nu) F -> code_ok c d ->
  synced c nu F d ->
  exists d', Decoder_underflow c d = Ok d' /\ synced (underflow_interval c) (S nu) F d'.
Proof using Hb Hc.
  intros Hsp Hs HF Hpend Hcode [Ecode Einp].
  destruct (straddle_true b c Hb Hc Hsp Hs) as (Hhq & Hb2 & Hql & Hhq').
  destruct (underflow_windows nu F Hb2 HF Hpend) as (_ & Hv & Hf0 & En & E0 & E1).
  assert (Hbits : Forall is_bit (input d)) by (rewrite Einp; apply bits_skipn, HF).
  rewrite (Decoder_underflow_spec b c d Hb Hc Hbits Hsp Hs Hcode).
  eexists. split; [reflexivity|].
  unfold synced. cbn [code input].
  change (codeOf (underflow_interval c) (S nu) F) with (codeOf c (S nu) F).
  change (numStateBits (underflow_interval c)) with (numStateBits c).
  split.
  - rewrite E1, En, Einp, hd_skipn, Ecode, E0.
    destruct Hsp as (Hl & Hlh & Hhl & Hh).
    destruct Hf0 as [E | E]; rewrite E;
      match goal with
      | |- context [if ?x <=? ?y then _ else _] => destruct (Z.leb_spec x y)
      end; lia.
  - rewrite Einp, tl_skipn. reflexivity.
Qed.
End StreamSteps.

(** ** Encoder and decoder in lock step *)

Lemma contains_code_ok (c : ArithmeticCoderBase) (nu : nat) (F : list Z)
    (d : DecoderState) :
  contains c nu F -> synced c nu F d -> code_ok c d.
Proof.
  intros (_ & _ & Hlo & Hhi) [Ecode _]. unfold code_ok. rewrite Ecode. lia.
Qed.

Section LockStep.
Variable umax : Z.
Variable b : Z.
Hypothesis Hb : 1 <= b <= 63.

Lemma shift_loop_sync (fuel : nat) : forall c e c' e',
  coder_consts b c -> pre_ok c -> 0 <= numUnderflow e ->
  @shift_loop _ (EncoderHooks umax) fuel c e = (Ok tt, (c', e')) ->
  exists em, output e' = output e ++ em /\ 0 <= numUnderflow e' /\
    coder_consts b c' /\ split_ok c' /\
    forall F', contains c' (pendingBits e') F' ->
      contains c (pendingBits e) (em ++ F') /\
      forall d, synced c (pendingBits e) (em ++ F') d ->
        exists d', @shift_loop _ DecoderHooks fuel c d = (Ok tt, (c', d')) /\
                   synced c' (pendingBits e') F' d'.
Proof using Hb.
  induction fuel as [|f IH]; intros c e c' e' Hc Hpre Hnu Hrun;
    cbn [shift_loop] in Hrun; destruct (top_bits_equal c) eqn:Ht;
    try discriminate.
  - injection Hrun as <- <-. exists []. rewrite app_nil_r.
    pose proof (top_bits_equal_false b c Hb Hc Hpre Ht) as Hsp.
    split; [reflexivity|]. split; [exact Hnu|]. split; [exact Hc|].
    split; [exact Hsp|]. intros F' HF'. split; [exact HF'|].
    intros d Hd. exists d. cbn [shift_loop]. rewrite Ht. auto.
  - cbn [shift EncoderHooks] in Hrun. unfold Encoder_shift in Hrun.
    set (bit := to_int (Z.shiftr (low c) (numStateBits c - 1))) in *.
    set (e1 := {| output := BitOutputStream_write (output e) bit
                              ++ repeat (Z.lxor bit 1) (Z.to_nat (numUnderflow e));
                  numUnderflow := 0 |}) in *.
    destruct (shift_interval_step b c Hb Hc Hpre Ht) as (_ & _ & Hpre1).
    destruct (IH (shift_interval c) e1 c' e' Hc Hpre1 ltac:(cbn; lia) Hrun)
      as (em1 & Eout & Hnu' & Hc' & Hsp' & Hfut).
    exists (bit :: repeat (Z.lxor bit 1) (pendingBits e) ++ em1).
    split.
    { rewrite Eout. subst e1. cbn [output]. unfold BitOutputStream_write, pendingBits.
      rewrite <- !app_assoc. reflexivity. }
    split; [exact Hnu'|]. split; [exact Hc'|]. split; [exact Hsp'|].
    intros F' HF'. destruct (Hfut F' HF') as [Hcont1 Hdec1].
    change (pendingBits e1) with 0%nat in Hcont1, Hdec1.
    assert (Hcont : contains c (pendingBits e)
              (bit :: repeat (Z.lxor bit 1) (pendingBits e) ++ em1 ++ F')).
    { apply (shift_contains b c Hb Hc); assumption. }
    cbn [app]. rewrite <- app_assoc. split; [exact Hcont|].
    intros d Hd.
    destruct (shift_synced b c Hb Hc (pendingBits e) (em1 ++ F') d Hpre Ht)
      as (d1 & Ed1 & Hs1).
    { destruct Hcont1 as (HG & _). exact HG. }
    { exact (contains_code_ok _ _ _ _ Hcont Hd). }
    { exact Hd. }
    destruct (Hdec1 d1 Hs1) as (d' & Erun & Hs').
    exists d'. split; [|exact Hs'].
    cbn [shift_loop]. rewrite Ht. cbn [shift DecoderHooks]. rewrite Ed1. exact Erun.
  - injection Hrun as <- <-. exists []. rewrite app_nil_r.
    pose proof (top_bits_equal_false b c Hb Hc Hpre Ht) as Hsp.
    split; [reflexivity|]. split; [exact Hnu|]. split; [exact Hc|].
    split; [exact Hsp|]. intros F' HF'. split; [exact HF'|].
    intros d Hd. exists d. cbn [shift_loop]. rewrite Ht. auto.
Qed.

Lemma underflow_loop_sync (fuel : nat) : forall c e c' e',
  coder_consts b c -> split_ok c -> 0 <= numUnderflow e ->
  @underflow_loop _ (EncoderHooks umax) fuel c e = (Ok tt, (c', e')) ->
  output e' = output e /\ 0 <= numUnderflow e' /\
  coder_consts b c' /\ renormalized c' /\
  forall F, contains c' (pendingBits e') F ->
    contains c (pendingBits e) F /\
    forall d, synced c (pendingBits e) F d ->
      exists d', @underflow_loop _ DecoderHooks fuel c d = (Ok tt, (c', d')) /\
                 synced c' (pendingBits e') F d'.
Proof using Hb.
  induction fuel as [|f IH]; intros c e c' e' Hc Hsp Hnu Hrun;
    cbn [underflow_loop] in Hrun; destruct (second_bits_straddle c) eqn:Hs;
    try discriminate.
  - injection Hrun as <- <-.
    pose proof (straddle_false b c Hb Hc Hsp Hs) as Hren.
    split; [reflexivity|]. split; [exact Hnu|]. split; [exact Hc|].
    split; [exact Hren|]. intros F HF. split; [exact HF|].
    intros d Hd. exists d. cbn [underflow_loop]. rewrite Hs. auto.
  - cbn [underflow EncoderHooks] in Hrun. unfold Encoder_underflow in Hrun.
    destruct (numUnderflow e =? umax); [discriminate|].
    set (e1 := {| output := output e; numUnderflow := numUnderflow e + 1 |}) in *.
    destruct (underflow_interval_step b c Hb Hc Hsp Hs) as (_ & _ & Hsp1).
    destruct (IH (underflow_interval c) e1 c' e' Hc Hsp1 ltac:(cbn; lia) Hrun)
      as (Eout & Hnu' & Hc' & Hren' & Hfut).
    split; [exact Eout|]. split; [exact Hnu'|]. split; [exact Hc'|].
    split; [exact Hren'|].
    intros F HF. destruct (Hfut F HF) as [Hcont1 Hdec1].
    assert (E1 : pendingBits e1 = S (pendingBits e)).
    { unfold pendingBits. subst e1. cbn [numUnderflow]. lia. }
    rewrite E1 in Hcont1, Hdec1.
    assert (Hcont : contains c (pendingBits e) F).
    { apply (underflow_contains b c Hb Hc); assumption. }
    split; [exact Hcont|]. intros d Hd.
    destruct Hcont1 as (HbF & Hpend & _).
    destruct (underflow_synced b c Hb Hc (pendingBits e) F d Hsp Hs HbF Hpend
                (contains_code_ok _ _ _ _ Hcont Hd) Hd) as (d1 & Ed1 & Hs1).
    destruct (Hdec1 d1 Hs1) as (d' & Erun & Hs').
    exists d'. split; [|exact Hs'].
    cbn [underflow_loop]. rewrite Hs. cbn [underflow DecoderHooks]. rewrite Ed1.
    exact Erun.
  - injection Hrun as <- <-.
    pose proof (straddle_false b c Hb Hc Hsp Hs) as Hren.
    split; [reflexivity|]. split; [exact Hnu|]. split; [exact Hc|].
    split; [exact Hren|]. intros F HF. split; [exact HF|].
    intros d Hd. exists d. cbn [underflow_loop]. rewrite Hs. auto.
Qed.
End LockStep.

(** ** One symbol, and a whole run *)

Lemma narrow_pre_ok (b : Z) (c : ArithmeticCoderBase) (t : FrequencyTable) (s : Z) :
  1 <= b <= 63 -> coder_consts b c -> state_ok c -> codable c t s ->
  pre_ok (narrow c (getLow t s) (getHigh t s) (getTotal t)).
Proof.
  intros Hb Hc Hok (H0 & Hlt & Hle & Htot).
  destruct (narrow_spec b c Hb Hc _ _ _ Hok H0 Hlt Hle Htot) as (_ & _ & Hn1 & Hn2 & Hn3).
  destruct Hok as (? & ? & ? & _). unfold pre_ok.
  change (MASK (narrow c (getLow t s) (getHigh t s) (getTotal t))) with (MASK c). lia.
Qed.

Lemma contains_widen (c c0 : ArithmeticCoderBase) (nu : nat) (F : list Z) :
  halfRange c = halfRange c0 -> numStateBits c = numStateBits c0 ->
  low c0 <= low c -> high c <= high c0 ->
  contains c nu F -> contains c0 nu F.
Proof.
  intros Eh En Hl Hh (HF & Hp & Hlo & Hhi).
  unfold contains, codeOf in *. rewrite <- Eh, <- En.
  repeat split; try assumption; lia.
Qed.

Lemma update_sync (umax b : Z) (fuel : nat) (t : FrequencyTable) (s : Z)
    (c c' : ArithmeticCoderBase) (e e' : EncoderState) :
  1 <= b <= 63 -> coder_consts b c -> state_ok c -> codable c t s ->
  0 <= numUnderflow e ->
  write umax fuel t s c e = (Ok tt, (c', e')) ->
  exists em, output e' = output e ++ em /\ 0 <= numUnderflow e' /\
    coder_consts b c' /\ renormalized c' /\
    forall F', contains c' (pendingBits e') F' ->
      contains (narrow c (getLow t s) (getHigh t s) (getTotal t))
               (pendingBits e) (em ++ F') /\
      forall d, synced c (pendingBits e) (em ++ F') d ->
        exists d', @update _ DecoderHooks fuel t s c d = (Ok tt, (c', d')) /\
                   synced c' (pendingBits e') F' d'.
Proof.
  intros Hb Hc Hok Hcod Hnu Hrun. unfold write in Hrun.
  rewrite (update_unfold b Hb) in Hrun by assumption.
  set (cn := narrow c (getLow t s) (getHigh t s) (getTotal t)) in *.
  pose proof (narrow_pre_ok b c t s Hb Hc Hok Hcod) as Hpre. fold cn in Hpre.
  unfold renormalize in Hrun.
  destruct (@shift_loop _ (EncoderHooks umax) fuel cn e) as [[[]|er] [c1 e1]] eqn:E1;
    [|discriminate].
  destruct (shift_loop_sync umax b Hb fuel cn e c1 e1 Hc Hpre Hnu E1)
    as (em & Eout & Hnu1 & Hc1 & Hsp1 & Hfut1).
  destruct (underflow_loop_sync umax b Hb fuel c1 e1 c' e' Hc1 Hsp1 Hnu1 Hrun)
    as (Eout' & Hnu' & Hc' & Hren' & Hfut2).
  exists em. split; [congruence|]. split; [exact Hnu'|]. split; [exact Hc'|].
  split; [exact Hren'|].
  intros F' HF'. destruct (Hfut2 F' HF') as [Hcont1 Hdec2].
  destruct (Hfut1 F' Hcont1) as [Hcont Hdec1].
  split; [exact Hcont|]. intros d Hd.
  rewrite (update_unfold b Hb) by assumption. fold cn. unfold renormalize.
  destruct (Hdec1 d Hd) as (d1 & Ed1 & Hs1). rewrite Ed1.
  exact (Hdec2 d1 Hs1).
Qed.

Lemma val_nil (n : nat) : val n [] = 0.
Proof. induction n as [|n IH]; [reflexivity|]. cbn [val hd tl]. rewrite IH. lia. Qed.

(** After the last symbol the encoder writes the single bit 1: the point
    [halfRange], which every renormalized interval holds. *)
Lemma contains_finish (b : Z) (c : ArithmeticCoderBase) (nu : nat) :
  1 <= b <= 63 -> coder_consts b c -> renormalized c -> contains c nu [1].
Proof.
  intros Hb Hc [(Hl & Hlh & Hhl & Hh) _]. unfold contains, codeOf.
  assert (E : skipn (S nu) [1] = []) by (cbn; destruct nu; reflexivity).
  rewrite E, val_nil. cbn [hd]. repeat split; try lia.
  - constructor; [right; reflexivity | constructor].
  - intros i Hi. destruct i as [|[|i]]; [lia | reflexivity | reflexivity].
Qed.

Lemma symbol_codable (t : FrequencyTable) (c : ArithmeticCoderBase) (s : Z) :
  table_contract t -> getTotal t <= MAX_TOTAL c ->
  0 <= s < getSymbolLimit t -> getLow t s <> getHigh t s ->
  codable c t s /\ 1 <= getTotal t.
Proof.
  intros Ht Htot Hs Hne. pose proof Ht as (_ & _ & Hle & _).
  specialize (Hle s Hs).
  assert (Hcod : codable c t s) by (apply contract_codable; try assumption; lia).
  split; [exact Hcod|]. destruct Hcod as (? & ? & ? & _). lia.
Qed.

Section WholeRun.
Variable umax : Z.
Variable b : Z.
Variable fuel : nat.
Variable t : FrequencyTable.
Hypothesis Hb : 1 <= b <= 63.
Hypothesis Hfuel : (64 <= fuel)%nat.
Hypothesis Ht : table_contract t.
Hypothesis Hlim : getSymbolLimit t <= 2 ^ 31.

Lemma write_all_sync (syms : list Z) : forall c e c' e',
  coder_consts b c -> renormalized c -> 0 <= numUnderflow e ->
  getTotal t <= MAX_TOTAL c -> symbols_ok t syms ->
  write_all umax fuel t syms c e = (Ok tt, (c', e')) ->
  exists F, output e' ++ [1] = output e ++ F /\
    contains c (pendingBits e) F /\
    forall d, synced c (pendingBits e) F d ->
      exists st, read_all fuel t (length syms) c d = (Ok syms, st).
Proof using Hb Hfuel Ht Hlim.
  induction syms as [|s rest IH]; intros c e c' e' Hc Hren Hnu Htot Hsyms Hrun.
  - cbn [write_all] in Hrun. injection Hrun as <- <-.
    exists [1]. split; [reflexivity|].
    split; [apply (contains_finish b); assumption|].
    intros d _. eexists. reflexivity.
  - cbn [write_all] in Hrun.
    destruct (write umax fuel t s c e) as [[[]|er] [c1 e1]] eqn:Ew; [|discriminate].
    inversion Hsyms as [|? ? [Hs Hne] Hrest]; subst.
    destruct (symbol_codable t c s Ht Htot Hs Hne) as [Hcod Htot1].
    pose proof (renormalized_state_ok b c Hb Hc Hren) as Hok.
    destruct (update_sync umax b fuel t s c c1 e e1 Hb Hc Hok Hcod Hnu Ew)
      as (em & Eout & Hnu1 & Hc1 & Hren1 & Hfut).
    assert (Htot' : getTotal t <= MAX_TOTAL c1).
    { pose proof Hc as (_ & _ & _ & _ & _ & Em & _).
      pose proof Hc1 as (_ & _ & _ & _ & _ & Em1 & _).
      rewrite Em1, <- Em. exact Htot. }
    destruct (IH c1 e1 c' e' Hc1 Hren1 Hnu1 Htot' Hrest Hrun)
      as (F1 & EF1 & Hcont1 & Hdec1).
    exists (em ++ F1). split; [rewrite EF1, Eout, app_assoc; reflexivity|].
    destruct (Hfut F1 Hcont1) as [Hcontn Hdec].
    assert (Hcont : contains c (pendingBits e) (em ++ F1)).
    { destruct Hcod as (H0 & Hlt & Hle & Hmax).
      destruct (narrow_spec b c Hb Hc _ _ _ Hok H0 Hlt Hle Hmax) as (_ & _ & Hn1 & Hn2 & Hn3).
      revert Hcontn. apply contains_widen; try reflexivity; lia. }
    split; [exact Hcont|]. intros d Hd.
    pose proof (contains_code_ok _ _ _ _ Hcont Hd) as Hcode.
    assert (Hcoden : code_ok (narrow c (getLow t s) (getHigh t s) (getTotal t)) d).
    { exact (contains_code_ok _ _ _ _ Hcontn Hd). }
    destruct (read_unfold b fuel t c d Hb Hc Hok Hcode Ht Hlim ltac:(lia) ltac:(lia))
      as (s0 & Hs0 & Hcod0 & Hcode0 & Eread).
    assert (s0 = s) as ->.
    { apply (symbol_unique t
               (((code d - low c + 1) * getTotal t - 1) / (high c - low c + 1)));
        try assumption.
      - apply (code_in_narrow_iff b c d t s0); assumption.
      - apply (code_in_narrow_iff b c d t s); assumption. }
    destruct (Hdec d Hd) as (d1 & Eupd & Hs1).
    rewrite Eupd in Eread.
    pose proof (contains_code_ok _ _ _ _ Hcont1 Hs1) as [Hlo1 Hhi1].
    assert (E1 : (code d1 <? low c1) = false) by lia.
    assert (E2 : (code d1 >? high c1) = false) by lia.
    rewrite E1, E2 in Eread. cbn [orb] in Eread.
    destruct (Hdec1 d1 Hs1) as (st & Erest).
    exists st. cbn [length read_all]. rewrite Eread, Erest. reflexivity.
Qed.
End WholeRun.

(** ** Construction *)

Lemma new_renormalized (b : Z) (c : ArithmeticCoderBase) :
  1 <= b <= 63 -> coder_consts b c -> low c = 0 -> high c = 2 ^ b - 1 ->
  renormalized c.
Proof.
  intros Hb Hc El Eh.
  destruct (coder_consts_facts b c Hb Hc) as (H1 & Hf & Hm & _).
  pose proof Hc as (_ & _ & _ & _ & _ & _ & Emask).
  unfold renormalized, split_ok. rewrite El, Eh, <- Emask. lia.
Qed.

Lemma prime_code_spec (n : nat) : forall G code0,
  Forall is_bit G -> 0 <= code0 -> code0 * 2 ^ Z.of_nat n + val n G < 2 ^ 64 ->
  prime_code n {| input := G; code := code0 |}
  = {| input := skipn n G; code := code0 * 2 ^ Z.of_nat n + val n G |}.
Proof.
  induction n as [|n IH]; intros G code0 HG H0 Hlt.
  - cbn. f_equal. lia.
  - cbn [prime_code input code].
    destruct (readCodeBit_bits G HG) as (Er & Hbit & Hrest). rewrite Er.
    cbn [val] in *. rewrite Nat2Z.inj_succ, Z.pow_succ_r in * by lia.
    pose proof (val_bound n (tl G) Hrest) as Hv.
    assert (Hp : 0 < 2 ^ Z.of_nat n) by (apply Z.pow_pos_nonneg; lia).
    assert (E : Z.lor (shl64 code0 1) (hd 0 G) = 2 * code0 + hd 0 G).
    { assert (Es : shl64 code0 1 = 2 * code0).
      { unfold shl64. rewrite Z.shiftl_mul_pow2 by lia. change (2 ^ 1) with 2.
        rewrite u64_small; [lia|]. destruct Hbit as [Ehd | Ehd]; rewrite Ehd in Hlt; nia. }
      rewrite Es. apply lor_even_bit; [|exact Hbit].
      rewrite Z.mul_comm. apply Z.mod_mul. lia. }
    rewrite E, IH.
    + rewrite skipn_tl. f_equal. lia.
    + exact Hrest.
    + destruct Hbit as [-> | ->]; lia.
    + lia.
Qed.

Lemma ArithmeticDecoder_new_synced (b : Z) (F : list Z) :
  1 <= b <= 63 -> Forall is_bit F ->
  exists c d, ArithmeticDecoder_new b F = Ok (c, d) /\
    coder_consts b c /\ renormalized c /\ synced c 0 F d /\
    code d = val (Z.to_nat b) F /\ input d = skipn (Z.to_nat b) F.
Proof.
  intros Hb HF. unfold ArithmeticDecoder_new.
  destruct (ArithmeticCoderBase_new_ok b Hb) as (c & -> & Hc & El & Eh).
  pose proof (val_bound (Z.to_nat b) F HF) as Hv.
  assert (Hp : 2 ^ Z.of_nat (Z.to_nat b) <= 2 ^ 63) by (apply Z.pow_le_mono_r; lia).
  assert (H64 : 2 ^ 63 < 2 ^ 64) by reflexivity.
  assert (En : numStateBits c = b) by apply Hc.
  rewrite En, prime_code_spec by (try assumption; lia).
  rewrite Z.mul_0_l, Z.add_0_l.
  eexists _, _. split; [reflexivity|]. split; [exact Hc|].
  split; [apply (new_renormalized b); assumption|].
  split; [|split; reflexivity].
  unfold synced. cbn [code input]. rewrite (codeOf_zero b c Hb Hc), En. auto.
Qed.

(** ** The round trip *)

Lemma round_trip (b umax : Z) (fuel : nat) (t : FrequencyTable)
    (syms bits : list Z) :
  1 <= b <= 63 -> (64 <= fuel)%nat ->
  table_contract t -> getSymbolLimit t <= 2 ^ 31 -> getTotal t <= maxTotal b ->
  symbols_ok t syms ->
  encode b umax fuel t syms = Ok bits ->
  decode b fuel t (length syms) bits = Ok syms.
Proof.
  intros Hb Hfuel Ht Hlim Htot Hsyms Henc.
  unfold encode, ArithmeticEncoder_new in Henc.
  destruct (ArithmeticCoderBase_new_ok b Hb) as (c & Enew & Hc & El & Eh).
  rewrite Enew in Henc.
  destruct (write_all umax fuel t syms c {| output := []; numUnderflow := 0 |})
    as [[[]|er] [c' e']] eqn:Erun; [|discriminate].
  injection Henc as <-. cbn [finish snd output].
  assert (Hmax : getTotal t <= MAX_TOTAL c).
  { destruct Hc as (_ & _ & _ & _ & _ & -> & _). exact Htot. }
  destruct (write_all_sync umax b fuel t Hb Hfuel Ht Hlim syms c
              {| output := []; numUnderflow := 0 |} c' e' Hc
              (new_renormalized b c Hb Hc El Eh) (Z.le_refl 0) Hmax Hsyms Erun)
    as (F & EF & Hcont & Hdec).
  cbn [output app] in EF. unfold BitOutputStream_write. rewrite EF.
  destruct (ArithmeticDecoder_new_synced b F Hb ltac:(apply Hcont))
    as (c0 & d0 & Edec & _ & _ & Hsync & _).
  unfold decode. rewrite Edec.
  unfold ArithmeticDecoder_new in Edec. rewrite Enew in Edec.
  injection Edec as <- <-.
  destruct (Hdec _ Hsync) as (st & ->). reflexivity.
Qed.

(** ** What can stop the encoder *)

Lemma write_outcome (umax b : Z) (fuel : nat) (t : FrequencyTable) (s : Z)
    (c : ArithmeticCoderBase) (e : EncoderState) :
  1 <= b <= 63 -> coder_consts b c -> state_ok c -> codable c t s ->
  b <= Z.of_nat fuel ->
  match write umax fuel t s c e with
  | (Ok _, (c', e')) => coder_consts b c' /\ renormalized c' /\ True
  | (Err er, _) => er = MaximumUnderflowReached
  end.
Proof.
  intros Hb Hc Hok Hcod Hf. unfold write.
  apply (@update_inv _ (EncoderHooks umax) b Hb (fun _ _ => True)
           (fun er => er = MaximumUnderflowReached)); try assumption; try exact I.
  - intros c0 x0 _ _ _ _. exact I.
  - intros c0 x0 _ _ _ _. cbn [underflow EncoderHooks]. unfold Encoder_underflow.
    destruct (numUnderflow x0 =? umax); [reflexivity | exact I].
Qed.

Lemma write_all_outcome (umax b : Z) (fuel : nat) (t : FrequencyTable)
    (syms : list Z) : forall c e,
  1 <= b <= 63 -> coder_consts b c -> renormalized c -> table_contract t ->
  getTotal t <= MAX_TOTAL c -> symbols_ok t syms -> b <= Z.of_nat fuel ->
  match write_all umax fuel t syms c e with
  | (Ok _, _) => True
  | (Err er, _) => er = MaximumUnderflowReached
  end.
Proof.
  induction syms as [|s rest IH]; intros c e Hb Hc Hren Ht Htot Hsyms Hf;
    cbn [write_all]; [exact I|].
  inversion Hsyms as [|? ? [Hs Hne] Hrest]; subst.
  destruct (symbol_codable t c s Ht Htot Hs Hne) as [Hcod _].
  pose proof (write_outcome umax b fuel t s c e Hb Hc
                (renormalized_state_ok b c Hb Hc Hren) Hcod Hf) as Hw.
  destruct (write umax fuel t s c e) as [[[]|er] [c1 e1]]; [|exact Hw].
  destruct Hw as (Hc1 & Hren1 & _).
  apply IH; try assumption.
  pose proof Hc as (_ & _ & _ & _ & _ & Em & _).
  pose proof Hc1 as (_ & _ & _ & _ & _ & Em1 & _).
  rewrite Em1, <- Em. exact Htot.
Qed.

Lemma encode_outcome (b umax : Z) (fuel : nat) (t : FrequencyTable) (syms : list Z) :
  1 <= b <= 63 -> (64 <= fuel)%nat -> table_contract t ->
  getTotal t <= maxTotal b -> symbols_ok t syms ->
  (exists bits, encode b umax fuel t syms = Ok bits) \/
  encode b umax fuel t syms = Err MaximumUnderflowReached.
Proof.
  intros Hb Hfuel Ht Htot Hsyms. unfold encode, ArithmeticEncoder_new.
  destruct (ArithmeticCoderBase_new_ok b Hb) as (c & -> & Hc & El & Eh).
  assert (Hmax : getTotal t <= MAX_TOTAL c).
  { destruct Hc as (_ & _ & _ & _ & _ & -> & _). exact Htot. }
  pose proof (write_all_outcome umax b fuel t syms c
                {| output := []; numUnderflow := 0 |} Hb Hc
                (new_renormalized b c Hb Hc El Eh) Ht Hmax Hsyms ltac:(lia)) as Hw.
  destruct (write_all umax fuel t syms c {| output := []; numUnderflow := 0 |})
    as [[[]|er] [c' e']].
  - left. eexists. reflexivity.
  - right. rewrite Hw. reflexivity.
Qed.

(** ** Tables built from frequencies *)

Lemma sum_firstn_nonneg (fs : list Z) : Forall (fun f => 0 <= f) fs ->
  forall n, 0 <= sum_list (firstn n fs).
Proof.
  induction 1 as [|f fs Hf Hfs IH]; intros n.
  - rewrite firstn_nil. cbn. lia.
  - destruct n as [|n]; cbn [firstn sum_list]; [lia|]. specialize (IH n). lia.
Qed.

Lemma sum_firstn_step (fs : list Z) : Forall (fun f => 0 <= f) fs ->
  forall n, sum_list (firstn n fs) <= sum_list (firstn (n + 1) fs).
Proof.
  induction 1 as [|f fs Hf Hfs IH]; intros n.
  - rewrite !firstn_nil. lia.
  - destruct n as [|n]; cbn [firstn sum_list Nat.add].
    + pose proof (sum_firstn_nonneg fs Hfs 0). cbn [firstn sum_list] in *. lia.
    + specialize (IH n). lia.
Qed.

Lemma table_of_freqs_contract (fs : list Z) :
  fs <> [] -> Forall (fun f => 0 <= f) fs -> table_contract (table_of_freqs fs).
Proof.
  intros Hne Hfs. unfold table_contract, table_of_freqs.
  cbn [getSymbolLimit getTotal getLow getHigh].
  split; [destruct fs; [contradiction | cbn [length]; lia]|].
  split; [reflexivity|]. split; [intros s _; apply sum_firstn_step, Hfs|].
  split.
  - intros s H0 _. f_equal. f_equal. lia.
  - replace (Z.to_nat (Z.of_nat (length fs) - 1) + 1)%nat with (length fs).
    + rewrite firstn_all. reflexivity.
    + destruct fs; [contradiction | cbn [length]; lia].
Qed.

Lemma symbols_ok_repeat (t : FrequencyTable) (s : Z) (n : nat) :
  0 <= s < getSymbolLimit t -> getLow t s <> getHigh t s ->
  symbols_ok t (repeat s n).
Proof.
  intros Hs Hne. unfold symbols_ok.
  induction n as [|n IH]; cbn [repeat]; constructor; auto.
Qed.

(** ** A run that saturates the underflow counter

    At state size 8 with frequencies 1, 2, 1 the middle symbol takes the
    interval from [0, 255] to [64, 191]: one underflow step, no shift, and
    the interval is [0, 255] again. *)

Lemma underflow_loop_stop {X : Type} {hooks : CoderHooks X} (fuel : nat)
    (c : ArithmeticCoderBase) (x : X) :
  second_bits_straddle c = false -> underflow_loop fuel c x = (Ok tt, (c, x)).
Proof. intros Hs. destruct fuel; cbn [underflow_loop]; rewrite Hs; reflexivity. Qed.

Lemma shift_loop_stop {X : Type} {hooks : CoderHooks X} (fuel : nat)
    (c : ArithmeticCoderBase) (x : X) :
  top_bits_equal c = false -> shift_loop fuel c x = (Ok tt, (c, x)).
Proof. intros Hs. destruct fuel; cbn [shift_loop]; rewrite Hs; reflexivity. Qed.

Section Saturation.
Variable umax : Z.
Variable fuel : nat.
Hypothesis Hfuel : (1 <= fuel)%nat.

Local Abbreviation t := (table_of_freqs [1; 2; 1]).
Local Abbreviation c8 := coder8.
Local Abbreviation cmid := (with_interval coder8 64 191).

Lemma middle_symbol_write (e : EncoderState) :
  write umax fuel t 1 c8 e
  = if numUnderflow e =? umax
    then (Err MaximumUnderflowReached, (cmid, e))
    else (Ok tt, (c8, {| output := output e; numUnderflow := numUnderflow e + 1 |})).
Proof using Hfuel.
  destruct fuel as [|f]; [lia|].
  unfold write, update.
  change (renormalize (S f) (narrow c8 (getLow t 1) (getHigh t 1) (getTotal t)) e)
    with (@renormalize _ (EncoderHooks umax) (S f) cmid e).
  cbv beta iota delta [coder8 low high MASK MIN_RANGE MAX_TOTAL fullRange].
  change (((0 >=? 255) || negb (Z.land 0 255 =? 0) || negb (Z.land 255 255 =? 255)))
    with false.
  change ((u64 (255 - 0 + 1) <? 66) || (u64 (255 - 0 + 1) >? 256)) with false.
  change (getLow t 1 =? getHigh t 1) with false.
  change (getTotal t >? 66) with false.
  change (getTotal t =? 0) with false.
  cbv iota.
  unfold renormalize. rewrite shift_loop_stop by reflexivity.
  cbn [underflow_loop].
  change (second_bits_straddle cmid) with true. cbv iota.
  cbn [underflow EncoderHooks]. unfold Encoder_underflow.
  destruct (numUnderflow e =? umax); [reflexivity|].
  change (underflow_interval cmid) with c8.
  apply underflow_loop_stop. reflexivity.
Qed.

Lemma middle_symbols_saturate (n : nat) : forall e,
  numUnderflow e <= umax -> umax < numUnderflow e + Z.of_nat n ->
  fst (write_all umax fuel t (repeat 1 n) c8 e) = Err MaximumUnderflowReached.
Proof using Hfuel.
  induction n as [|n IH]; intros e Hle Hlt; [lia|].
  cbn [repeat write_all]. rewrite middle_symbol_write.
  destruct (Z.eqb_spec (numUnderflow e) umax) as [E|Hne]; [reflexivity|].
  apply IH; cbn [numUnderflow]; lia.
Qed.

Lemma encode_saturates (n : nat) :
  0 <= umax -> umax < Z.of_nat n ->
  encode 8 umax fuel t (repeat 1 n) = Err MaximumUnderflowReached.
Proof using Hfuel.
  intros H0 Hn. unfold encode.
  change (ArithmeticEncoder_new 8 []) with (Ok (c8, {| output := []; numUnderflow := 0 |})).
  cbv beta iota.
  pose proof (middle_symbols_saturate n {| output := []; numUnderflow := 0 |}
                ltac:(cbn; lia) ltac:(cbn; lia)) as Hs.
  destruct (write_all umax fuel t (repeat 1 n) c8 {| output := []; numUnderflow := 0 |})
    as [[[]|er] st]; cbn [fst] in Hs; [discriminate|].
  injection Hs as ->. reflexivity.
Qed.
End Saturation.

(** ** [read] in general *)

(** Whatever the search does, the index it stops at is a symbol of the
    table. *)
Lemma search_start_range (t : FrequencyTable) (value : Z) :
  1 <= getSymbolLimit t < 2 ^ 32 ->
  forall fuel start end_ s e,
  0 <= start < getSymbolLimit t -> 0 <= end_ ->
  (getSymbolLimit t <= 2 ^ 31 -> start < end_ <= getSymbolLimit t) ->
  search fuel t value start end_ = Some (s, e) ->
  0 <= s < getSymbolLimit t.
Proof.
  intros Hlim.
  assert (H32 : 2 ^ 32 = 2 * 2 ^ 31) by reflexivity.
  induction fuel as [|f IH]; intros start end_ s e Hs He Hsmall Hrun;
    cbn [search] in Hrun;
    destruct (Z.gtb_spec (u32 (end_ - start)) 1) as [Hgt|Hle];
    try discriminate; try (injection Hrun as <- <-; exact Hs).
  set (middle := Z.shiftr (u32 (start + end_)) 1) in *.
  assert (Hm : 0 <= middle < 2 ^ 31).
  { subst middle. rewrite Z.shiftr_div_pow2 by lia. change (2 ^ 1) with 2.
    pose proof (Z.mod_pos_bound (start + end_) (2 ^ 32) ltac:(lia)) as Hu.
    fold (u32 (start + end_)) in Hu.
    split; [apply Z.div_pos; lia | apply Z.div_lt_upper_bound; lia]. }
  assert (Hmid : getSymbolLimit t <= 2 ^ 31 -> start < middle < end_).
  { intros Hl. specialize (Hsmall Hl).
    rewrite u32_small in Hgt by lia.
    subst middle. rewrite u32_small, Z.shiftr_div_pow2 by lia. change (2 ^ 1) with 2.
    pose proof (Z.div_mod (start + end_) 2 ltac:(lia)).
    pose proof (Z.mod_pos_bound (start + end_) 2 ltac:(lia)). lia. }
  destruct (getLow t middle >? value).
  - apply (IH start middle s e); [exact Hs | lia | | exact Hrun].
    intros Hl. specialize (Hmid Hl). specialize (Hsmall Hl). lia.
  - apply (IH middle end_ s e); [ | exact He | | exact Hrun].
    + destruct (Z.le_gt_cases (getSymbolLimit t) (2 ^ 31)) as [Hl|Hl].
      * specialize (Hmid Hl). specialize (Hsmall Hl). lia.
      * lia.
    + intros Hl. specialize (Hmid Hl). specialize (Hsmall Hl). lia.
Qed.

(** A call of [read] on a well-formed decoder either stops before [update]
    with one of three failures, or has found a codable symbol whose share of
    the range holds the window and hands it to [update]. *)
Lemma read_general (b : Z) (fuel : nat) (t : FrequencyTable)
    (c : ArithmeticCoderBase) (d : DecoderState) :
  1 <= b <= 63 -> coder_consts b c -> state_ok c -> code_ok c d ->
  table_contract t -> getSymbolLimit t < 2 ^ 32 ->
  getTotal t <= MAX_TOTAL c ->
  (exists e, read fuel t c d = (Err e, (c, d)) /\
     (e = AssertionError \/ e = OutOfFuel \/ e = DivisionByZero)) \/
  (exists s, 0 <= s < getSymbolLimit t /\ codable c t s /\
     code_ok (narrow c (getLow t s) (getHigh t s) (getTotal t)) d /\
     read fuel t c d
     = match update fuel t s c d with
       | (Ok _, (c', d')) =>
           if (code d' <? low c') || (code d' >? high c')
           then (Err CodeOutOfRange, (c', d'))
           else (Ok s, (c', d'))
       | (Err e, st) => (Err e, st)
       end).
Proof.
  intros Hb Hc Hok Hcode Ht Hlim32 Htot.
  pose proof Ht as (Hlim & H0 & Hle & Hchain & Hlast).
  unfold read.
  assert (E1 : (getTotal t >? MAX_TOTAL c) = false) by lia. rewrite E1.
  assert (Hr : u64 (high c - low c + 1) = high c - low c + 1 /\ 1 <= high c - low c + 1).
  { destruct Hok as (Hl & Hlh & Hh & Hmin & Hmax).
    destruct (coder_consts_facts b c Hb Hc) as (_ & Hf & _ & _ & _ & _ & _ & Hfull).
    assert (H64 : 2 ^ 63 < 2 ^ 64) by reflexivity.
    rewrite u64_small by lia. lia. }
  destruct Hr as [Er Hr1]. rewrite Er.
  assert (E2 : (high c - low c + 1 =? 0) = false) by lia. rewrite E2.
  destruct (Z.eqb_spec (getTotal t) 0) as [Ez|Hnz].
  { left. eexists. split; [reflexivity|]. auto. }
  assert (Htot1 : 1 <= getTotal t <= MAX_TOTAL c).
  { pose proof (getLow_nonneg t (getSymbolLimit t - 1) Ht ltac:(lia)).
    specialize (Hle (getSymbolLimit t - 1) ltac:(lia)). lia. }
  destruct (read_offset b c d _ Hb Hc Hok Hcode Htot1) as (Eo & Ho).
  destruct (read_value b c d _ Hb Hc Hok Hcode Htot1) as (Ev & Hv).
  pose proof (read_first_assertion b c d _ Hb Hc Hok Hcode Htot1) as Ea.
  rewrite Eo, Ev, Ea.
  set (value := ((code d - low c + 1) * getTotal t - 1) / (high c - low c + 1)) in *.
  assert (E4 : (value >=? getTotal t) = false) by lia. rewrite E4.
  destruct (search fuel t value 0 (getSymbolLimit t)) as [[s e]|] eqn:Es.
  2:{ left. eexists. split; [reflexivity|]. auto. }
  assert (Hs : 0 <= s < getSymbolLimit t).
  { apply (search_start_range t value ltac:(lia) fuel 0 (getSymbolLimit t) s e);
      try assumption; lia. }
  destruct (negb (u32 (s + 1) =? e)).
  { left. eexists. split; [reflexivity|]. auto. }
  pose proof (getLow_nonneg t s Ht Hs) as Hl0.
  pose proof (getHigh_le_total t s Ht Hs) as Hht.
  specialize (Hle s Hs).
  rewrite !(product_no_wrap b c d _ Hb Hc Hok Hcode Htot1) by lia.
  destruct ((code d - low c <? getLow t s * (high c - low c + 1) / getTotal t)
            || (getHigh t s * (high c - low c + 1) / getTotal t <=? code d - low c))
    eqn:Echeck.
  { left. eexists. split; [reflexivity|]. auto. }
  apply orb_false_elim in Echeck as [Ec1 Ec2].
  assert (Hlt : getLow t s < getHigh t s).
  { destruct (Z.eq_dec (getLow t s) (getHigh t s)) as [Eq|Hne]; [|lia].
    rewrite Eq in Ec1. lia. }
  assert (Hcod : codable c t s) by (unfold codable; lia).
  right. exists s. split; [exact Hs|]. split; [exact Hcod|]. split; [|reflexivity].
  destruct (narrow_spec b c Hb Hc _ _ _ Hok Hl0 Hlt Hht Htot) as (El & Eh & _).
  unfold code_ok. rewrite El, Eh. lia.
Qed.

(** [update] with the decoder's hooks: it completes, and the window stays
    inside the interval. *)
Lemma decoder_update_ok (b : Z) (fuel : nat) (t : FrequencyTable) (s : Z)
    (c : ArithmeticCoderBase) (d : DecoderState) :
  1 <= b <= 63 -> coder_consts b c -> state_ok c -> codable c t s ->
  Forall is_bit (input d) ->
  code_ok (narrow c (getLow t s) (getHigh t s) (getTotal t)) d ->
  b <= Z.of_nat fuel ->
  exists c' d', @update _ DecoderHooks fuel t s c d = (Ok tt, (c', d')) /\
    coder_consts b c' /\ renormalized c' /\
    Forall is_bit (input d') /\ code_ok c' d'.
Proof.
  intros Hb Hc Hok Hcod Hbits Hcode Hf.
  pose proof (@update_inv _ DecoderHooks b Hb
                (fun c d => Forall is_bit (input d) /\ code_ok c d)
                (fun _ => False)
                (fun c0 x0 => Decoder_shift_keeps b c0 x0 Hb)
                (fun c0 x0 => Decoder_underflow_keeps b c0 x0 Hb)
                fuel t s c d Hc Hok Hcod (conj Hbits Hcode) Hf) as Hu.
  destruct (update fuel t s c d) as [[[]|er] [c' d']]; [|contradiction].
  destruct Hu as (Hc' & Hren' & Hbits' & Hcode').
  exists c', d'. auto.
Qed.

(** ** Where a failure can come from *)

Section LoopErrors.
Context {X : Type} {hooks : CoderHooks X}.

Lemma shift_loop_error (fuel : nat) : forall c x e st,
  shift_loop fuel c x = (Err e, st) -> hook_error e.
Proof.
  induction fuel as [|f IH]; intros c x e st Hrun; cbn [shift_loop] in Hrun;
    destruct (top_bits_equal c); try discriminate.
  - injection Hrun as <- _. left. reflexivity.
  - destruct (shift c x) as [x'|e'] eqn:Es.
    + exact (IH _ _ _ _ Hrun).
    + injection Hrun as <- _. right. left. eauto.
Qed.

Lemma underflow_loop_error (fuel : nat) : forall c x e st,
  underflow_loop fuel c x = (Err e, st) -> hook_error e.
Proof.
  induction fuel as [|f IH]; intros c x e st Hrun; cbn [underflow_loop] in Hrun;
    destruct (second_bits_straddle c); try discriminate.
  - injection Hrun as <- _. left. reflexivity.
  - destruct (underflow c x) as [x'|e'] eqn:Es.
    + exact (IH _ _ _ _ Hrun).
    + injection Hrun as <- _. right. right. eauto.
Qed.

Lemma renormalize_error (fuel : nat) (c : ArithmeticCoderBase) (x : X)
    (e : error) st :
  renormalize fuel c x = (Err e, st) -> hook_error e.
Proof.
  unfold renormalize. intros Hrun.
  destruct (shift_loop fuel c x) as [[[]|e1] [c1 x1]] eqn:E1.
  - exact (underflow_loop_error _ _ _ _ _ Hrun).
  - injection Hrun as <- _. exact (shift_loop_error _ _ _ _ _ E1).
Qed.

(** The failures of [update], by the place they come from. *)
Lemma update_error (fuel : nat) (t : FrequencyTable) (s : Z)
    (c : ArithmeticCoderBase) (x : X) (e : error) st :
  update fuel t s c x = (Err e, st) ->
  (st = (c, x) /\
   (e = LowOrHighOutOfRange \/ e = RangeOutOfRange \/
    e = SymbolHasZeroFrequency /\ getLow t s = getHigh t s \/
    e = TotalTooLargeToCode /\ getLow t s <> getHigh t s /\
      getTotal t > MAX_TOTAL c \/
    e = DivisionByZero)) \/
  hook_error e.
Proof.
  unfold update. intros Hrun.
  destruct ((low c >=? high c) || negb (Z.land (low c) (MASK c) =? low c)
            || negb (Z.land (high c) (MASK c) =? high c)).
  { injection Hrun as <- <-. left. auto. }
  destruct ((u64 (high c - low c + 1) <? MIN_RANGE c)
            || (u64 (high c - low c + 1) >? fullRange c)).
  { injection Hrun as <- <-. left. auto. }
  destruct (Z.eqb_spec (getLow t s) (getHigh t s)) as [Eq|Hne].
  { injection Hrun as <- <-. left. auto 6. }
  destruct (Z.gtb_spec (getTotal t) (MAX_TOTAL c)) as [Hgt|Hle].
  { injection Hrun as <- <-. left. split; [reflexivity|].
    right. right. right. left. repeat split; auto. lia. }
  destruct (getTotal t =? 0).
  { injection Hrun as <- <-. left. auto 7. }
  right. exact (renormalize_error _ _ _ _ _ Hrun).
Qed.
End LoopErrors.

Lemma encoder_hook_error (umax : Z) (e : error) :
  @hook_error _ (EncoderHooks umax) e -> e = OutOfFuel \/ e = MaximumUnderflowReached.
Proof.
  intros [E | [(c & x & Hs) | (c & x & Hu)]]; [left; exact E | discriminate Hs |].
  cbn [underflow EncoderHooks] in Hu. unfold Encoder_underflow in Hu.
  destruct (numUnderflow x =? umax); [|discriminate].
  injection Hu as <-. right. reflexivity.
Qed.

Lemma decoder_hook_error (e : error) : @hook_error _ DecoderHooks e -> e = OutOfFuel.
Proof.
  intros [E | [(c & x & Hs) | (c & x & Hu)]]; [exact E | |].
  - cbn [shift DecoderHooks] in Hs. unfold Decoder_shift in Hs.
    destruct (readCodeBit (input x)). discriminate.
  - cbn [underflow DecoderHooks] in Hu. unfold Decoder_underflow in Hu.
    destruct (readCodeBit (input x)). discriminate.
Qed.

(** The two checks of the state at the start of [update] pass on a state
    that satisfies the invariant. *)
Lemma state_checks_pass (b : Z) (c : ArithmeticCoderBase) :
  1 <= b <= 63 -> coder_consts b c -> state_ok c ->
  (low c >=? high c) || negb (Z.land (low c) (MASK c) =? low c)
    || negb (Z.land (high c) (MASK c) =? high c) = false /\
  (u64 (high c - low c + 1) <? MIN_RANGE c)
    || (u64 (high c - low c + 1) >? fullRange c) = false.
Proof.
  intros Hb Hc (Hl & Hlh & Hh & Hmin & Hmax).
  pose proof (coder_consts_facts b c Hb Hc) as (H1 & Hf & Hm & Hmn & Hq & Hmt & Hprod & Hfull).
  assert (E1 : (low c >=? high c) = false) by lia.
  assert (E2 : Z.land (low c) (MASK c) = low c).
  { rewrite (land_mask b c Hb Hc). apply Z.mod_small. lia. }
  assert (E3 : Z.land (high c) (MASK c) = high c).
  { rewrite (land_mask b c Hb Hc). apply Z.mod_small. lia. }
  rewrite E1, E2, E3, !Z.eqb_refl.
  assert (H64 : 2 ^ 63 < 2 ^ 64) by reflexivity.
  rewrite (u64_small (high c - low c + 1)) by lia.
  assert (E4 : (high c - low c + 1 <? MIN_RANGE c) = false) by lia.
  assert (E5 : (high c - low c + 1 >? fullRange c) = false) by lia.
  rewrite E4, E5. split; reflexivity.
Qed.

(** An invalid-argument failure of [write] leaves the encoder as it was,
    and tells which check raised it. *)
Lemma write_invalid_argument (umax : Z) (fuel : nat) (t : FrequencyTable) (s : Z)
    (c : ArithmeticCoderBase) (e : EncoderState) (er : error) st :
  write umax fuel t s c e = (Err er, st) -> is_invalid_argument er = true ->
  st = (c, e) /\
  (er = SymbolHasZeroFrequency /\ getLow t s = getHigh t s \/
   er = TotalTooLargeToCode /\ getLow t s <> getHigh t s /\
     getTotal t > MAX_TOTAL c).
Proof.
  unfold write. intros Hrun Hinv.
  destruct (@update_error _ (EncoderHooks umax) fuel t s c e er st Hrun)
    as [[Est Hcase] | Hhook].
  - split; [exact Est|].
    destruct Hcase as [-> | [-> | [[-> Eq] | [(-> & Hne & Hgt) | ->]]]];
      try discriminate; auto.
  - destruct (encoder_hook_error umax er Hhook) as [-> | ->]; discriminate.
Qed.

(** The same for [read]: the only invalid-argument failure it can raise is
    the one of its first check. *)
Lemma read_invalid_argument (fuel : nat) (t : FrequencyTable)
    (c : ArithmeticCoderBase) (d : DecoderState) (er : error) st :
  read fuel t c d = (Err er, st) -> is_invalid_argument er = true ->
  st = (c, d) /\ er = TotalTooLargeToDecode /\ getTotal t > MAX_TOTAL c.
Proof.
  unfold read. intros Hrun Hinv.
  destruct (Z.gtb_spec (getTotal t) (MAX_TOTAL c)) as [Hgt|Hle].
  { injection Hrun as <- <-. repeat split; auto. lia. }
  destruct (u64 (high c - low c + 1) =? 0);
    [injection Hrun as <- <-; discriminate|].
  destruct (getTotal t =? 0); [injection Hrun as <- <-; discriminate|].
  match type of Hrun with
  | (if ?x then _ else _) = _ => destruct x; [injection Hrun as <- <-; discriminate|]
  end.
  match type of Hrun with
  | (if ?x then _ else _) = _ => destruct x; [injection Hrun as <- <-; discriminate|]
  end.
  match type of Hrun with
  | match ?x with _ => _ end = _ => destruct x as [[start end_]|];
      [|injection Hrun as <- <-; discriminate]
  end.
  destruct (negb (u32 (start + 1) =? end_)); [injection Hrun as <- <-; discriminate|].
  match type of Hrun with
  | (if ?x then _ else _) = _ => destruct x eqn:Echeck;
      [injection Hrun as <- <-; discriminate|]
  end.
  destruct (update fuel t start c d) as [[[]|e1] [c' d']] eqn:Eu.
  - destruct ((code d' <? low c') || (code d' >? high c'));
      [injection Hrun as <- <-; discriminate | discriminate].
  - injection Hrun as <- <-.
    destruct (update_error fuel t start c d e1 (c', d') Eu) as [[Est Hcase] | Hhook].
    + destruct Hcase as [-> | [-> | [[-> Eq] | [(-> & Hne & Hgt) | ->]]]];
        try discriminate; [|lia].
      rewrite Eq in Echeck. lia.
    + rewrite (decoder_hook_error e1 Hhook) in Hinv. discriminate.
Qed.

(** ** The two loops and the interleaved loop *)

Section Interleaving.
Context {X : Type} {hooks : CoderHooks X}.
Variable b : Z.
Hypothesis Hb : 1 <= b <= 63.

Lemma underflow_loop_more (f : nat) : forall c x r,
  underflow_loop f c x = r -> fst r <> Err OutOfFuel ->
  forall f', (f <= f')%nat -> underflow_loop f' c x = r.
Proof.
  induction f as [|f IH]; intros c x r Hrun Hne f' Hle;
    cbn [underflow_loop] in Hrun; destruct (second_bits_straddle c) eqn:Hs.
  - subst r. cbn in Hne. congruence.
  - rewrite underflow_loop_stop by exact Hs. exact Hrun.
  - destruct f' as [|f']; [lia|]. cbn [underflow_loop]. rewrite Hs.
    destruct (underflow c x) as [x'|e]; [|exact Hrun].
    apply (IH _ _ _ Hrun Hne). lia.
  - rewrite underflow_loop_stop by exact Hs. exact Hrun.
Qed.

Lemma renormalize_interleaved_more (f : nat) : forall c x r,
  renormalize_interleaved f c x = r -> fst r <> Err OutOfFuel ->
  forall f', (f <= f')%nat -> renormalize_interleaved f' c x = r.
Proof.
  induction f as [|f IH]; intros c x r Hrun Hne f' Hle;
    cbn [renormalize_interleaved] in Hrun;
    (destruct (top_bits_equal c) eqn:Ht;
     [|destruct (second_bits_straddle c) eqn:Hs]);
    try (subst r; cbn in Hne; congruence);
    try (destruct f'; cbn [renormalize_interleaved]; rewrite Ht, Hs; exact Hrun).
  - destruct f' as [|f']; [lia|]. cbn [renormalize_interleaved]. rewrite Ht.
    destruct (shift c x) as [x'|e]; [|exact Hrun].
    apply (IH _ _ _ Hrun Hne). lia.
  - destruct f' as [|f']; [lia|]. cbn [renormalize_interleaved]. rewrite Ht, Hs.
    destruct (underflow c x) as [x'|e]; [|exact Hrun].
    apply (IH _ _ _ Hrun Hne). lia.
Qed.

(** Once the top bits differ the interleaved loop never shifts again: it
    is the underflow loop. *)
Lemma interleaved_no_shift (f : nat) : forall c x,
  coder_consts b c -> top_bits_equal c = false ->
  renormalize_interleaved f c x = underflow_loop f c x.
Proof using Hb.
  induction f as [|f IH]; intros c x Hc Ht;
    cbn [renormalize_interleaved underflow_loop]; rewrite Ht; [reflexivity|].
  destruct (second_bits_straddle c); [|reflexivity].
  destruct (underflow c x) as [x'|e]; [|reflexivity].
  apply IH; [exact Hc|]. apply (underflow_interval_top_bits_differ b c Hb Hc).
Qed.

Lemma two_loops_interleaved (f g : nat) : forall c x r,
  coder_consts b c -> renormalize2 f g c x = r -> fst r <> Err OutOfFuel ->
  renormalize_interleaved (f + g) c x = r.
Proof using Hb.
  induction f as [|f IH]; intros c x r Hc Hrun Hne;
    unfold renormalize2 in Hrun; cbn [shift_loop] in Hrun;
    destruct (top_bits_equal c) eqn:Ht.
  - subst r. cbn in Hne. congruence.
  - apply (renormalize_interleaved_more g); [|exact Hne|lia].
    rewrite interleaved_no_shift; assumption.
  - cbn [Nat.add renormalize_interleaved]. rewrite Ht.
    destruct (shift c x) as [x'|e]; [|exact Hrun].
    apply IH; [exact Hc | exact Hrun | exact Hne].
  - apply (renormalize_interleaved_more g); [|exact Hne|lia].
    rewrite interleaved_no_shift; assumption.
Qed.

Lemma interleaved_two_loops (f : nat) : forall c x r,
  coder_consts b c -> renormalize_interleaved f c x = r ->
  fst r <> Err OutOfFuel ->
  renormalize2 f f c x = r.
Proof using Hb.
  induction f as [|f IH]; intros c x r Hc Hrun Hne;
    unfold renormalize2; destruct (top_bits_equal c) eqn:Ht.
  - cbn [renormalize_interleaved] in Hrun. rewrite Ht in Hrun.
    subst r. cbn in Hne. congruence.
  - rewrite shift_loop_stop by exact Ht.
    rewrite interleaved_no_shift in Hrun; assumption.
  - cbn [renormalize_interleaved] in Hrun. rewrite Ht in Hrun.
    cbn [shift_loop]. rewrite Ht.
    destruct (shift c x) as [x'|e]; [|exact Hrun].
    specialize (IH (shift_interval c) x' r Hc Hrun Hne).
    unfold renormalize2 in IH.
    destruct (shift_loop f (shift_interval c) x') as [[[]|e1] [c1 x1]]; [|exact IH].
    apply (underflow_loop_more f); [exact IH | exact Hne | lia].
  - rewrite shift_loop_stop by exact Ht.
    rewrite interleaved_no_shift in Hrun; assumption.
Qed.
End Interleaving.

(** ** The search on a table with more than 2^31 symbols *)

Lemma sparse_table_contract : table_contract sparse_table.
Proof.
  unfold table_contract, sparse_table. cbn [getSymbolLimit getTotal getLow getHigh].
  assert (H31 : 0 < 2 ^ 31) by reflexivity.
  split; [lia|]. split; [reflexivity|]. split.
  - intros s _. destruct (s =? 2 ^ 31); lia.
  - split.
    + intros s H0 Hs. destruct (Z.eqb_spec s (2 ^ 31)); [lia | reflexivity].
    + replace (2 ^ 31 + 1 - 1) with (2 ^ 31) by lia. rewrite Z.eqb_refl. reflexivity.
Qed.

Lemma keeps_searching_add (end_ : Z) (k j : nat) : forall start,
  keeps_searching (k + j) end_ start
  = keeps_searching k end_ start && keeps_searching j end_ (search_orbit k end_ start).
Proof.
  induction k as [|k IH]; intros start; [reflexivity|].
  cbn [Nat.add keeps_searching search_orbit]. rewrite IH, andb_assoc. reflexivity.
Qed.

(** From 0 the search for the last symbol of [sparse_table] returns to 0
    after 32 iterations, so its loop condition never fails. *)
Lemma sparse_keeps_searching (m : nat) :
  keeps_searching m (2 ^ 31 + 1) 0 = true.
Proof.
  induction m as [m IH] using lt_wf_ind.
  destruct (Nat.lt_ge_cases m 32) as [Hlt|Hge].
  - assert (E32 : keeps_searching (m + (32 - m)) (2 ^ 31 + 1) 0 = true).
    { replace (m + (32 - m))%nat with 32%nat by lia. vm_compute. reflexivity. }
    rewrite keeps_searching_add in E32. apply andb_prop in E32. apply E32.
  - replace m with (32 + (m - 32))%nat by lia.
    rewrite keeps_searching_add.
    assert (E0 : search_orbit 32 (2 ^ 31 + 1) 0 = 0) by (vm_compute; reflexivity).
    assert (E1 : keeps_searching 32 (2 ^ 31 + 1) 0 = true) by (vm_compute; reflexivity).
    rewrite E0, E1. apply IH. lia.
Qed.

Lemma sparse_search_runs_out (k : nat) : forall start,
  keeps_searching (S k) (2 ^ 31 + 1) start = true ->
  search k sparse_table 0 start (2 ^ 31 + 1) = None.
Proof.
  induction k as [|k IH]; intros start Hk;
    cbn [keeps_searching] in Hk; apply andb_prop in Hk as [Hc Hk];
    cbn [search]; rewrite Hc; [reflexivity|].
  cbn [getLow sparse_table]. change (0 >? 0) with false. cbv iota.
  apply IH. exact Hk.
Qed.

Lemma MAX_TOTAL_maxTotal (b : Z) (c : ArithmeticCoderBase) :
  coder_consts b c -> MAX_TOTAL c = maxTotal b.
Proof. intros (_ & _ & _ & _ & _ & E & _). exact E. Qed.

(** ** A message short enough for the underflow counter

    Each underflow step doubles the range, which starts at 2 or more and
    never exceeds 2^b: one [write] adds at most [b - 1] pending bits. *)

Lemma pow2_le_exponent (k n : Z) : 0 <= n -> 2 ^ k * 2 <= 2 ^ n -> k < n.
Proof.
  intros Hn Hle. destruct (Z.lt_ge_cases k n) as [Hlt|Hge]; [exact Hlt|].
  assert (2 ^ n <= 2 ^ k) by (apply Z.pow_le_mono_r; lia).
  assert (0 < 2 ^ n) by (apply Z.pow_pos_nonneg; lia). lia.
Qed.

Lemma write_succeeds (umax b : Z) (fuel : nat) (t : FrequencyTable) (s : Z)
    (c : ArithmeticCoderBase) (e : EncoderState) :
  1 <= b <= 63 -> coder_consts b c -> state_ok c -> codable c t s ->
  b <= Z.of_nat fuel ->
  0 <= numUnderflow e -> numUnderflow e + (b - 1) <= umax ->
  exists c' e', write umax fuel t s c e = (Ok tt, (c', e')) /\
    coder_consts b c' /\ renormalized c' /\
    0 <= numUnderflow e' <= numUnderflow e + (b - 1).
Proof.
  intros Hb Hc Hok Hcod Hf Hnu Hmax. unfold write.
  rewrite (update_unfold b Hb) by assumption.
  set (cn := narrow c (getLow t s) (getHigh t s) (getTotal t)).
  pose proof (narrow_pre_ok b c t s Hb Hc Hok Hcod) as Hpre. fold cn in Hpre.
  assert (Hcn : coder_consts b cn) by exact Hc.
  pose proof (pow2_fuel b Hb fuel cn Hcn Hf) as Hp.
  unfold renormalize.
  (* first loop: the count stays or drops to 0 *)
  pose proof (@shift_loop_inv _ (EncoderHooks umax) b Hb
                (fun _ x => 0 <= numUnderflow x <= numUnderflow e) (fun _ => False)
                ltac:(intros c0 x0 _ _ _ Hx; cbn; lia)
                fuel cn e Hcn Hpre ltac:(cbv beta; lia)
                ltac:(destruct Hpre as (? & ? & ?); nia)) as Hs.
  destruct (@shift_loop _ (EncoderHooks umax) fuel cn e) as [[[]|er] [c1 e1]];
    [|contradiction].
  destruct Hs as (Hc1 & Hsp1 & Hnu1).
  (* second loop: the range doubles with every pending bit *)
  set (n1 := numUnderflow e1). set (r1 := high c1 - low c1 + 1).
  assert (Hr1 : 2 <= r1) by (destruct Hsp1 as (? & ? & ? & ?); subst r1; lia).
  pose proof (coder_consts_facts b c1 Hb Hc1) as (H1 & Hfull & Hmask & _).
  assert (Hhalf : forall c0, coder_consts b c0 -> halfRange c0 = 2 ^ (b - 1))
    by (intros c0 (_ & _ & E & _); exact E).
  pose proof (@underflow_loop_inv _ (EncoderHooks umax) b Hb
                (fun c0 x => n1 <= numUnderflow x /\
                             2 ^ (numUnderflow x - n1) * r1 = high c0 - low c0 + 1)
                (fun _ => False)) as Hu.
  specialize (Hu
    ltac:(cbv beta; intros c0 x0 Hc0 Hsp0 Hst0 [Hn0 Hr0];
          destruct (straddle_true b c0 Hb Hc0 Hsp0 Hst0) as (Hhq & _ & Hql & Hhq');
          destruct (underflow_interval_step b c0 Hb Hc0 Hsp0 Hst0) as (El & Eh & _);
          assert (Hk : numUnderflow x0 - n1 < b - 1);
          [ apply pow2_le_exponent; [lia|];
            rewrite <- (Hhalf c0 Hc0);
            assert (0 < 2 ^ (numUnderflow x0 - n1)) by (apply Z.pow_pos_nonneg; lia);
            nia
          | cbn [underflow EncoderHooks]; unfold Encoder_underflow;
            destruct (Z.eqb_spec (numUnderflow x0) umax) as [Eq|Hne]; [subst n1; lia|];
            cbn [numUnderflow]; split; [lia|];
            replace (numUnderflow x0 + 1 - n1) with (Z.succ (numUnderflow x0 - n1)) by lia;
            rewrite Z.pow_succ_r by lia; rewrite El, Eh; lia ])
    fuel c1 e1 Hc1 Hsp1
    ltac:(cbv beta; split; [lia|]; subst n1 r1; rewrite Z.sub_diag; lia)
    ltac:(pose proof (pow2_fuel b Hb fuel c1 Hc1 Hf); subst r1; nia)).
  destruct (@underflow_loop _ (EncoderHooks umax) fuel c1 e1) as [[[]|er] [c' e']];
    [|contradiction].
  destruct Hu as (Hc' & Hren' & Hn' & Hr').
  exists c', e'. split; [reflexivity|]. split; [exact Hc'|]. split; [exact Hren'|].
  pose proof (coder_consts_facts b c' Hb Hc') as (_ & Hfull' & Hmask' & _).
  destruct Hren' as [(? & ? & ? & ?) _].
  assert (Hk : numUnderflow e' - n1 < b).
  { apply pow2_le_exponent; [lia|].
    rewrite (pow2_split b), <- (Hhalf c' Hc') by lia.
    assert (0 < 2 ^ (numUnderflow e' - n1)) by (apply Z.pow_pos_nonneg; lia). nia. }
  subst n1. lia.
Qed.

Lemma write_all_succeeds (umax b : Z) (fuel : nat) (t : FrequencyTable)
    (syms : list Z) : forall c e,
  1 <= b <= 63 -> coder_consts b c -> renormalized c -> table_contract t ->
  getTotal t <= MAX_TOTAL c -> symbols_ok t syms -> b <= Z.of_nat fuel ->
  0 <= numUnderflow e ->
  numUnderflow e + Z.of_nat (length syms) * (b - 1) <= umax ->
  exists c' e', write_all umax fuel t syms c e = (Ok tt, (c', e')).
Proof.
  induction syms as [|s rest IH]; intros c e Hb Hc Hren Ht Htot Hsyms Hf Hnu Hmax;
    cbn [write_all]; [eexists _, _; reflexivity|].
  inversion Hsyms as [|? ? [Hs Hne] Hrest]; subst.
  destruct (symbol_codable t c s Ht Htot Hs Hne) as [Hcod _].
  cbn [length] in Hmax. rewrite Nat2Z.inj_succ in Hmax.
  destruct (write_succeeds umax b fuel t s c e Hb Hc
              (renormalized_state_ok b c Hb Hc Hren) Hcod Hf Hnu ltac:(nia))
    as (c1 & e1 & -> & Hc1 & Hren1 & Hnu1).
  apply IH; try assumption; try lia.
  pose proof Hc as (_ & _ & _ & _ & _ & Em & _).
  pose proof Hc1 as (_ & _ & _ & _ & _ & Em1 & _).
  rewrite Em1, <- Em. exact Htot.
Qed.

Lemma encode_succeeds (b umax : Z) (fuel : nat) (t : FrequencyTable) (syms : list Z) :
  1 <= b <= 63 -> (64 <= fuel)%nat -> table_contract t ->
  getTotal t <= maxTotal b -> symbols_ok t syms ->
  Z.of_nat (length syms) * (b - 1) <= umax ->
  exists bits, encode b umax fuel t syms = Ok bits.
Proof.
  intros Hb Hfuel Ht Htot Hsyms Hlen. unfold encode, ArithmeticEncoder_new.
  destruct (ArithmeticCoderBase_new_ok b Hb) as (c & -> & Hc & El & Eh).
  assert (Hmax : getTotal t <= MAX_TOTAL c).
  { rewrite (MAX_TOTAL_maxTotal b c Hc). exact Htot. }
  destruct (write_all_succeeds umax b fuel t syms c
              {| output := []; numUnderflow := 0 |} Hb Hc
              (new_renormalized b c Hb Hc El Eh) Ht Hmax Hsyms ltac:(lia)
              (Z.le_refl 0) Hlen) as (c' & e' & ->).
  eexists. reflexivity.
Qed.

Lemma MAX_TOTAL_pos (b : Z) (c : ArithmeticCoderBase) :
  1 <= b <= 63 -> coder_consts b c -> 1 <= MAX_TOTAL c.
Proof.
  intros Hb Hc. pose proof Hc as (_ & _ & _ & _ & _ & -> & _).
  destruct (pow2_63_bound b Hb) as [H1 H2].
  assert (1 <= UINT64_MAX / 2 ^ b).
  { apply Z.div_le_lower_bound; [pose proof (pow2_split b); lia|].
    unfold UINT64_MAX. change (2 ^ 64) with (2 * 2 ^ 63). lia. }
  assert (0 <= 2 ^ b / 4) by (apply Z.div_pos; lia).
  lia.
Qed.

(** [read] on [sparse_table]: the total is 1, the value is 0, and the search
    runs out of any fuel. *)
Lemma sparse_read_runs_out (b : Z) (fuel : nat) (c : ArithmeticCoderBase)
    (d : DecoderState) :
  1 <= b <= 63 -> coder_consts b c -> state_ok c -> code_ok c d ->
  read fuel sparse_table c d = (Err OutOfFuel, (c, d)).
Proof.
  intros Hb Hc Hok Hcode.
  pose proof (MAX_TOTAL_pos b c Hb Hc) as Hpos.
  assert (Htot : 1 <= getTotal sparse_table <= MAX_TOTAL c)
    by (cbn [getTotal sparse_table]; lia).
  destruct (read_range b c d _ Hb Hc Hok Hcode Htot) as (Er & Hr1 & _).
  destruct (read_offset b c d _ Hb Hc Hok Hcode Htot) as (Eo & Ho).
  destruct (read_value b c d _ Hb Hc Hok Hcode Htot) as (Ev & Hv).
  pose proof (read_first_assertion b c d _ Hb Hc Hok Hcode Htot) as Ea.
  unfold read.
  assert (E1 : (getTotal sparse_table >? MAX_TOTAL c) = false) by lia.
  rewrite E1, Er, Eo.
  assert (E2 : (high c - low c + 1 =? 0) = false) by lia.
  rewrite E2, Ev.
  assert (E3 : (getTotal sparse_table =? 0) = false) by reflexivity.
  rewrite E3, Ea.
  assert (Ev0 : ((code d - low c + 1) * getTotal sparse_table - 1) / (high c - low c + 1) = 0).
  { cbn [getTotal sparse_table] in Hv |- *. lia. }
  rewrite Ev0.
  assert (E4 : (0 >=? getTotal sparse_table) = false) by reflexivity.
  rewrite E4.
  assert (Es : search fuel sparse_table 0 0 (getSymbolLimit sparse_table) = None)
    by apply sparse_search_runs_out, sparse_keeps_searching.
  rewrite Es. reflexivity.
Qed.

(** ** A completed [read] *)

Lemma read_ok (b : Z) (fuel : nat) (t : FrequencyTable)
    (c : ArithmeticCoderBase) (d : DecoderState) :
  1 <= b <= 63 -> coder_consts b c -> state_ok c -> code_ok c d ->
  Forall is_bit (input d) ->
  table_contract t -> getSymbolLimit t <= 2 ^ 31 ->
  1 <= getTotal t <= MAX_TOTAL c -> (31 <= fuel)%nat -> b <= Z.of_nat fuel ->
  exists s c' d', read fuel t c d = (Ok s, (c', d')) /\
    0 <= s < getSymbolLimit t /\ codable c t s /\
    code_ok (narrow c (getLow t s) (getHigh t s) (getTotal t)) d /\
    @update _ DecoderHooks fuel t s c d = (Ok tt, (c', d')) /\
    coder_consts b c' /\ renormalized c' /\ code_ok c' d' /\
    Forall is_bit (input d').
Proof.
  intros Hb Hc Hok Hcode Hbits Ht Hlim Htot Hf1 Hf2.
  destruct (read_unfold b fuel t c d Hb Hc Hok Hcode Ht Hlim Htot Hf1)
    as (s & Hs & Hcod & Hin & Er).
  destruct (decoder_update_ok b fuel t s c d Hb Hc Hok Hcod Hbits Hin Hf2)
    as (c' & d' & Eu & Hc' & Hren' & Hbits' & Hcode').
  pose proof Hcode' as [Hlo Hhi].
  exists s, c', d'. rewrite Er, Eu.
  assert (E1 : (code d' <? low c') = false) by lia.
  assert (E2 : (code d' >? high c') = false) by lia.
  rewrite E1, E2. cbn [orb].
  repeat (split; [first [reflexivity | assumption | apply Hs]|]).
  assumption.
Qed.

(** * The properties of the specification *)

(** C1 (amended). For every state size [b] in [1, 63], every frequency table
    that meets the contract, has at most 2^31 symbols and a total of at
    most [maxTotal b], and every finite sequence of symbols of nonzero
    frequency: either the encoder stops with the overflow error of its
    underflow counter, or it produces a bit stream, and the decoder
    constructed with the same state size and table, reading zeros past the
    end of the stream, returns the sequence symbol by symbol. The encoder
    does not stop when the counter can hold [b - 1] times the length of the
    sequence. *)
Theorem C1_round_trip (b umax : Z) (fuel : nat) (t : FrequencyTable) (syms : list Z) :
  1 <= b <= 63 -> (64 <= fuel)%nat ->
  table_contract t -> getSymbolLimit t <= 2 ^ 31 -> getTotal t <= maxTotal b ->
  symbols_ok t syms ->
  ((exists bits, encode b umax fuel t syms = Ok bits /\
                 decode b fuel t (length syms) bits = Ok syms) \/
   encode b umax fuel t syms = Err MaximumUnderflowReached) /\
  (Z.of_nat (length syms) * (b - 1) <= umax ->
   exists bits, encode b umax fuel t syms = Ok bits /\
                decode b fuel t (length syms) bits = Ok syms).
Proof.
  intros Hb Hfuel Ht Hlim Htot Hsyms.
  assert (Hrt : forall bits, encode b umax fuel t syms = Ok bits ->
            decode b fuel t (length syms) bits = Ok syms).
  { intros bits E.
    exact (round_trip b umax fuel t syms bits Hb Hfuel Ht Hlim Htot Hsyms E). }
  split.
  - destruct (encode_outcome b umax fuel t syms Hb Hfuel Ht Htot Hsyms) as [[bits E]|E].
    + left. exists bits. split; [exact E | exact (Hrt bits E)].
    + right. exact E.
  - intros Hlen.
    destruct (encode_succeeds b umax fuel t syms Hb Hfuel Ht Htot Hsyms Hlen)
      as (bits & E).
    exists bits. split; [exact E | exact (Hrt bits E)].
Qed.

(** The scenario of the specification: frequencies 1, 1, 2 at state size
    32, the message A C B C A. *)
Lemma C1_round_trip_witness :
  table_contract (table_of_freqs [1; 1; 2]) /\
  symbols_ok (table_of_freqs [1; 1; 2]) [0; 2; 1; 2; 0] /\
  exists bits,
    encode 32 UINT64_MAX 64 (table_of_freqs [1; 1; 2]) [0; 2; 1; 2; 0] = Ok bits /\
    decode 32 64 (table_of_freqs [1; 1; 2]) 5 bits = Ok [0; 2; 1; 2; 0].
Proof.
  assert (Ht : table_contract (table_of_freqs [1; 1; 2])).
  { apply table_of_freqs_contract; [discriminate | repeat (apply Forall_cons; [lia|]); apply Forall_nil]. }
  assert (Hs : symbols_ok (table_of_freqs [1; 1; 2]) [0; 2; 1; 2; 0]).
  { unfold symbols_ok. repeat (apply Forall_cons; [simpl; lia|]). apply Forall_nil. }
  split; [exact Ht|]. split; [exact Hs|].
  apply (C1_round_trip 32 UINT64_MAX 64 (table_of_freqs [1; 1; 2]) [0; 2; 1; 2; 0]);
    try assumption; try lia.
  - simpl. lia.
  - vm_compute. discriminate.
  - vm_compute. discriminate.
Defined.

(** C1, as stated, fails: at state size 8 with frequencies 1, 2, 1 every
    middle symbol costs one underflow step and no shift, so a message of
    2^64 middle symbols saturates a 64-bit underflow counter and the encoder
    stops with the overflow error instead of producing a bit stream. *)
Lemma C1_counterexample :
  table_contract (table_of_freqs [1; 2; 1]) /\
  getTotal (table_of_freqs [1; 2; 1]) <= maxTotal 8 /\
  symbols_ok (table_of_freqs [1; 2; 1]) (repeat 1 (Z.to_nat (2 ^ 64))) /\
  encode 8 UINT64_MAX 64 (table_of_freqs [1; 2; 1]) (repeat 1 (Z.to_nat (2 ^ 64)))
    = Err MaximumUnderflowReached /\
  ~ (exists bits,
       encode 8 UINT64_MAX 64 (table_of_freqs [1; 2; 1]) (repeat 1 (Z.to_nat (2 ^ 64)))
         = Ok bits /\
       decode 8 64 (table_of_freqs [1; 2; 1]) (length (repeat 1 (Z.to_nat (2 ^ 64)))) bits
         = Ok (repeat 1 (Z.to_nat (2 ^ 64)))).
Proof.
  assert (E : encode 8 UINT64_MAX 64 (table_of_freqs [1; 2; 1])
                (repeat 1 (Z.to_nat (2 ^ 64))) = Err MaximumUnderflowReached).
  { apply encode_saturates; [lia | unfold UINT64_MAX; lia |].
    rewrite Z2Nat.id by (apply Z.pow_nonneg; lia). unfold UINT64_MAX. lia. }
  split; [apply table_of_freqs_contract; [discriminate | repeat (apply Forall_cons; [lia|]); apply Forall_nil]|].
  split; [vm_compute; discriminate|].
  split; [apply symbols_ok_repeat; [simpl; lia | simpl; lia]|].
  split; [exact E|].
  intros (bits & E' & _). rewrite E in E'. discriminate.
Qed.

(** C2. After construction and after every completed [update] on a table
    that meets the contract, with a total of at most [maxTotal b] and a
    symbol of nonzero frequency, the interval satisfies
    0 <= low < high <= mask and minRange <= high - low + 1 <= fullRange;
    the decoder's window satisfies low <= code <= high after construction
    and after every completed [read]. The checks at the start of [update]
    and at the end of [read] never fire: the encoder's [write] can only stop
    with the overflow of its underflow counter, and [read] only with one of
    its own plain assertions, and not at all on a table of at most 2^31
    symbols with a positive total. *)
Theorem C2_state_invariant (b umax : Z) (fuel : nat) (t : FrequencyTable) :
  1 <= b <= 63 -> (64 <= fuel)%nat ->
  table_contract t -> getSymbolLimit t < 2 ^ 32 -> getTotal t <= maxTotal b ->
  (forall out, exists c e,
     ArithmeticEncoder_new b out = Ok (c, e) /\ coder_consts b c /\ state_ok c) /\
  (forall inp, Forall is_bit inp -> exists c d,
     ArithmeticDecoder_new b inp = Ok (c, d) /\ coder_consts b c /\ state_ok c /\
     code_ok c d /\ Forall is_bit (input d)) /\
  (forall (X : Type) (hooks : CoderHooks X) s c x,
     coder_consts b c -> state_ok c ->
     0 <= s < getSymbolLimit t -> getLow t s <> getHigh t s ->
     forall c' x', update fuel t s c x = (Ok tt, (c', x')) ->
     coder_consts b c' /\ state_ok c') /\
  (forall s c e,
     coder_consts b c -> state_ok c ->
     0 <= s < getSymbolLimit t -> getLow t s <> getHigh t s ->
     match write umax fuel t s c e with
     | (Ok _, (c', _)) => coder_consts b c' /\ state_ok c'
     | (Err er, _) => er = MaximumUnderflowReached
     end) /\
  (forall c d,
     coder_consts b c -> state_ok c -> code_ok c d -> Forall is_bit (input d) ->
     match read fuel t c d with
     | (Ok _, (c', d')) =>
         coder_consts b c' /\ state_ok c' /\ code_ok c' d' /\ Forall is_bit (input d')
     | (Err er, _) =>
         (er = AssertionError \/ er = OutOfFuel \/ er = DivisionByZero) /\
         (getSymbolLimit t <= 2 ^ 31 -> 1 <= getTotal t -> False)
     end).
Proof.
  intros Hb Hfuel Ht Hlim Htot.
  assert (Hmax : forall c, coder_consts b c -> getTotal t <= MAX_TOTAL c).
  { intros c Hc. rewrite (MAX_TOTAL_maxTotal b c Hc). exact Htot. }
  split; [|split; [|split; [|split]]].
  - intros out. unfold ArithmeticEncoder_new.
    destruct (ArithmeticCoderBase_new_ok b Hb) as (c & -> & Hc & El & Eh).
    eexists _, _. split; [reflexivity|]. split; [exact Hc|].
    apply (renormalized_state_ok b c Hb Hc), (new_renormalized b); assumption.
  - intros inp Hinp.
    destruct (ArithmeticDecoder_new_synced b inp Hb Hinp)
      as (c & d & E & Hc & Hren & _ & Ecode & Einp).
    exists c, d. split; [exact E|]. split; [exact Hc|].
    pose proof (renormalized_state_ok b c Hb Hc Hren) as Hok.
    split; [exact Hok|]. split; [|rewrite Einp; apply bits_skipn, Hinp].
    unfold ArithmeticDecoder_new in E.
    destruct (ArithmeticCoderBase_new_ok b Hb) as (c0 & E0 & _ & El & Eh).
    rewrite E0 in E. injection E as <- _.
    pose proof (val_bound (Z.to_nat b) inp Hinp) as Hv.
    rewrite Z2Nat.id in Hv by lia.
    unfold code_ok. rewrite Ecode, El, Eh. lia.
  - intros X hooks s c x Hc Hok Hs Hne c' x' Hrun.
    destruct (symbol_codable t c s Ht (Hmax c Hc) Hs Hne) as [Hcod _].
    pose proof (@update_inv X hooks b Hb (fun _ _ => True) (fun _ => True)
                  ltac:(intros; destruct (shift _ _); exact I)
                  ltac:(intros; destruct (underflow _ _); exact I)
                  fuel t s c x Hc Hok Hcod I ltac:(lia)) as Hu.
    rewrite Hrun in Hu. destruct Hu as (Hc' & Hren' & _).
    split; [exact Hc'|]. exact (renormalized_state_ok b c' Hb Hc' Hren').
  - intros s c e Hc Hok Hs Hne.
    destruct (symbol_codable t c s Ht (Hmax c Hc) Hs Hne) as [Hcod _].
    pose proof (write_outcome umax b fuel t s c e Hb Hc Hok Hcod ltac:(lia)) as Hw.
    destruct (write umax fuel t s c e) as [[[]|er] [c' e']]; [|exact Hw].
    destruct Hw as (Hc' & Hren' & _).
    split; [exact Hc'|]. exact (renormalized_state_ok b c' Hb Hc' Hren').
  - intros c d Hc Hok Hcode Hbits.
    assert (Hdone : forall s, codable c t s ->
              code_ok (narrow c (getLow t s) (getHigh t s) (getTotal t)) d ->
              exists c' d', match update fuel t s c d with
                | (Ok _, (c', d')) =>
                    if (code d' <? low c') || (code d' >? high c')
                    then (Err CodeOutOfRange, (c', d'))
                    else (Ok s, (c', d'))
                | (Err e, st) => (Err e, st)
                end = (Ok s, (c', d')) /\
                coder_consts b c' /\ state_ok c' /\ code_ok c' d' /\
                Forall is_bit (input d')).
    { intros s Hcod Hcoden.
      destruct (decoder_update_ok b fuel t s c d Hb Hc Hok Hcod Hbits Hcoden ltac:(lia))
        as (c' & d' & -> & Hc' & Hren' & Hbits' & [Hlo Hhi]).
      exists c', d'.
      assert (E1 : (code d' <? low c') = false) by lia.
      assert (E2 : (code d' >? high c') = false) by lia.
      rewrite E1, E2. cbn [orb]. split; [reflexivity|]. split; [exact Hc'|].
      split; [exact (renormalized_state_ok b c' Hb Hc' Hren')|].
      split; [split; assumption | exact Hbits']. }
    destruct (Z.le_gt_cases (getSymbolLimit t) (2 ^ 31)) as [Hsmall|Hbig];
      [destruct (Z.le_gt_cases 1 (getTotal t)) as [Hpos|Hzero]|].
    + destruct (read_unfold b fuel t c d Hb Hc Hok Hcode Ht Hsmall
                  (conj Hpos (Hmax c Hc)) ltac:(lia)) as (s & _ & Hcod & Hcoden & Er).
      destruct (Hdone s Hcod Hcoden) as (c' & d' & Hx & Hrest).
      assert (Eread : read fuel t c d = (Ok s, (c', d')))
        by (etransitivity; [exact Er | exact Hx]).
      rewrite Eread. exact Hrest.
    + destruct (read_general b fuel t c d Hb Hc Hok Hcode Ht Hlim (Hmax c Hc))
        as [(e & -> & He) | (s & _ & Hcod & Hcoden & Er)].
      * split; [exact He | lia].
      * destruct (Hdone s Hcod Hcoden) as (c' & d' & Hx & Hrest).
        assert (Eread : read fuel t c d = (Ok s, (c', d')))
          by (etransitivity; [exact Er | exact Hx]).
        rewrite Eread. exact Hrest.
    + destruct (read_general b fuel t c d Hb Hc Hok Hcode Ht Hlim (Hmax c Hc))
        as [(e & -> & He) | (s & _ & Hcod & Hcoden & Er)].
      * split; [exact He | lia].
      * destruct (Hdone s Hcod Hcoden) as (c' & d' & Hx & Hrest).
        assert (Eread : read fuel t c d = (Ok s, (c', d')))
          by (etransitivity; [exact Er | exact Hx]).
        rewrite Eread. exact Hrest.
Qed.

(** State size 8, frequencies 1, 2, 1: both constructors give a state that
    satisfies the invariant. *)
Lemma C2_state_invariant_witness :
  table_contract (table_of_freqs [1; 2; 1]) /\
  getTotal (table_of_freqs [1; 2; 1]) <= maxTotal 8 /\
  (exists c e, ArithmeticEncoder_new 8 [] = Ok (c, e) /\ state_ok c) /\
  (exists c d, ArithmeticDecoder_new 8 [1; 0; 1] = Ok (c, d) /\ state_ok c /\ code_ok c d).
Proof.
  assert (Ht : table_contract (table_of_freqs [1; 2; 1])).
  { apply table_of_freqs_contract;
      [discriminate | repeat (apply Forall_cons; [lia|]); apply Forall_nil]. }
  assert (Hm : getTotal (table_of_freqs [1; 2; 1]) <= maxTotal 8)
    by (vm_compute; discriminate).
  split; [exact Ht|]. split; [exact Hm|].
  destruct (C2_state_invariant 8 UINT64_MAX 64 (table_of_freqs [1; 2; 1]))
    as (Henc & Hdec & _); try assumption; try lia.
  - simpl. lia.
  - split.
    + destruct (Henc []) as (c & e & E & _ & Hok). exists c, e. split; assumption.
    + destruct (Hdec [1; 0; 1]) as (c & d & E & _ & Hok & Hcode & _).
      * repeat (apply Forall_cons; [(left; reflexivity) || (right; reflexivity)|]).
        apply Forall_nil.
      * exists c, d. split; [exact E|]. split; [exact Hok | exact Hcode].
Defined.

(** C3. When the interval satisfies the invariant, the symbol has a nonzero
    frequency inside the table's total and the total is at most MAX_TOTAL,
    [update] narrows the interval to
    low + floor(symLow * range / total) and
    low + floor(symHigh * range / total) - 1, with range = high - low + 1,
    which is the [low] and the [high] of the state [narrow] returns (an
    interval inside the old one, with the constants untouched), and then
    renormalizes that state; this holds for every pair of hooks, so the
    encoder's [write] and the decoder's [update] narrow to the same
    interval. *)
Theorem C3_narrowing (b umax : Z) (fuel : nat) (t : FrequencyTable) (s : Z)
    (c : ArithmeticCoderBase) (e : EncoderState) (d : DecoderState) :
  1 <= b <= 63 -> coder_consts b c -> state_ok c ->
  0 <= getLow t s -> getLow t s < getHigh t s -> getHigh t s <= getTotal t ->
  getTotal t <= MAX_TOTAL c ->
  let range := high c - low c + 1 in
  let newLow := low c + getLow t s * range / getTotal t in
  let newHigh := low c + getHigh t s * range / getTotal t - 1 in
  let narrowed := with_interval c newLow newHigh in
  low (narrow c (getLow t s) (getHigh t s) (getTotal t)) = newLow /\
  high (narrow c (getLow t s) (getHigh t s) (getTotal t)) = newHigh /\
  low c <= newLow /\ newLow <= newHigh /\ newHigh <= high c /\
  coder_consts b (narrow c (getLow t s) (getHigh t s) (getTotal t)) /\
  narrow c (getLow t s) (getHigh t s) (getTotal t) = narrowed /\
  (forall (X : Type) (hooks : CoderHooks X) (x : X),
     update fuel t s c x
     = renormalize fuel (narrow c (getLow t s) (getHigh t s) (getTotal t)) x /\
     update fuel t s c x = renormalize fuel narrowed x) /\
  write umax fuel t s c e = @renormalize _ (EncoderHooks umax) fuel narrowed e /\
  @update _ DecoderHooks fuel t s c d = @renormalize _ DecoderHooks fuel narrowed d.
Proof.
  intros Hb Hc Hok H0 Hlt Hle Htot range newLow newHigh narrowed.
  destruct (narrow_spec b c Hb Hc _ _ _ Hok H0 Hlt Hle Htot)
    as (El & Eh & Hn1 & Hn2 & Hn3).
  fold range in El, Eh. fold newLow in El. fold newHigh in Eh.
  assert (En : narrow c (getLow t s) (getHigh t s) (getTotal t) = narrowed).
  { subst narrowed. rewrite <- El, <- Eh. reflexivity. }
  assert (Hcod : codable c t s) by (unfold codable; lia).
  split; [exact El|]. split; [exact Eh|].
  split; [rewrite <- El; exact Hn1|].
  split; [rewrite <- El, <- Eh; exact Hn2|].
  split; [rewrite <- Eh; exact Hn3|].
  split; [exact Hc|].
  split; [exact En|]. rewrite <- En.
  split; [|split].
  - intros X hooks x. split; apply (update_unfold b Hb); assumption.
  - unfold write. apply (update_unfold b Hb); assumption.
  - apply (update_unfold b Hb); assumption.
Qed.

(** State size 8, interval [0, 255], frequencies 1, 2, 1, middle symbol:
    the interval narrows to [64, 191]. *)
Lemma C3_narrowing_witness :
  match ArithmeticCoderBase_new 8 with
  | Ok c =>
      state_ok c /\
      low (narrow c (getLow (table_of_freqs [1; 2; 1]) 1)
             (getHigh (table_of_freqs [1; 2; 1]) 1)
             (getTotal (table_of_freqs [1; 2; 1]))) = 64 /\
      high (narrow c (getLow (table_of_freqs [1; 2; 1]) 1)
              (getHigh (table_of_freqs [1; 2; 1]) 1)
              (getTotal (table_of_freqs [1; 2; 1]))) = 191 /\
      narrow c (getLow (table_of_freqs [1; 2; 1]) 1) (getHigh (table_of_freqs [1; 2; 1]) 1)
               (getTotal (table_of_freqs [1; 2; 1]))
      = with_interval c 64 191
  | Err _ => False
  end.
Proof.
  destruct (ArithmeticCoderBase_new_ok 8 ltac:(lia)) as (c & E & Hc & El & Eh).
  assert (Hok : state_ok c).
  { apply (renormalized_state_ok 8 c ltac:(lia) Hc), (new_renormalized 8); try assumption; lia. }
  assert (Hm : getTotal (table_of_freqs [1; 2; 1]) <= MAX_TOTAL c).
  { rewrite (MAX_TOTAL_maxTotal 8 c Hc). vm_compute. discriminate. }
  pose proof (C3_narrowing 8 UINT64_MAX 64 (table_of_freqs [1; 2; 1]) 1 c
                {| output := []; numUnderflow := 0 |} {| input := []; code := 0 |}
                ltac:(lia) Hc Hok ltac:(simpl; lia) ltac:(simpl; lia) ltac:(simpl; lia) Hm)
    as (Elow & Ehigh & _ & _ & _ & _ & En & _).
  cbv zeta in Elow, Ehigh, En.
  rewrite E. split; [exact Hok|].
  split; [rewrite Elow, El, Eh; reflexivity|].
  split; [rewrite Ehigh, El, Eh; reflexivity|].
  rewrite En, El, Eh. reflexivity.
Defined.

(** C4, as stated, fails: at state size 8 (largest total 66) the table with
    frequencies 0 and 100 has a total that is too large, and writing its
    zero-frequency symbol 0 fails with the zero-frequency error, not with
    the error of the total. *)
Lemma C4_counterexample :
  match ArithmeticEncoder_new 8 [] with
  | Ok (c, e) =>
      table_contract (table_of_freqs [0; 100]) /\
      getTotal (table_of_freqs [0; 100]) > MAX_TOTAL c /\
      getLow (table_of_freqs [0; 100]) 0 = getHigh (table_of_freqs [0; 100]) 0 /\
      fst (write UINT64_MAX 64 (table_of_freqs [0; 100]) 0 c e)
        = Err SymbolHasZeroFrequency /\
      fst (write UINT64_MAX 64 (table_of_freqs [0; 100]) 0 c e)
        <> Err TotalTooLargeToCode
  | Err _ => False
  end.
Proof.
  cbv beta iota delta [ArithmeticEncoder_new].
  change (ArithmeticCoderBase_new 8) with
    (Ok {| numStateBits := 8; fullRange := 256; halfRange := 128; quarterRange := 64;
           MIN_RANGE := 66; MAX_TOTAL := 66; MASK := 255; low := 0; high := 255 |}).
  cbv beta iota.
  split; [apply table_of_freqs_contract;
            [discriminate | repeat (apply Forall_cons; [lia|]); apply Forall_nil]|].
  split; [reflexivity|]. split; [reflexivity|].
  split; [reflexivity | discriminate].
Qed.

(** C4 (amended). On an encoder whose interval satisfies the invariant,
    [write] fails with the zero-frequency error exactly when the symbol has
    zero frequency, whatever the total, and with the total-too-large error
    exactly when the symbol has a nonzero frequency and the total exceeds
    MAX_TOTAL; [read] fails with the total-too-large error exactly when the
    total exceeds MAX_TOTAL and never with the zero-frequency error. No
    other case raises an invalid-argument error. *)
Theorem C4_rejection (b umax : Z) (fuel : nat) (t : FrequencyTable) (s : Z)
    (c : ArithmeticCoderBase) (e : EncoderState) (d : DecoderState) :
  1 <= b <= 63 -> coder_consts b c -> state_ok c ->
  (fst (write umax fuel t s c e) = Err SymbolHasZeroFrequency
   <-> getLow t s = getHigh t s) /\
  (fst (write umax fuel t s c e) = Err TotalTooLargeToCode
   <-> getLow t s <> getHigh t s /\ getTotal t > MAX_TOTAL c) /\
  (forall er, fst (write umax fuel t s c e) = Err er -> is_invalid_argument er = true ->
     er = SymbolHasZeroFrequency \/ er = TotalTooLargeToCode) /\
  (fst (read fuel t c d) = Err TotalTooLargeToDecode <-> getTotal t > MAX_TOTAL c) /\
  (forall er, fst (read fuel t c d) = Err er -> is_invalid_argument er = true ->
     er = TotalTooLargeToDecode).
Proof.
  intros Hb Hc Hok.
  destruct (state_checks_pass b c Hb Hc Hok) as [Es1 Es2].
  assert (Hw : forall er, fst (write umax fuel t s c e) = Err er ->
            is_invalid_argument er = true ->
            er = SymbolHasZeroFrequency /\ getLow t s = getHigh t s \/
            er = TotalTooLargeToCode /\ getLow t s <> getHigh t s /\
              getTotal t > MAX_TOTAL c).
  { intros er Her Hinv.
    destruct (write umax fuel t s c e) as [r st] eqn:Ew. cbn [fst] in Her. subst r.
    exact (proj2 (write_invalid_argument umax fuel t s c e er st Ew Hinv)). }
  assert (Hr : forall er, fst (read fuel t c d) = Err er ->
            is_invalid_argument er = true ->
            er = TotalTooLargeToDecode /\ getTotal t > MAX_TOTAL c).
  { intros er Her Hinv.
    destruct (read fuel t c d) as [r st] eqn:Er. cbn [fst] in Her. subst r.
    exact (proj2 (read_invalid_argument fuel t c d er st Er Hinv)). }
  split; [|split; [|split; [|split]]].
  - split.
    + intros Her. destruct (Hw _ Her eq_refl) as [[_ Eq] | [Hd _]];
        [exact Eq | discriminate Hd].
    + intros Eq. unfold write, update. rewrite Es1, Es2.
      apply Z.eqb_eq in Eq. rewrite Eq. reflexivity.
  - split.
    + intros Her. destruct (Hw _ Her eq_refl) as [[Hd _] | [_ Hcase]];
        [discriminate Hd | exact Hcase].
    + intros [Hne Hgt]. unfold write, update. rewrite Es1, Es2.
      apply Z.eqb_neq in Hne. rewrite Hne.
      assert (Eg : (getTotal t >? MAX_TOTAL c) = true) by lia.
      rewrite Eg. reflexivity.
  - intros er Her Hinv. destruct (Hw er Her Hinv) as [[-> _] | [-> _]]; auto.
  - split.
    + intros Her. exact (proj2 (Hr _ Her eq_refl)).
    + intros Hgt. unfold read.
      assert (Eg : (getTotal t >? MAX_TOTAL c) = true) by lia.
      rewrite Eg. reflexivity.
  - intros er Her Hinv. exact (proj1 (Hr er Her Hinv)).
Qed.

(** State size 8 and frequencies 0, 100: the two rejections of [write] and
    the rejection of [read]. *)
Lemma C4_rejection_witness :
  match ArithmeticCoderBase_new 8 with
  | Ok c =>
      state_ok c /\
      fst (write UINT64_MAX 64 (table_of_freqs [0; 100]) 0 c
             {| output := []; numUnderflow := 0 |}) = Err SymbolHasZeroFrequency /\
      fst (write UINT64_MAX 64 (table_of_freqs [0; 100]) 1 c
             {| output := []; numUnderflow := 0 |}) = Err TotalTooLargeToCode /\
      fst (read 64 (table_of_freqs [0; 100]) c {| input := []; code := 0 |})
        = Err TotalTooLargeToDecode
  | Err _ => False
  end.
Proof.
  destruct (ArithmeticCoderBase_new_ok 8 ltac:(lia)) as (c & E & Hc & El & Eh).
  assert (Hok : state_ok c).
  { apply (renormalized_state_ok 8 c ltac:(lia) Hc), (new_renormalized 8); try assumption; lia. }
  assert (Hm : getTotal (table_of_freqs [0; 100]) > MAX_TOTAL c).
  { rewrite (MAX_TOTAL_maxTotal 8 c Hc). vm_compute. reflexivity. }
  rewrite E. split; [exact Hok|].
  split; [|split].
  - apply (C4_rejection 8 UINT64_MAX 64 (table_of_freqs [0; 100]) 0 c
             {| output := []; numUnderflow := 0 |} {| input := []; code := 0 |}
             ltac:(lia) Hc Hok). reflexivity.
  - apply (C4_rejection 8 UINT64_MAX 64 (table_of_freqs [0; 100]) 1 c
             {| output := []; numUnderflow := 0 |} {| input := []; code := 0 |}
             ltac:(lia) Hc Hok). split; [simpl; lia | exact Hm].
  - apply (C4_rejection 8 UINT64_MAX 64 (table_of_freqs [0; 100]) 0 c
             {| output := []; numUnderflow := 0 |} {| input := []; code := 0 |}
             ltac:(lia) Hc Hok). exact Hm.
Defined.

(** C5, at the failing input. The table [sparse_table] meets the contract,
    has 2^31 + 1 symbols and total 1; the value 0 lies in the interval of its
    last symbol 2^31 and of no other. The search of [read] for the value 0
    never stops: the 32-bit sum [start + end] wraps when [start] reaches
    2^31 - 1, which sends [start] back to 0. So [read], on any well-formed
    decoder, does not return. *)
Theorem C5_search_overflow :
  table_contract sparse_table /\
  1 <= getSymbolLimit sparse_table < 2 ^ 32 /\
  0 <= 0 < getTotal sparse_table /\
  getLow sparse_table (2 ^ 31) <= 0 < getHigh sparse_table (2 ^ 31) /\
  (forall fuel, search fuel sparse_table 0 0 (getSymbolLimit sparse_table) = None) /\
  (forall b fuel c d, 1 <= b <= 63 -> coder_consts b c -> state_ok c -> code_ok c d ->
     read fuel sparse_table c d = (Err OutOfFuel, (c, d))).
Proof.
  split; [exact sparse_table_contract|].
  split; [cbn [getSymbolLimit sparse_table]; split; [|reflexivity]; discriminate|].
  split; [cbn [getTotal sparse_table]; lia|].
  split; [cbn [getLow getHigh sparse_table]; rewrite Z.eqb_refl; lia|].
  split; [|exact sparse_read_runs_out].
  intros fuel. apply sparse_search_runs_out, sparse_keeps_searching.
Qed.

(** C6. The body of the underflow loop leaves the top bits of low and high
    different, whatever the interval was. Hence, for every pair of hooks and
    every outcome other than running out of fuel, the two loops run one
    after the other and the single interleaved loop give the same outcome:
    the same result or failure, the same interval and the same hook state,
    which for hooks that record their calls is the same sequence of
    calls. From an interval with low <= high <= mask neither form runs out
    of fuel once the fuel is at least the state size. *)
Theorem C6_interleaving (b : Z) (X : Type) (hooks : CoderHooks X) (fuel : nat)
    (c : ArithmeticCoderBase) (x : X) (r : outcome unit X) :
  1 <= b <= 63 -> coder_consts b c -> fst r <> Err OutOfFuel ->
  top_bits_equal (underflow_interval c) = false /\
  (renormalize fuel c x = r -> renormalize_interleaved (fuel + fuel) c x = r) /\
  (renormalize_interleaved fuel c x = r -> renormalize fuel c x = r) /\
  (pre_ok c -> b <= Z.of_nat fuel ->
   (forall c0 x0, shift c0 x0 <> Err OutOfFuel) ->
   (forall c0 x0, underflow c0 x0 <> Err OutOfFuel) ->
   fst (renormalize fuel c x) <> Err OutOfFuel).
Proof.
  intros Hb Hc Hne.
  split; [exact (underflow_interval_top_bits_differ b c Hb Hc)|].
  split; [|split].
  - intros Hrun. apply (two_loops_interleaved b Hb fuel fuel c x r Hc Hrun Hne).
  - intros Hrun. apply (interleaved_two_loops b Hb fuel c x r Hc Hrun Hne).
  - intros Hpre Hf Hs Hu.
    pose proof (@renormalize_inv X hooks b Hb (fun _ _ => True)
                  (fun e => e <> OutOfFuel)) as Hinv.
    specialize (Hinv
      ltac:(intros c0 x0 _ _ _ _; specialize (Hs c0 x0);
            destruct (shift c0 x0); [exact I | congruence])
      ltac:(intros c0 x0 _ _ _ _; specialize (Hu c0 x0);
            destruct (underflow c0 x0); [exact I | congruence])
      fuel c x Hc Hpre I Hf).
    destruct (renormalize fuel c x) as [[[]|e] st]; cbn [fst];
      [discriminate | congruence].
Qed.

(** State size 8, interval [64, 191], hooks that record their calls: both
    forms make the one underflow call and end at [0, 255]. *)
Lemma C6_interleaving_witness :
  match ArithmeticCoderBase_new 8 with
  | Ok c =>
      @renormalize _ TraceHooks 8 (with_interval c 64 191) []
        = (Ok tt, (c, [UnderflowCall])) /\
      @renormalize_interleaved _ TraceHooks (8 + 8) (with_interval c 64 191) []
        = (Ok tt, (c, [UnderflowCall]))
  | Err _ => False
  end.
Proof.
  destruct (ArithmeticCoderBase_new_ok 8 ltac:(lia)) as (c & E & Hc & El & Eh).
  assert (Ec : c = {| numStateBits := 8; fullRange := 256; halfRange := 128;
                      quarterRange := 64; MIN_RANGE := 66; MAX_TOTAL := 66;
                      MASK := 255; low := 0; high := 255 |}).
  { vm_compute in E. injection E as <-. reflexivity. }
  rewrite E.
  assert (Hrun : @renormalize _ TraceHooks 8 (with_interval c 64 191) []
                 = (Ok tt, (c, [UnderflowCall]))).
  { rewrite Ec. vm_compute. reflexivity. }
  split; [exact Hrun|].
  apply (C6_interleaving 8 _ TraceHooks 8 (with_interval c 64 191) []
           (Ok tt, (c, [UnderflowCall])) ltac:(lia) Hc); [discriminate | exact Hrun].
Defined.

(** C7. For every state size in [1, 63], when the total is at most
    MAX_TOTAL, the range lies between MIN_RANGE and fullRange, the symbol's
    bounds satisfy symLow <= symHigh <= total and the window lies in the
    interval, the three products of [update] and [read] are at most
    2^64 - 1, so the 64-bit multiplications return the mathematical
    products; MAX_TOTAL is min(floor((2^64 - 1) / fullRange), MIN_RANGE).
    In the code: the [low] and [high] that the narrowing of [update]
    computes in 64-bit arithmetic are the ones of the formulas over the
    integers, and [read], whose value is computed in 64-bit arithmetic,
    returns the symbol whose cumulative range holds the value
    floor(((offset + 1) * total - 1) / range) computed over the integers. *)
Theorem C7_no_overflow (b : Z) (fuel : nat) (c : ArithmeticCoderBase)
    (symLow symHigh total : Z) (t : FrequencyTable) (d : DecoderState) :
  1 <= b <= 63 -> coder_consts b c ->
  0 <= total <= MAX_TOTAL c ->
  MIN_RANGE c <= high c - low c + 1 <= fullRange c ->
  0 <= symLow <= symHigh -> symHigh <= total ->
  low c <= code d <= high c ->
  let range := high c - low c + 1 in
  let offset := code d - low c in
  MAX_TOTAL c = Z.min (UINT64_MAX / fullRange c) (MIN_RANGE c) /\
  symLow * range <= UINT64_MAX /\
  symHigh * range <= UINT64_MAX /\
  (offset + 1) * total <= UINT64_MAX /\
  u64 (symLow * range) = symLow * range /\
  u64 (symHigh * range) = symHigh * range /\
  u64 (u64 (offset + 1) * total) = (offset + 1) * total /\
  (0 <= low c -> high c <= MASK c -> symLow < symHigh ->
   low (narrow c symLow symHigh total) = low c + symLow * range / total /\
   high (narrow c symLow symHigh total) = low c + symHigh * range / total - 1) /\
  (0 <= low c -> high c <= MASK c ->
   table_contract t -> getSymbolLimit t <= 2 ^ 31 ->
   1 <= getTotal t <= MAX_TOTAL c ->
   Forall is_bit (input d) -> (64 <= fuel)%nat ->
   exists sym c' d', read fuel t c d = (Ok sym, (c', d')) /\
     getLow t sym <= ((offset + 1) * getTotal t - 1) / range < getHigh t sym /\
     low c' <= code d' <= high c').
Proof.
  intros Hb Hc Htot Hrange Hsym Hst Hcd range offset.
  destruct (coder_consts_facts b c Hb Hc) as (H1 & Hf & Hm & Hmn & Hq & Hmt & Hprod & Hfull).
  assert (Emax : MAX_TOTAL c = Z.min (UINT64_MAX / fullRange c) (MIN_RANGE c)).
  { destruct Hc as (_ & -> & _ & _ & -> & -> & _). reflexivity. }
  assert (Hok : 0 <= low c -> high c <= MASK c -> state_ok c).
  { intros Hl Hh. unfold state_ok. lia. }
  split; [exact Emax|].
  assert (Hr : 1 <= range <= fullRange c) by (subst range; lia).
  assert (Ho : 0 <= offset /\ offset + 1 <= range) by (subst offset range; lia).
  assert (Hp : total * range <= 2 ^ 64 - 1) by nia.
  assert (H64 : 0 < 2 ^ 64) by reflexivity.
  assert (B1 : 0 <= symLow * range <= 2 ^ 64 - 1) by nia.
  assert (B2 : 0 <= symHigh * range <= 2 ^ 64 - 1) by nia.
  assert (B3 : 0 <= (offset + 1) * total <= 2 ^ 64 - 1) by nia.
  unfold UINT64_MAX.
  split; [lia|]. split; [lia|]. split; [lia|].
  split; [apply u64_small; lia|]. split; [apply u64_small; lia|].
  split; [rewrite (u64_small (offset + 1)) by nia; apply u64_small; lia|].
  split.
  - intros Hl Hh Hlt.
    destruct (narrow_spec b c Hb Hc symLow symHigh total (Hok Hl Hh)
                ltac:(lia) Hlt Hst ltac:(lia)) as (El & Eh & _).
    split; [exact El | exact Eh].
  - intros Hl Hh Ht Hlim Htot' Hbits Hfuel.
    destruct (read_ok b fuel t c d Hb Hc (Hok Hl Hh) Hcd Hbits Ht Hlim Htot'
                ltac:(lia) ltac:(lia))
      as (sym & c' & d' & Er & Hs & Hcod & Hin & _ & _ & _ & Hcode' & _).
    exists sym, c', d'. split; [exact Er|]. split; [|exact Hcode'].
    exact (proj1 (code_in_narrow_iff b c d t sym Hb Hc (Hok Hl Hh) Hcd Hcod) Hin).
Qed.

(** State size 63, where MAX_TOTAL is 1 and the full range is 2^63. *)
Lemma C7_no_overflow_witness :
  match ArithmeticCoderBase_new 63 with
  | Ok c =>
      MAX_TOTAL c = 1 /\ high c - low c + 1 = 2 ^ 63 /\
      u64 (1 * (high c - low c + 1)) = 1 * (high c - low c + 1) /\
      u64 (u64 (high c - low c + 1) * 1) = (high c - low c + 1) * 1 /\
      low (narrow c 0 1 1) = 0 /\ high (narrow c 0 1 1) = 2 ^ 63 - 1 /\
      exists sym c' d',
        read 64 (table_of_freqs [1]) c {| input := []; code := high c |}
        = (Ok sym, (c', d'))
  | Err _ => False
  end.
Proof.
  destruct (ArithmeticCoderBase_new_ok 63 ltac:(lia)) as (c & E & Hc & El & Eh).
  assert (Hm : MAX_TOTAL c = 1) by (rewrite (MAX_TOTAL_maxTotal 63 c Hc); reflexivity).
  assert (Hmin : MIN_RANGE c = 2 ^ 61 + 2)
    by (destruct Hc as (_ & _ & _ & _ & -> & _); reflexivity).
  assert (Hfull : fullRange c = 2 ^ 63) by (destruct Hc as (_ & -> & _); reflexivity).
  assert (Hmask : MASK c = 2 ^ 63 - 1)
    by (destruct Hc as (_ & _ & _ & _ & _ & _ & ->); reflexivity).
  assert (Hr : high c - low c + 1 = 2 ^ 63) by (rewrite El, Eh; lia).
  destruct (C7_no_overflow 63 64 c 0 1 1 (table_of_freqs [1])
              {| input := []; code := high c |})
    as (_ & _ & _ & _ & _ & H2 & H3 & Hnarrow & Hread);
    try (cbn [code]; rewrite ?Hm, ?Hmin, ?Hfull, ?Hr; lia); try exact Hc.
  cbn [code] in H3, Hnarrow, Hread.
  destruct Hnarrow as [Enl Enh]; [lia | lia | lia|].
  destruct Hread as (sym & c' & d' & Er & _); [lia | lia | | | | | |].
  - apply table_of_freqs_contract;
      [discriminate | repeat (apply Forall_cons; [lia|]); apply Forall_nil].
  - simpl. lia.
  - rewrite Hm. simpl. lia.
  - apply Forall_nil.
  - lia.
  - rewrite E. split; [exact Hm|]. split; [exact Hr|]. split; [exact H2|].
    split; [exact H3|].
    split; [rewrite Enl, El; reflexivity|].
    split; [rewrite Enh, Hr, El; reflexivity|].
    exists sym, c', d'. exact Er.
Defined.

(** C8. Constructing a coder, an encoder or a decoder fails, with the
    state-size error, exactly when the state size is below 1 or above 63.
    Otherwise the constants are fullRange = 2^b, halfRange = 2^(b-1),
    quarterRange = 2^(b-2) rounded down (0 for b = 1), mask = 2^b - 1,
    MIN_RANGE = (fullRange >> 2) + 2 and
    MAX_TOTAL = min(floor((2^64 - 1) / fullRange), MIN_RANGE), and the
    interval starts as low = 0, high = mask. *)
Theorem C8_constructor (stateSize : Z) (out inp : list Z) :
  (ArithmeticCoderBase_new stateSize = Err StateSizeOutOfRange
   <-> stateSize < 1 \/ 63 < stateSize) /\
  (ArithmeticEncoder_new stateSize out = Err StateSizeOutOfRange
   <-> stateSize < 1 \/ 63 < stateSize) /\
  (ArithmeticDecoder_new stateSize inp = Err StateSizeOutOfRange
   <-> stateSize < 1 \/ 63 < stateSize) /\
  (1 <= stateSize <= 63 ->
   exists c, ArithmeticCoderBase_new stateSize = Ok c /\
     numStateBits c = stateSize /\
     fullRange c = 2 ^ stateSize /\
     halfRange c = 2 ^ (stateSize - 1) /\
     quarterRange c = 2 ^ (stateSize - 2) /\
     MASK c = 2 ^ stateSize - 1 /\
     MIN_RANGE c = Z.shiftr (fullRange c) 2 + 2 /\
     MAX_TOTAL c = Z.min ((2 ^ 64 - 1) / fullRange c) (MIN_RANGE c) /\
     low c = 0 /\ high c = MASK c /\
     ArithmeticEncoder_new stateSize out = Ok (c, {| output := out; numUnderflow := 0 |}) /\
     exists d, ArithmeticDecoder_new stateSize inp = Ok (c, d)).
Proof.
  assert (Hbad : stateSize < 1 \/ 63 < stateSize ->
            ArithmeticCoderBase_new stateSize = Err StateSizeOutOfRange).
  { intros H. unfold ArithmeticCoderBase_new.
    destruct (Z.ltb_spec stateSize 1), (Z.gtb_spec stateSize 63); cbn [orb];
      try reflexivity; lia. }
  assert (Hgood : 1 <= stateSize <= 63 ->
            exists c, ArithmeticCoderBase_new stateSize = Ok c /\
                      coder_consts stateSize c /\ low c = 0 /\ high c = 2 ^ stateSize - 1)
    by apply ArithmeticCoderBase_new_ok.
  assert (Hcases : stateSize < 1 \/ 63 < stateSize \/ 1 <= stateSize <= 63) by lia.
  split; [|split; [|split]].
  - split; [|exact Hbad]. intros E.
    destruct Hcases as [H | [H | H]]; auto.
    destruct (Hgood H) as (c & E' & _). rewrite E' in E. discriminate.
  - unfold ArithmeticEncoder_new. split.
    + intros E. destruct Hcases as [H | [H | H]]; auto.
      destruct (Hgood H) as (c & E' & _). rewrite E' in E. discriminate.
    + intros H. rewrite (Hbad H). reflexivity.
  - unfold ArithmeticDecoder_new. split.
    + intros E. destruct Hcases as [H | [H | H]]; auto.
      destruct (Hgood H) as (c & E' & _). rewrite E' in E. discriminate.
    + intros H. rewrite (Hbad H). reflexivity.
  - intros Hb. destruct (Hgood Hb) as (c & E & Hc & El & Eh).
    pose proof Hc as (En & Ef & Ehalf & Eq & Emin & Emax & Emask).
    exists c. split; [exact E|]. split; [exact En|]. split; [exact Ef|].
    split; [exact Ehalf|]. split.
    { destruct (quarter_cases stateSize c Hb Hc) as [(-> & _ & ->)|(_ & -> & _)];
        reflexivity. }
    split; [exact Emask|]. split.
    { rewrite Emin, Ef, Z.shiftr_div_pow2 by lia. reflexivity. }
    split; [rewrite Emax, Emin, Ef; reflexivity|].
    split; [exact El|]. split; [rewrite Eh, Emask; reflexivity|].
    unfold ArithmeticEncoder_new, ArithmeticDecoder_new. rewrite E.
    split; [reflexivity|]. eexists. reflexivity.
Qed.

(** The boundary state sizes: 0 and 64 fail, 1 and 63 succeed. *)
Lemma C8_constructor_witness :
  ArithmeticEncoder_new 0 [] = Err StateSizeOutOfRange /\
  ArithmeticDecoder_new 64 [] = Err StateSizeOutOfRange /\
  (exists c, ArithmeticCoderBase_new 1 = Ok c /\ quarterRange c = 0 /\ MAX_TOTAL c = 2) /\
  (exists c, ArithmeticCoderBase_new 63 = Ok c /\ fullRange c = 2 ^ 63 /\ MAX_TOTAL c = 1).
Proof.
  split; [apply (C8_constructor 0 [] []); lia|].
  split; [apply (C8_constructor 64 [] []); lia|].
  split.
  - destruct (C8_constructor 1 [] []) as (_ & _ & _ & H).
    destruct (H ltac:(lia)) as (c & E & _ & Ef & _ & Eq & _ & Emin & Emax & _).
    exists c. split; [exact E|]. split; [exact Eq|].
    rewrite Emax, Emin, Ef. reflexivity.
  - destruct (C8_constructor 63 [] []) as (_ & _ & _ & H).
    destruct (H ltac:(lia)) as (c & E & _ & Ef & _ & Eq & _ & Emin & Emax & _).
    exists c. split; [exact E|]. split; [exact Ef|].
    rewrite Emax, Emin, Ef. reflexivity.
Defined.

(** C9. When [write] or [read] stops with an invalid-argument error (zero
    frequency or total too large), the state it leaves is the state it was
    called on: the interval, the encoder's underflow count and output
    stream, the decoder's window and input stream are all unchanged. *)
Theorem C9_rejection_is_atomic (umax : Z) (fuel : nat) (t : FrequencyTable) (s : Z)
    (c : ArithmeticCoderBase) (e : EncoderState) (d : DecoderState)
    (er : error) (ste : ArithmeticCoderBase * EncoderState)
    (std : ArithmeticCoderBase * DecoderState) :
  is_invalid_argument er = true ->
  (write umax fuel t s c e = (Err er, ste) -> ste = (c, e)) /\
  (read fuel t c d = (Err er, std) -> std = (c, d)).
Proof.
  intros Hinv. split; intros Hrun.
  - exact (proj1 (write_invalid_argument umax fuel t s c e er ste Hrun Hinv)).
  - exact (proj1 (read_invalid_argument fuel t c d er std Hrun Hinv)).
Qed.

(** State size 8: writing the zero-frequency symbol of the table 0, 1 after
    two bits of output and three pending underflow bits changes nothing. *)
Lemma C9_rejection_is_atomic_witness :
  match ArithmeticCoderBase_new 8 with
  | Ok c =>
      write UINT64_MAX 64 (table_of_freqs [0; 1]) 0 c
            {| output := [1; 0]; numUnderflow := 3 |}
      = (Err SymbolHasZeroFrequency, (c, {| output := [1; 0]; numUnderflow := 3 |}))
  | Err _ => False
  end.
Proof.
  destruct (ArithmeticCoderBase_new 8) as [c|] eqn:E; [|vm_compute in E; discriminate].
  destruct (write UINT64_MAX 64 (table_of_freqs [0; 1]) 0 c
              {| output := [1; 0]; numUnderflow := 3 |}) as [r ste] eqn:Ew.
  assert (Er : r = Err SymbolHasZeroFrequency).
  { vm_compute in E. injection E as <-. vm_compute in Ew. injection Ew as <- _.
    reflexivity. }
  subst r.
  destruct (C9_rejection_is_atomic UINT64_MAX 64 (table_of_freqs [0; 1]) 0 c
              {| output := [1; 0]; numUnderflow := 3 |} {| input := []; code := 0 |}
              SymbolHasZeroFrequency ste (c, {| input := []; code := 0 |}) eq_refl)
    as [Hw _].
  rewrite (Hw Ew). reflexivity.
Defined.

(** C10. [finish] writes exactly one bit, the bit 1, and changes neither
    the interval nor the underflow count: the pending underflow bits are
    never written. *)
Theorem C10_finish (c : ArithmeticCoderBase) (e : EncoderState) :
  output (snd (finish c e)) = output e ++ [1] /\
  fst (finish c e) = c /\
  low (fst (finish c e)) = low c /\ high (fst (finish c e)) = high c /\
  numUnderflow (snd (finish c e)) = numUnderflow e.
Proof. repeat split. Qed.

(** * Further properties of the coder *)

(** ** Zeros after the end of the stream *)

Lemma readCodeBit_padded (inp : list Z) (k : nat) :
  exists j, readCodeBit (inp ++ repeat 0 k)
            = (fst (readCodeBit inp), snd (readCodeBit inp) ++ repeat 0 j).
Proof.
  destruct inp as [|x rest].
  - destruct k as [|k]; [exists 0%nat | exists k]; reflexivity.
  - exists k. reflexivity.
Qed.

Lemma Decoder_shift_padded (c : ArithmeticCoderBase) (d d' : DecoderState) :
  padded d d' ->
  exists x x', Decoder_shift c d = Ok x /\ Decoder_shift c d' = Ok x' /\ padded x x'.
Proof.
  intros [Ec (k & Ei)]. unfold Decoder_shift. rewrite Ei, Ec.
  destruct (readCodeBit_padded (input d) k) as (j & ->).
  destruct (readCodeBit (input d)) as [bit rest]. cbn [fst snd].
  eexists _, _. split; [reflexivity|]. split; [reflexivity|].
  split; [reflexivity | exists j; reflexivity].
Qed.

Lemma Decoder_underflow_padded (c : ArithmeticCoderBase) (d d' : DecoderState) :
  padded d d' ->
  exists x x', Decoder_underflow c d = Ok x /\ Decoder_underflow c d' = Ok x' /\
               padded x x'.
Proof.
  intros [Ec (k & Ei)]. unfold Decoder_underflow. rewrite Ei, Ec.
  destruct (readCodeBit_padded (input d) k) as (j & ->).
  destruct (readCodeBit (input d)) as [bit rest]. cbn [fst snd].
  eexists _, _. split; [reflexivity|]. split; [reflexivity|].
  split; [reflexivity | exists j; reflexivity].
Qed.

Lemma shift_loop_padded (fuel : nat) :
  forall c d d', padded d d' ->
  same_but_padded (shift_loop fuel c d) (shift_loop fuel c d').
Proof.
  induction fuel as [|f IH]; intros c d d' Hp; cbn [shift_loop].
  - destruct (top_bits_equal c); repeat split; try exact Hp; apply Hp.
  - destruct (top_bits_equal c); [|repeat split; try exact Hp; apply Hp].
    cbn [shift DecoderHooks].
    destruct (Decoder_shift_padded c d d' Hp) as (x & x' & -> & -> & Hx).
    apply IH, Hx.
Qed.

Lemma underflow_loop_padded (fuel : nat) :
  forall c d d', padded d d' ->
  same_but_padded (underflow_loop fuel c d) (underflow_loop fuel c d').
Proof.
  induction fuel as [|f IH]; intros c d d' Hp; cbn [underflow_loop].
  - destruct (second_bits_straddle c); repeat split; try exact Hp; apply Hp.
  - destruct (second_bits_straddle c); [|repeat split; try exact Hp; apply Hp].
    cbn [underflow DecoderHooks].
    destruct (Decoder_underflow_padded c d d' Hp) as (x & x' & -> & -> & Hx).
    apply IH, Hx.
Qed.

Lemma same_but_padded_here {A : Type} (r : res A) (c : ArithmeticCoderBase)
    (d d' : DecoderState) :
  padded d d' -> same_but_padded (r, (c, d)) (r, (c, d')).
Proof. intros Hp. split; [reflexivity|]. split; [reflexivity | exact Hp]. Qed.

Lemma update_padded (fuel : nat) (t : FrequencyTable) (s : Z)
    (c : ArithmeticCoderBase) (d d' : DecoderState) :
  padded d d' ->
  same_but_padded (update fuel t s c d) (update fuel t s c d').
Proof.
  intros Hp. unfold update.
  repeat match goal with
         | |- same_but_padded (if ?b then _ else _) _ =>
             destruct b; [apply same_but_padded_here, Hp|]
         end.
  cbv zeta. 
  repeat match goal with
         | |- same_but_padded (if ?b then _ else _) _ =>
             destruct b; [apply same_but_padded_here, Hp|]
         end.
  unfold renormalize.
  set (cn := narrow _ _ _ _).
  pose proof (shift_loop_padded fuel cn d d' Hp) as (E1 & E2 & E3).
  destruct (shift_loop fuel cn d) as [r1 [c1 d1]].
  destruct (shift_loop fuel cn d') as [r1' [c1' d1']].
  cbn [fst snd] in E1, E2, E3. subst r1' c1'.
  destruct r1 as [[]|er].
  - apply underflow_loop_padded, E3.
  - apply same_but_padded_here, E3.
Qed.

Lemma read_padded (fuel : nat) (t : FrequencyTable)
    (c : ArithmeticCoderBase) (d d' : DecoderState) :
  padded d d' ->
  same_but_padded (read fuel t c d) (read fuel t c d').
Proof.
  intros Hp. pose proof Hp as [Ec _]. unfold read. rewrite Ec. cbv zeta.
  repeat match goal with
         | |- same_but_padded (if ?b then _ else _) _ =>
             destruct b; [apply same_but_padded_here, Hp|]
         end.
  destruct (search _ _ _ _ _) as [[start end_]|]; [|apply same_but_padded_here, Hp].
  repeat match goal with
         | |- same_but_padded (if ?b then _ else _) _ =>
             destruct b; [apply same_but_padded_here, Hp|]
         end.
  pose proof (update_padded fuel t start c d d' Hp) as (E1 & E2 & E3).
  destruct (update fuel t start c d) as [r1 [c1 d1]].
  destruct (update fuel t start c d') as [r1' [c1' d1']].
  cbn [fst snd] in E1, E2, E3. subst r1' c1'.
  destruct r1 as [[]|er]; [|apply same_but_padded_here, E3].
  destruct E3 as [Ec1 Ei1]. rewrite Ec1.
  destruct (_ || _); apply same_but_padded_here; split; assumption.
Qed.

Lemma read_all_padded (fuel : nat) (t : FrequencyTable) (n : nat) :
  forall c d d', padded d d' ->
  same_but_padded (read_all fuel t n c d) (read_all fuel t n c d').
Proof.
  induction n as [|n IH]; intros c d d' Hp; cbn [read_all].
  - apply same_but_padded_here, Hp.
  - pose proof (read_padded fuel t c d d' Hp) as (E1 & E2 & E3).
    destruct (read fuel t c d) as [r1 [c1 d1]].
    destruct (read fuel t c d') as [r1' [c1' d1']].
    cbn [fst snd] in E1, E2, E3. subst r1' c1'.
    destruct r1 as [s|er]; [|apply same_but_padded_here, E3].
    pose proof (IH c1 d1 d1' E3) as (F1 & F2 & F3).
    destruct (read_all fuel t n c1 d1) as [r2 [c2 d2]].
    destruct (read_all fuel t n c1 d1') as [r2' [c2' d2']].
    cbn [fst snd] in F1, F2, F3. subst r2' c2'.
    destruct r2; apply same_but_padded_here, F3.
Qed.

Lemma read_seq_padded (fuel : nat) (ts : list FrequencyTable) :
  forall c d d', padded d d' ->
  same_but_padded (read_seq fuel ts c d) (read_seq fuel ts c d').
Proof.
  induction ts as [|t ts IH]; intros c d d' Hp; cbn [read_seq].
  - apply same_but_padded_here, Hp.
  - pose proof (read_padded fuel t c d d' Hp) as (E1 & E2 & E3).
    destruct (read fuel t c d) as [r1 [c1 d1]].
    destruct (read fuel t c d') as [r1' [c1' d1']].
    cbn [fst snd] in E1, E2, E3. subst r1' c1'.
    destruct r1 as [s|er]; [|apply same_but_padded_here, E3].
    pose proof (IH c1 d1 d1' E3) as (F1 & F2 & F3).
    destruct (read_seq fuel ts c1 d1) as [r2 [c2 d2]].
    destruct (read_seq fuel ts c1 d1') as [r2' [c2' d2']].
    cbn [fst snd] in F1, F2, F3. subst r2' c2'.
    destruct r2; apply same_but_padded_here, F3.
Qed.

Lemma prime_code_padded (n : nat) :
  forall d d', padded d d' -> padded (prime_code n d) (prime_code n d').
Proof.
  induction n as [|n IH]; intros d d' Hp; cbn [prime_code]; [exact Hp|].
  destruct Hp as [Ec (k & Ei)]. rewrite Ei, Ec.
  destruct (readCodeBit_padded (input d) k) as (j & ->).
  destruct (readCodeBit (input d)) as [bit rest]. cbn [fst snd].
  apply IH. split; [reflexivity | exists j; reflexivity].
Qed.

Lemma ArithmeticDecoder_new_padded (stateSize : Z) (bits : list Z) (k : nat) :
  match ArithmeticDecoder_new stateSize bits,
        ArithmeticDecoder_new stateSize (bits ++ repeat 0 k) with
  | Ok (c, d), Ok (c', d') => c' = c /\ padded d d'
  | Err e, Err e' => e' = e
  | _, _ => False
  end.
Proof.
  unfold ArithmeticDecoder_new.
  destruct (ArithmeticCoderBase_new stateSize) as [c|e]; [|reflexivity].
  split; [reflexivity|]. apply prime_code_padded.
  split; [reflexivity | exists k; reflexivity].
Qed.

(** X1. Zeros after the end of the stream change nothing: a decoder
    constructed on a bit stream followed by any number of 0 bits has, after
    any number of reads, the outcome (the symbols or the error) of the
    decoder constructed on the stream itself. This is what lets a stream be
    padded with zeros to a whole number of bytes. *)
Theorem X1_zero_padding (stateSize : Z) (fuel : nat) (t : FrequencyTable)
    (n : nat) (bits : list Z) (k : nat) :
  decode stateSize fuel t n (bits ++ repeat 0 k) = decode stateSize fuel t n bits.
Proof.
  unfold decode.
  pose proof (ArithmeticDecoder_new_padded stateSize bits k) as H.
  destruct (ArithmeticDecoder_new stateSize bits) as [[c d]|e];
    destruct (ArithmeticDecoder_new stateSize (bits ++ repeat 0 k)) as [[c' d']|e'];
    try contradiction.
  - destruct H as [-> Hp]. apply (read_all_padded fuel t n c d d' Hp).
  - congruence.
Qed.

(** ** The decoder on any stream of bits *)

Lemma read_all_ok (b : Z) (fuel : nat) (t : FrequencyTable) :
  1 <= b <= 63 -> table_contract t -> getSymbolLimit t <= 2 ^ 31 ->
  1 <= getTotal t <= maxTotal b -> (31 <= fuel)%nat -> b <= Z.of_nat fuel ->
  forall n c d,
  coder_consts b c -> state_ok c -> code_ok c d -> Forall is_bit (input d) ->
  exists syms c' d', read_all fuel t n c d = (Ok syms, (c', d')) /\
    length syms = n /\ symbols_ok t syms /\
    coder_consts b c' /\ state_ok c' /\ code_ok c' d' /\ Forall is_bit (input d').
Proof.
  intros Hb Ht Hlim Htot Hf1 Hf2.
  induction n as [|n IH]; intros c d Hc Hok Hcode Hbits; cbn [read_all].
  - exists [], c, d. repeat (split; [first [reflexivity | assumption | apply Forall_nil]|]).
    assumption.
  - assert (Htot' : 1 <= getTotal t <= MAX_TOTAL c)
      by (rewrite (MAX_TOTAL_maxTotal b c Hc); exact Htot).
    destruct (read_ok b fuel t c d Hb Hc Hok Hcode Hbits Ht Hlim Htot' Hf1 Hf2)
      as (s & c1 & d1 & -> & Hs & Hcod & _ & _ & Hc1 & Hren1 & Hcode1 & Hbits1).
    pose proof (renormalized_state_ok b c1 Hb Hc1 Hren1) as Hok1.
    destruct (IH c1 d1 Hc1 Hok1 Hcode1 Hbits1)
      as (syms & c2 & d2 & -> & Hlen & Hsyms & Hrest).
    exists (s :: syms), c2, d2. split; [reflexivity|].
    split; [cbn [length]; congruence|].
    split; [|exact Hrest].
    apply Forall_cons; [|exact Hsyms].
    split; [exact Hs|]. destruct Hcod as (_ & Hlt & _). lia.
Qed.

Lemma ArithmeticDecoder_new_ok (b : Z) (inp : list Z) :
  1 <= b <= 63 -> Forall is_bit inp ->
  exists c d, ArithmeticDecoder_new b inp = Ok (c, d) /\
    coder_consts b c /\ low c = 0 /\ high c = 2 ^ b - 1 /\ state_ok c /\
    code_ok c d /\ Forall is_bit (input d) /\
    code d = val (Z.to_nat b) inp /\ input d = skipn (Z.to_nat b) inp.
Proof.
  intros Hb Hinp.
  destruct (ArithmeticDecoder_new_synced b inp Hb Hinp)
    as (c & d & E & Hc & Hren & _ & Ecode & Einp).
  exists c, d. split; [exact E|]. split; [exact Hc|].
  pose proof (renormalized_state_ok b c Hb Hc Hren) as Hok.
  unfold ArithmeticDecoder_new in E.
  destruct (ArithmeticCoderBase_new_ok b Hb) as (c0 & E0 & _ & El & Eh).
  rewrite E0 in E. injection E as <- _.
  split; [exact El|]. split; [exact Eh|]. split; [exact Hok|].
  pose proof (val_bound (Z.to_nat b) inp Hinp) as Hv.
  rewrite Z2Nat.id in Hv by lia.
  split; [unfold code_ok; rewrite Ecode, El, Eh; lia|].
  split; [rewrite Einp; apply bits_skipn, Hinp|].
  split; assumption.
Qed.

(** X2. The decoder accepts every stream: for a state size in [1, 63] and a
    table of the contract with at most 2^31 symbols and a total between 1
    and the coder's maximum, decoding n symbols from any list of bits
    (whatever wrote it, however short) succeeds, and every symbol it returns
    is a symbol of the table with a nonzero frequency. *)
Theorem X2_decode_any_stream (b : Z) (fuel : nat) (t : FrequencyTable)
    (n : nat) (bits : list Z) :
  1 <= b <= 63 -> (64 <= fuel)%nat ->
  table_contract t -> getSymbolLimit t <= 2 ^ 31 ->
  1 <= getTotal t <= maxTotal b ->
  Forall is_bit bits ->
  exists syms, decode b fuel t n bits = Ok syms /\
    length syms = n /\ symbols_ok t syms.
Proof.
  intros Hb Hfuel Ht Hlim Htot Hbits. unfold decode.
  destruct (ArithmeticDecoder_new_ok b bits Hb Hbits)
    as (c & d & -> & Hc & _ & _ & Hok & Hcode & Hinp & _).
  destruct (read_all_ok b fuel t Hb Ht Hlim Htot ltac:(lia) ltac:(lia)
              n c d Hc Hok Hcode Hinp)
    as (syms & c' & d' & -> & Hlen & Hsyms & _).
  exists syms. split; [reflexivity|]. split; assumption.
Qed.

Lemma X2_decode_any_stream_witness :
  table_contract (table_of_freqs [1; 2; 1]) /\
  exists syms, decode 8 64 (table_of_freqs [1; 2; 1]) 4 [1; 1; 0; 1; 0] = Ok syms /\
    length syms = 4%nat /\ symbols_ok (table_of_freqs [1; 2; 1]) syms.
Proof.
  assert (Ht : table_contract (table_of_freqs [1; 2; 1])).
  { apply table_of_freqs_contract;
      [discriminate | repeat (apply Forall_cons; [lia|]); apply Forall_nil]. }
  split; [exact Ht|].
  apply (X2_decode_any_stream 8 64 (table_of_freqs [1; 2; 1]) 4 [1; 1; 0; 1; 0]);
    try assumption; try lia.
  - simpl. lia.
  - split; vm_compute; discriminate.
  - repeat (apply Forall_cons; [(left; reflexivity) || (right; reflexivity)|]).
    apply Forall_nil.
Defined.

(** ** The narrowed intervals of the symbols *)

Lemma symbol_exists (t : FrequencyTable) (value : Z) :
  table_contract t -> 0 <= value < getTotal t ->
  exists s, 0 <= s < getSymbolLimit t /\ getLow t s <= value < getHigh t s.
Proof.
  intros (Hlim & H0 & Hle & Hnext & Hlast) Hv.
  assert (Hdown : forall k : nat, Z.of_nat k < getSymbolLimit t ->
            value < getHigh t (Z.of_nat k) ->
            exists s, 0 <= s <= Z.of_nat k /\ getLow t s <= value < getHigh t s).
  { induction k as [|k IH]; intros Hk Hlt.
    - exists 0. change (Z.of_nat 0) with 0 in Hlt. rewrite H0. lia.
    - destruct (Z_le_gt_dec (getLow t (Z.of_nat (S k))) value) as [Hge|Hgt].
      + exists (Z.of_nat (S k)). lia.
      + destruct IH as (s & Hs & Hin); [lia| |exists s; lia].
        rewrite (Hnext (Z.of_nat k)) by lia.
        replace (Z.of_nat k + 1) with (Z.of_nat (S k)) by lia. lia. }
  destruct (Hdown (Z.to_nat (getSymbolLimit t - 1))) as (s & Hs & Hin).
  - rewrite Z2Nat.id by lia. lia.
  - rewrite Z2Nat.id by lia. rewrite Hlast. lia.
  - rewrite Z2Nat.id in Hs by lia. exists s. split; [lia | exact Hin].
Qed.

(** X3. The narrowed intervals of the symbols partition the interval: for
    a state within the invariant and a table of the contract with a total
    between 1 and MAX_TOTAL, every value of [low, high] lies in the interval
    that [update] narrows to for exactly one symbol of nonzero frequency. *)
Theorem X3_narrowing_partitions (b : Z) (c : ArithmeticCoderBase)
    (t : FrequencyTable) (x : Z) :
  1 <= b <= 63 -> coder_consts b c -> state_ok c ->
  table_contract t -> 1 <= getTotal t <= MAX_TOTAL c ->
  low c <= x <= high c ->
  exists s, 0 <= s < getSymbolLimit t /\ getLow t s < getHigh t s /\
    (let c' := narrow c (getLow t s) (getHigh t s) (getTotal t) in
     low c' <= x <= high c') /\
    forall s', 0 <= s' < getSymbolLimit t -> getLow t s' < getHigh t s' ->
      (let c' := narrow c (getLow t s') (getHigh t s') (getTotal t) in
       low c' <= x <= high c') ->
      s' = s.
Proof.
  intros Hb Hc Hok Ht Htot Hx.
  set (d := {| input := []; code := x |}).
  assert (Hcode : code_ok c d) by (unfold code_ok; cbn [code d]; lia).
  set (value := ((x - low c + 1) * getTotal t - 1) / (high c - low c + 1)).
  assert (Hv : 0 <= value < getTotal t).
  { unfold value. pose proof Hok as (_ & Hlt & _). split.
    - apply Z.div_pos; nia.
    - apply Z.div_lt_upper_bound; nia. }
  destruct (symbol_exists t value Ht Hv) as (s & Hs & Hin).
  assert (Hcod : forall s', 0 <= s' < getSymbolLimit t -> getLow t s' < getHigh t s' ->
            codable c t s').
  { intros s' Hs' Hlt. apply contract_codable; try assumption; lia. }
  exists s. split; [exact Hs|]. split; [lia|]. split.
  - pose proof (proj2 (code_in_narrow_iff b c d t s Hb Hc Hok Hcode
                         (Hcod s Hs ltac:(lia))) Hin) as [H1 H2].
    cbv zeta. cbn [code d] in H1, H2. lia.
  - intros s' Hs' Hlt Hin'. cbv zeta in Hin'.
    assert (Hc' : code_ok (narrow c (getLow t s') (getHigh t s') (getTotal t)) d)
      by (unfold code_ok; cbn [code d]; lia).
    pose proof (proj1 (code_in_narrow_iff b c d t s' Hb Hc Hok Hcode
                         (Hcod s' Hs' Hlt)) Hc') as Hin2.
    exact (symbol_unique t value s' s Ht Hs' Hs Hin2 Hin).
Qed.

Lemma X3_narrowing_partitions_witness :
  exists s, 0 <= s < 3 /\
    (let c' := narrow coder8 (getLow (table_of_freqs [1; 2; 1]) s)
                 (getHigh (table_of_freqs [1; 2; 1]) s) 4 in
     low c' <= 100 <= high c').
Proof.
  destruct (X3_narrowing_partitions 8 coder8 (table_of_freqs [1; 2; 1]) 100)
    as (s & Hs & _ & Hin & _).
  - lia.
  - repeat split.
  - unfold state_ok. cbn. lia.
  - apply table_of_freqs_contract;
      [discriminate | repeat (apply Forall_cons; [lia|]); apply Forall_nil].
  - cbn. lia.
  - cbn. lia.
  - exists s. split; [exact Hs | exact Hin].
Defined.

(** X4. For a table of the contract with at most 2^31 symbols and a value
    below the total, the search loop of [read] stops within 31 iterations at
    a pair (s, s + 1), so the assertion after it passes; s is the highest
    symbol whose cumulative low is at most the value, and the only symbol
    whose cumulative range holds the value. *)
Theorem X4_search_finds_symbol (t : FrequencyTable) (value : Z) (fuel : nat) :
  table_contract t -> getSymbolLimit t <= 2 ^ 31 ->
  0 <= value < getTotal t -> (31 <= fuel)%nat ->
  exists s, search fuel t value 0 (getSymbolLimit t) = Some (s, s + 1) /\
    0 <= s < getSymbolLimit t /\
    getLow t s <= value < getHigh t s /\
    (forall s', s < s' < getSymbolLimit t -> value < getLow t s') /\
    (forall s', 0 <= s' < getSymbolLimit t ->
       getLow t s' <= value < getHigh t s' -> s' = s).
Proof.
  intros Ht Hlim Hv Hfuel.
  pose proof Ht as (H1 & H0 & _ & Hnext & _).
  destruct (search_finds t value Ht Hlim ltac:(lia) fuel 0 (getSymbolLimit t))
    as (s & Es & Hs & Hin); try lia.
  - transitivity (2 ^ 31); [lia|].
    apply Z.pow_le_mono_r; lia.
  - exists s. split; [exact Es|]. split; [lia|]. split; [exact Hin|]. split.
    + intros s' Hs'.
      pose proof (getLow_le t (s + 1) s' Ht ltac:(lia) ltac:(lia) ltac:(lia)) as Hle.
      rewrite <- (Hnext s) in Hle by lia. lia.
    + intros s' Hs' Hin'.
      exact (symbol_unique t value s' s Ht Hs' ltac:(lia) Hin' Hin).
Qed.

Lemma X4_search_finds_symbol_witness :
  exists s, search 31 (table_of_freqs [3; 0; 2; 5]) 4 0 4 = Some (s, s + 1) /\
    getLow (table_of_freqs [3; 0; 2; 5]) s <= 4 < getHigh (table_of_freqs [3; 0; 2; 5]) s.
Proof.
  destruct (X4_search_finds_symbol (table_of_freqs [3; 0; 2; 5]) 4 31)
    as (s & Es & _ & Hin & _).
  - apply table_of_freqs_contract;
      [discriminate | repeat (apply Forall_cons; [lia|]); apply Forall_nil].
  - cbn. lia.
  - cbn. lia.
  - lia.
  - exists s. split; [exact Es | exact Hin].
Defined.

(** ** The bits of one symbol *)

Lemma interval_size_shift (b : Z) (c : ArithmeticCoderBase) :
  1 <= b <= 63 -> coder_consts b c -> pre_ok c -> top_bits_equal c = true ->
  interval_size (shift_interval c) = 2 * interval_size c.
Proof.
  intros Hb Hc Hpre Ht.
  destruct (shift_interval_step b c Hb Hc Hpre Ht) as (El & Eh & _).
  unfold interval_size. rewrite El, Eh. lia.
Qed.

Lemma interval_size_underflow (b : Z) (c : ArithmeticCoderBase) :
  1 <= b <= 63 -> coder_consts b c -> split_ok c -> second_bits_straddle c = true ->
  interval_size (underflow_interval c) = 2 * interval_size c.
Proof.
  intros Hb Hc Hsp Hs.
  destruct (underflow_interval_step b c Hb Hc Hsp Hs) as (El & Eh & _).
  destruct (straddle_true b c Hb Hc Hsp Hs) as (Hhq & _).
  unfold interval_size. rewrite El, Eh. lia.
Qed.

Lemma doublings_bound (b k r : Z) (c : ArithmeticCoderBase) :
  1 <= b <= 63 -> coder_consts b c -> state_ok c ->
  0 <= k -> 1 <= r -> interval_size c = 2 ^ k * r -> k <= b.
Proof.
  intros Hb Hc Hok Hk Hr E.
  pose proof Hc as (_ & Hfull & _).
  destruct Hok as (_ & _ & _ & _ & Hsize). fold (interval_size c) in Hsize.
  apply (Z.pow_le_mono_r_iff 2); [lia | lia |].
  rewrite <- Hfull. assert (0 < 2 ^ k) by (apply Z.pow_pos_nonneg; lia). nia.
Qed.

Lemma Encoder_shift_written (b : Z) (e0 : EncoderState) (r0 : Z)
    (c : ArithmeticCoderBase) (e : EncoderState) :
  1 <= b <= 63 ->
  coder_consts b c -> pre_ok c -> top_bits_equal c = true ->
  written_since e0 r0 c e ->
  match Encoder_shift c e with
  | Ok e' => written_since e0 r0 (shift_interval c) e'
  | Err _ => True
  end.
Proof.
  intros Hb Hc Hpre Ht (em & k & Eo & Hbits & Hnu & Hk & Elen & Esize).
  unfold Encoder_shift. cbv zeta.
  destruct (encoder_bit_half b c Hb Hc Hpre) as [Hbit _].
  set (bit := to_int (Z.shiftr (low c) (numStateBits c - 1))) in *.
  exists (em ++ [bit] ++ repeat (Z.lxor bit 1) (Z.to_nat (numUnderflow e))), (k + 1).
  cbn [output numUnderflow]. unfold BitOutputStream_write.
  split; [rewrite Eo, <- !app_assoc; reflexivity|].
  split.
  { apply Forall_app. split; [exact Hbits|].
    apply Forall_cons; [exact Hbit|]. apply bits_repeat.
    rewrite lxor_bit_1 by exact Hbit. destruct Hbit as [-> | ->]; [right | left]; reflexivity. }
  split; [lia|]. split; [lia|]. split.
  - rewrite !length_app, repeat_length. cbn [length]. lia.
  - rewrite (interval_size_shift b c Hb Hc Hpre Ht), Esize, Z.pow_add_r by lia. lia.
Qed.

Lemma Encoder_underflow_written (umax b : Z) (e0 : EncoderState) (r0 : Z)
    (c : ArithmeticCoderBase) (e : EncoderState) :
  1 <= b <= 63 ->
  coder_consts b c -> split_ok c -> second_bits_straddle c = true ->
  written_since e0 r0 c e ->
  match Encoder_underflow umax c e with
  | Ok e' => written_since e0 r0 (underflow_interval c) e'
  | Err _ => True
  end.
Proof.
  intros Hb Hc Hsp Hs (em & k & Eo & Hbits & Hnu & Hk & Elen & Esize).
  unfold Encoder_underflow.
  destruct (numUnderflow e =? umax); [exact I|].
  exists em, (k + 1). cbn [output numUnderflow].
  split; [exact Eo|]. split; [exact Hbits|]. split; [lia|]. split; [lia|].
  split; [lia|].
  rewrite (interval_size_underflow b c Hb Hc Hsp Hs), Esize, Z.pow_add_r by lia. lia.
Qed.

Lemma write_written (umax b : Z) (fuel : nat) (t : FrequencyTable) (s : Z)
    (c c' : ArithmeticCoderBase) (e e' : EncoderState) :
  1 <= b <= 63 -> coder_consts b c -> state_ok c -> codable c t s ->
  b <= Z.of_nat fuel -> 0 <= numUnderflow e ->
  write umax fuel t s c e = (Ok tt, (c', e')) ->
  coder_consts b c' /\ renormalized c' /\
  written_since e (interval_size (narrow c (getLow t s) (getHigh t s) (getTotal t)))
    c' e'.
Proof.
  intros Hb Hc Hok Hcod Hf Hnu Hrun. unfold write in Hrun.
  set (cn := narrow c (getLow t s) (getHigh t s) (getTotal t)).
  pose proof (@update_inv _ (EncoderHooks umax) b Hb
                (written_since e (interval_size cn)) (fun _ => True)
                (fun c0 x0 => Encoder_shift_written b e (interval_size cn) c0 x0 Hb)
                (fun c0 x0 => Encoder_underflow_written umax b e (interval_size cn) c0 x0 Hb)
                fuel t s c e Hc Hok Hcod) as Hu.
  rewrite Hrun in Hu. apply Hu; [|exact Hf].
  exists [], 0. rewrite app_nil_r. cbn [length].
  split; [reflexivity|]. split; [apply Forall_nil|]. split; [exact Hnu|].
  split; [lia|]. split; [lia|]. fold cn. lia.
Qed.

Lemma narrow_size_pos (b : Z) (c : ArithmeticCoderBase) (t : FrequencyTable) (s : Z) :
  1 <= b <= 63 -> coder_consts b c -> state_ok c -> codable c t s ->
  1 <= interval_size (narrow c (getLow t s) (getHigh t s) (getTotal t)).
Proof.
  intros Hb Hc Hok Hcod.
  destruct (narrow_pre_ok b c t s Hb Hc Hok Hcod) as (_ & Hle & _).
  unfold interval_size. lia.
Qed.

(** X5. What one [write] emits. From a state within the invariant and for a
    symbol of nonzero frequency, a [write] that succeeds only appends to the
    output, what it appends are bits (0 or 1), and the number k of bits it
    appends or defers as pending underflow bits is the number of times the
    narrowed interval was doubled: the size of the new interval is 2^k times
    the size of the narrowed one, and k is at most the state size. *)
Theorem X5_write_bits (umax b : Z) (fuel : nat) (t : FrequencyTable) (s : Z)
    (c c' : ArithmeticCoderBase) (e e' : EncoderState) :
  1 <= b <= 63 -> coder_consts b c -> state_ok c ->
  table_contract t -> getTotal t <= MAX_TOTAL c ->
  0 <= s < getSymbolLimit t -> getLow t s <> getHigh t s ->
  b <= Z.of_nat fuel -> 0 <= numUnderflow e ->
  write umax fuel t s c e = (Ok tt, (c', e')) ->
  exists em k, output e' = output e ++ em /\ Forall is_bit em /\
    0 <= k <= b /\ 0 <= numUnderflow e' /\
    Z.of_nat (length em) + numUnderflow e' = numUnderflow e + k /\
    interval_size c'
    = 2 ^ k * interval_size (narrow c (getLow t s) (getHigh t s) (getTotal t)).
Proof.
  intros Hb Hc Hok Ht Htot Hs Hne Hf Hnu Hrun.
  destruct (symbol_codable t c s Ht Htot Hs Hne) as [Hcod _].
  destruct (write_written umax b fuel t s c c' e e' Hb Hc Hok Hcod Hf Hnu Hrun)
    as (Hc' & Hren' & em & k & Eo & Hbits & Hnu' & Hk & Elen & Esize).
  exists em, k. split; [exact Eo|]. split; [exact Hbits|].
  split; [|split; [exact Hnu'|split; [exact Elen | exact Esize]]].
  split; [exact Hk|].
  apply (doublings_bound b k _ c' Hb Hc' (renormalized_state_ok b c' Hb Hc' Hren') Hk
           (narrow_size_pos b c t s Hb Hc Hok Hcod) Esize).
Qed.

Lemma X5_write_bits_witness :
  exists em k,
    [0; 0] = [] ++ em /\ Forall is_bit em /\ 0 <= k <= 8 /\
    Z.of_nat (length em) + 0 = 0 + k /\
    interval_size coder8 = 2 ^ k * interval_size (narrow coder8 0 1 4).
Proof.
  destruct (X5_write_bits UINT64_MAX 8 8 (table_of_freqs [1; 2; 1]) 0
              coder8 coder8 {| output := []; numUnderflow := 0 |}
              {| output := [0; 0]; numUnderflow := 0 |})
    as (em & k & Eo & Hbits & Hk & _ & Elen & Esize).
  - lia.
  - repeat split.
  - unfold state_ok. cbn. lia.
  - apply table_of_freqs_contract;
      [discriminate | repeat (apply Forall_cons; [lia|]); apply Forall_nil].
  - cbn. lia.
  - cbn. lia.
  - cbn. lia.
  - lia.
  - cbn. lia.
  - vm_compute. reflexivity.
  - exists em, k. split; [exact Eo|]. split; [exact Hbits|]. split; [exact Hk|].
    split; [exact Elen | exact Esize].
Defined.

Lemma skipn_succ_tl (k : Z) (l : list Z) : 0 <= k ->
  tl (skipn (Z.to_nat k) l) = skipn (Z.to_nat (k + 1)) l.
Proof.
  intros Hk. rewrite tl_skipn. f_equal. lia.
Qed.

Lemma Decoder_shift_consumed (b : Z) (inp0 : list Z) (r0 : Z)
    (c : ArithmeticCoderBase) (d : DecoderState) :
  1 <= b <= 63 ->
  coder_consts b c -> pre_ok c -> top_bits_equal c = true ->
  consumed_since inp0 r0 c d ->
  match Decoder_shift c d with
  | Ok d' => consumed_since inp0 r0 (shift_interval c) d'
  | Err _ => False
  end.
Proof.
  intros Hb Hc Hpre Ht (Hbits & Hcode & k & Hk & Ei & Esize).
  pose proof (Decoder_shift_keeps b c d Hb Hc Hpre Ht (conj Hbits Hcode)) as Hkeep.
  pose proof (Decoder_shift_spec b c d Hb Hc Hbits Hpre Ht Hcode) as Es.
  cbv zeta in Es. rewrite Es in Hkeep |- *.
  destruct Hkeep as [Hbits' Hcode'].
  split; [exact Hbits'|]. split; [exact Hcode'|].
  exists (k + 1). cbn [input]. split; [lia|]. split.
  - rewrite Ei. apply skipn_succ_tl, Hk.
  - rewrite (interval_size_shift b c Hb Hc Hpre Ht), Esize, Z.pow_add_r by lia. lia.
Qed.

Lemma Decoder_underflow_consumed (b : Z) (inp0 : list Z) (r0 : Z)
    (c : ArithmeticCoderBase) (d : DecoderState) :
  1 <= b <= 63 ->
  coder_consts b c -> split_ok c -> second_bits_straddle c = true ->
  consumed_since inp0 r0 c d ->
  match Decoder_underflow c d with
  | Ok d' => consumed_since inp0 r0 (underflow_interval c) d'
  | Err _ => False
  end.
Proof.
  intros Hb Hc Hsp Hs (Hbits & Hcode & k & Hk & Ei & Esize).
  pose proof (Decoder_underflow_keeps b c d Hb Hc Hsp Hs (conj Hbits Hcode)) as Hkeep.
  pose proof (Decoder_underflow_spec b c d Hb Hc Hbits Hsp Hs Hcode) as Es.
  rewrite Es in Hkeep |- *.
  destruct Hkeep as [Hbits' Hcode'].
  split; [exact Hbits'|]. split; [exact Hcode'|].
  exists (k + 1). cbn [input]. split; [lia|]. split.
  - rewrite Ei. apply skipn_succ_tl, Hk.
  - rewrite (interval_size_underflow b c Hb Hc Hsp Hs), Esize, Z.pow_add_r by lia. lia.
Qed.

Lemma decoder_update_consumed (b : Z) (fuel : nat) (t : FrequencyTable) (s : Z)
    (c c' : ArithmeticCoderBase) (d d' : DecoderState) :
  1 <= b <= 63 -> coder_consts b c -> state_ok c -> codable c t s ->
  Forall is_bit (input d) ->
  code_ok (narrow c (getLow t s) (getHigh t s) (getTotal t)) d ->
  b <= Z.of_nat fuel ->
  @update _ DecoderHooks fuel t s c d = (Ok tt, (c', d')) ->
  consumed_since (input d)
    (interval_size (narrow c (getLow t s) (getHigh t s) (getTotal t))) c' d'.
Proof.
  intros Hb Hc Hok Hcod Hbits Hcode Hf Hrun.
  set (cn := narrow c (getLow t s) (getHigh t s) (getTotal t)).
  pose proof (@update_inv _ DecoderHooks b Hb
                (consumed_since (input d) (interval_size cn)) (fun _ => False)
                (fun c0 x0 => Decoder_shift_consumed b (input d) (interval_size cn) c0 x0 Hb)
                (fun c0 x0 => Decoder_underflow_consumed b (input d) (interval_size cn) c0 x0 Hb)
                fuel t s c d Hc Hok Hcod) as Hu.
  rewrite Hrun in Hu. apply Hu; [|exact Hf].
  split; [exact Hbits|]. split; [exact Hcode|].
  exists 0. split; [lia|]. split; [reflexivity|]. fold cn. lia.
Qed.

(** X6. What one [read] consumes. With a state within the invariant, the
    window in the interval, a table of the contract with at most 2^31 symbols
    and a total between 1 and MAX_TOTAL, [read] returns a symbol s and takes
    from the input exactly k bits, where k is the number of times the
    interval narrowed for s was doubled: the size of the new interval is 2^k
    times the size of the narrowed one, and k is at most the state size. It
    is the number of bits [write] emits or defers for s from the same
    interval. *)
Theorem X6_read_bits (b : Z) (fuel : nat) (t : FrequencyTable)
    (c : ArithmeticCoderBase) (d : DecoderState) :
  1 <= b <= 63 -> coder_consts b c -> state_ok c -> code_ok c d ->
  Forall is_bit (input d) ->
  table_contract t -> getSymbolLimit t <= 2 ^ 31 ->
  1 <= getTotal t <= MAX_TOTAL c -> (64 <= fuel)%nat ->
  exists s c' d' k, read fuel t c d = (Ok s, (c', d')) /\
    0 <= k <= b /\
    input d' = skipn (Z.to_nat k) (input d) /\
    interval_size c'
    = 2 ^ k * interval_size (narrow c (getLow t s) (getHigh t s) (getTotal t)).
Proof.
  intros Hb Hc Hok Hcode Hbits Ht Hlim Htot Hfuel.
  destruct (read_ok b fuel t c d Hb Hc Hok Hcode Hbits Ht Hlim Htot
              ltac:(lia) ltac:(lia))
    as (s & c' & d' & Er & Hs & Hcod & Hin & Eu & Hc' & Hren' & _).
  destruct (decoder_update_consumed b fuel t s c c' d d' Hb Hc Hok Hcod Hbits Hin
              ltac:(lia) Eu) as (_ & _ & k & Hk & Ei & Esize).
  exists s, c', d', k. split; [exact Er|].
  split; [|split; [exact Ei | exact Esize]].
  split; [exact Hk|].
  apply (doublings_bound b k _ c' Hb Hc' (renormalized_state_ok b c' Hb Hc' Hren') Hk
           (narrow_size_pos b c t s Hb Hc Hok Hcod) Esize).
Qed.

Lemma X6_read_bits_witness :
  exists s c' d' k,
    read 64 (table_of_freqs [1; 2; 1]) coder8 {| input := [1; 0; 1]; code := 20 |}
    = (Ok s, (c', d')) /\
    0 <= k <= 8 /\ input d' = skipn (Z.to_nat k) [1; 0; 1].
Proof.
  destruct (X6_read_bits 8 64 (table_of_freqs [1; 2; 1]) coder8
              {| input := [1; 0; 1]; code := 20 |})
    as (s & c' & d' & k & Er & Hk & Ei & _).
  - lia.
  - repeat split.
  - unfold state_ok. cbn. lia.
  - unfold code_ok. cbn. lia.
  - repeat (apply Forall_cons; [(left; reflexivity) || (right; reflexivity)|]).
    apply Forall_nil.
  - apply table_of_freqs_contract;
      [discriminate | repeat (apply Forall_cons; [lia|]); apply Forall_nil].
  - cbn. lia.
  - cbn. lia.
  - lia.
  - exists s, c', d', k. split; [exact Er|]. split; [exact Hk | exact Ei].
Defined.

(** ** The output stream only grows *)








(** ** The length of the encoding *)

Lemma write_all_written (umax b : Z) (fuel : nat) (t : FrequencyTable)
    (syms : list Z) : forall c e c' e',
  1 <= b <= 63 -> coder_consts b c -> renormalized c -> table_contract t ->
  getTotal t <= MAX_TOTAL c -> symbols_ok t syms -> b <= Z.of_nat fuel ->
  0 <= numUnderflow e ->
  write_all umax fuel t syms c e = (Ok tt, (c', e')) ->
  exists em, output e' = output e ++ em /\ Forall is_bit em /\
    0 <= numUnderflow e' /\
    Z.of_nat (length em) + numUnderflow e'
    <= numUnderflow e + b * Z.of_nat (length syms).
Proof.
  induction syms as [|s rest IH];
    intros c e c' e' Hb Hc Hren Ht Htot Hsyms Hf Hnu Hrun.
  - cbn [write_all] in Hrun. injection Hrun as <- <-.
    exists []. rewrite app_nil_r. cbn [length].
    split; [reflexivity|]. split; [apply Forall_nil|]. lia.
  - cbn [write_all] in Hrun.
    destruct (write umax fuel t s c e) as [[[]|er] [c1 e1]] eqn:Ew; [|discriminate].
    inversion Hsyms as [|? ? [Hs Hne] Hrest]; subst.
    destruct (symbol_codable t c s Ht Htot Hs Hne) as [Hcod _].
    pose proof (renormalized_state_ok b c Hb Hc Hren) as Hok.
    destruct (write_written umax b fuel t s c c1 e e1 Hb Hc Hok Hcod Hf Hnu Ew)
      as (Hc1 & Hren1 & em & k & Eo & Hbits & Hnu1 & Hk & Elen & Esize).
    pose proof (doublings_bound b k _ c1 Hb Hc1
                  (renormalized_state_ok b c1 Hb Hc1 Hren1) Hk
                  (narrow_size_pos b c t s Hb Hc Hok Hcod) Esize) as Hkb.
    assert (Htot' : getTotal t <= MAX_TOTAL c1).
    { rewrite (MAX_TOTAL_maxTotal b c1 Hc1), <- (MAX_TOTAL_maxTotal b c Hc). exact Htot. }
    destruct (IH c1 e1 c' e' Hb Hc1 Hren1 Ht Htot' Hrest Hf Hnu1 Hrun)
      as (em1 & Eo1 & Hbits1 & Hnu' & Hlen1).
    exists (em ++ em1). split; [rewrite Eo1, Eo, app_assoc; reflexivity|].
    split; [apply Forall_app; split; assumption|]. split; [exact Hnu'|].
    rewrite length_app. cbn [length]. lia.
Qed.

(** X8. The encoding is never long: for a state size b in [1, 63], a table
    of the contract whose total the coder accepts and a message of symbols
    of nonzero frequency, the stream that [write] for every symbol and then
    [finish] produce consists of bits (0 or 1), ends with the bit 1 that
    [finish] writes, and has at most b bits for every symbol plus that
    one. *)
Theorem X8_encoding_length (b umax : Z) (fuel : nat) (t : FrequencyTable)
    (syms bits : list Z) :
  1 <= b <= 63 -> (64 <= fuel)%nat ->
  table_contract t -> getTotal t <= maxTotal b -> symbols_ok t syms ->
  encode b umax fuel t syms = Ok bits ->
  Forall is_bit bits /\
  (exists body, bits = body ++ [1]) /\
  Z.of_nat (length bits) <= b * Z.of_nat (length syms) + 1.
Proof.
  intros Hb Hfuel Ht Htot Hsyms Henc.
  unfold encode, ArithmeticEncoder_new in Henc.
  destruct (ArithmeticCoderBase_new_ok b Hb) as (c & Enew & Hc & El & Eh).
  rewrite Enew in Henc.
  destruct (write_all umax fuel t syms c {| output := []; numUnderflow := 0 |})
    as [[[]|er] [c' e']] eqn:Erun; [|discriminate].
  injection Henc as <-. cbn [finish snd output]. unfold BitOutputStream_write.
  assert (Hmax : getTotal t <= MAX_TOTAL c)
    by (rewrite (MAX_TOTAL_maxTotal b c Hc); exact Htot).
  destruct (write_all_written umax b fuel t syms c
              {| output := []; numUnderflow := 0 |} c' e' Hb Hc
              (new_renormalized b c Hb Hc El Eh) Ht Hmax Hsyms ltac:(lia)
              (Z.le_refl 0) Erun)
    as (em & Eo & Hbits & Hnu & Hlen).
  cbn [output numUnderflow app] in Eo, Hlen. rewrite Eo.
  split; [|split].
  - apply Forall_app. split; [exact Hbits|].
    apply Forall_cons; [right; reflexivity | apply Forall_nil].
  - exists em. reflexivity.
  - rewrite length_app. cbn [length]. lia.
Qed.

Lemma X8_encoding_length_witness :
  exists bits,
    encode 8 UINT64_MAX 64 (table_of_freqs [1; 2; 1]) [0; 2; 1; 1; 0] = Ok bits /\
    Z.of_nat (length bits) <= 8 * 5 + 1.
Proof.
  destruct (encode 8 UINT64_MAX 64 (table_of_freqs [1; 2; 1]) [0; 2; 1; 1; 0])
    as [bits|er] eqn:Henc; [|vm_compute in Henc; discriminate].
  exists bits. split; [reflexivity|].
  apply (X8_encoding_length 8 UINT64_MAX 64 (table_of_freqs [1; 2; 1])
           [0; 2; 1; 1; 0] bits); try lia; try exact Henc.
  - apply table_of_freqs_contract;
      [discriminate | repeat (apply Forall_cons; [lia|]); apply Forall_nil].
  - vm_compute. discriminate.
  - unfold symbols_ok. repeat (apply Forall_cons; [simpl; lia|]). apply Forall_nil.
Defined.

(** ** One table per symbol *)

Lemma write_seq_sync (umax b : Z) (fuel : nat) (msg : list (FrequencyTable * Z)) :
  1 <= b <= 63 -> (64 <= fuel)%nat ->
  forall c e c' e',
  coder_consts b c -> renormalized c -> 0 <= numUnderflow e ->
  message_ok b msg ->
  write_seq umax fuel msg c e = (Ok tt, (c', e')) ->
  exists F, output e' ++ [1] = output e ++ F /\
    contains c (pendingBits e) F /\
    forall d, synced c (pendingBits e) F d ->
      exists st, read_seq fuel (map fst msg) c d = (Ok (map snd msg), st).
Proof.
  intros Hb Hfuel.
  induction msg as [|[t s] rest IH]; intros c e c' e' Hc Hren Hnu Hmsg Hrun.
  - cbn [write_seq] in Hrun. injection Hrun as <- <-.
    exists [1]. split; [reflexivity|].
    split; [apply (contains_finish b); assumption|].
    intros d _. eexists. reflexivity.
  - cbn [write_seq] in Hrun.
    destruct (write umax fuel t s c e) as [[[]|er] [c1 e1]] eqn:Ew; [|discriminate].
    inversion Hmsg as [|? ? (Ht & Hlim & Hmax & Hs & Hne) Hrest]; subst.
    cbn [fst snd] in Ht, Hlim, Hmax, Hs, Hne.
    assert (Htot : getTotal t <= MAX_TOTAL c)
      by (rewrite (MAX_TOTAL_maxTotal b c Hc); exact Hmax).
    destruct (symbol_codable t c s Ht Htot Hs Hne) as [Hcod Htot1].
    pose proof (renormalized_state_ok b c Hb Hc Hren) as Hok.
    destruct (update_sync umax b fuel t s c c1 e e1 Hb Hc Hok Hcod Hnu Ew)
      as (em & Eout & Hnu1 & Hc1 & Hren1 & Hfut).
    destruct (IH c1 e1 c' e' Hc1 Hren1 Hnu1 Hrest Hrun)
      as (F1 & EF1 & Hcont1 & Hdec1).
    exists (em ++ F1). split; [rewrite EF1, Eout, app_assoc; reflexivity|].
    destruct (Hfut F1 Hcont1) as [Hcontn Hdec].
    assert (Hcont : contains c (pendingBits e) (em ++ F1)).
    { destruct Hcod as (H0 & Hlt & Hle & Hmax').
      destruct (narrow_spec b c Hb Hc _ _ _ Hok H0 Hlt Hle Hmax')
        as (_ & _ & Hn1 & Hn2 & Hn3).
      revert Hcontn. apply contains_widen; try reflexivity; lia. }
    split; [exact Hcont|]. intros d Hd.
    pose proof (contains_code_ok _ _ _ _ Hcont Hd) as Hcode.
    assert (Hcoden : code_ok (narrow c (getLow t s) (getHigh t s) (getTotal t)) d).
    { exact (contains_code_ok _ _ _ _ Hcontn Hd). }
    destruct (read_unfold b fuel t c d Hb Hc Hok Hcode Ht Hlim ltac:(lia) ltac:(lia))
      as (s0 & Hs0 & Hcod0 & Hcode0 & Eread).
    assert (s0 = s) as ->.
    { apply (symbol_unique t
               (((code d - low c + 1) * getTotal t - 1) / (high c - low c + 1)));
        try assumption.
      - apply (code_in_narrow_iff b c d t s0); assumption.
      - apply (code_in_narrow_iff b c d t s); assumption. }
    destruct (Hdec d Hd) as (d1 & Eupd & Hs1).
    rewrite Eupd in Eread.
    pose proof (contains_code_ok _ _ _ _ Hcont1 Hs1) as [Hlo1 Hhi1].
    assert (E1 : (code d1 <? low c1) = false) by lia.
    assert (E2 : (code d1 >? high c1) = false) by lia.
    rewrite E1, E2 in Eread. cbn [orb] in Eread.
    destruct (Hdec1 d1 Hs1) as (st & Erest).
    exists st. cbn [map fst snd read_seq]. rewrite Eread, Erest. reflexivity.
Qed.

(** X9. The round trip with a table of its own for every symbol, as an
    adaptive model has it: when every table meets the contract, has at most
    2^31 symbols and a total the coder accepts, and every symbol has a
    nonzero frequency in its table, the bits that [write] for every pair and
    then [finish] produce are decoded, by a decoder of the same state size
    that reads with the same tables in the same order, to the same symbols. *)
Theorem X9_round_trip_per_symbol_tables (b umax : Z) (fuel : nat)
    (msg : list (FrequencyTable * Z)) (bits : list Z) :
  1 <= b <= 63 -> (64 <= fuel)%nat -> message_ok b msg ->
  encode_seq b umax fuel msg = Ok bits ->
  decode_seq b fuel (map fst msg) bits = Ok (map snd msg).
Proof.
  intros Hb Hfuel Hmsg Henc.
  unfold encode_seq, ArithmeticEncoder_new in Henc.
  destruct (ArithmeticCoderBase_new_ok b Hb) as (c & Enew & Hc & El & Eh).
  rewrite Enew in Henc.
  destruct (write_seq umax fuel msg c {| output := []; numUnderflow := 0 |})
    as [[[]|er] [c' e']] eqn:Erun; [|discriminate].
  injection Henc as <-. cbn [finish snd output].
  destruct (write_seq_sync umax b fuel msg Hb Hfuel c
              {| output := []; numUnderflow := 0 |} c' e' Hc
              (new_renormalized b c Hb Hc El Eh) (Z.le_refl 0) Hmsg Erun)
    as (F & EF & Hcont & Hdec).
  cbn [output app] in EF. unfold BitOutputStream_write. rewrite EF.
  destruct (ArithmeticDecoder_new_synced b F Hb ltac:(apply Hcont))
    as (c0 & d0 & Edec & _ & _ & Hsync & _).
  unfold decode_seq. rewrite Edec.
  unfold ArithmeticDecoder_new in Edec. rewrite Enew in Edec.
  injection Edec as <- <-.
  destruct (Hdec _ Hsync) as (st & ->). reflexivity.
Qed.

Lemma X9_round_trip_per_symbol_tables_witness :
  exists bits,
    encode_seq 16 UINT64_MAX 64
      [(table_of_freqs [1; 1], 1); (table_of_freqs [1; 2], 1);
       (table_of_freqs [1; 3], 0); (table_of_freqs [2; 3], 1)] = Ok bits /\
    decode_seq 16 64
      [table_of_freqs [1; 1]; table_of_freqs [1; 2];
       table_of_freqs [1; 3]; table_of_freqs [2; 3]] bits = Ok [1; 1; 0; 1].
Proof.
  destruct (encode_seq 16 UINT64_MAX 64
              [(table_of_freqs [1; 1], 1); (table_of_freqs [1; 2], 1);
               (table_of_freqs [1; 3], 0); (table_of_freqs [2; 3], 1)])
    as [bits|er] eqn:Henc; [|vm_compute in Henc; discriminate].
  exists bits. split; [reflexivity|].
  apply (X9_round_trip_per_symbol_tables 16 UINT64_MAX 64
           [(table_of_freqs [1; 1], 1); (table_of_freqs [1; 2], 1);
            (table_of_freqs [1; 3], 0); (table_of_freqs [2; 3], 1)] bits);
    try lia; try exact Henc.
  unfold message_ok.
  repeat (apply Forall_cons;
          [cbn [fst snd]; split;
           [apply table_of_freqs_contract;
            [discriminate | repeat (apply Forall_cons; [lia|]); apply Forall_nil]
           |split; [simpl; lia|split; [vm_compute; discriminate|simpl; lia]]]|]).
  apply Forall_nil.
Defined.

(** ** Decoding a part of the message *)

Lemma read_all_firstn (fuel : nat) (t : FrequencyTable) (n m : nat) :
  forall c d l st,
  read_all fuel t (n + m) c d = (Ok l, st) ->
  exists st', read_all fuel t n c d = (Ok (firstn n l), st').
Proof.
  induction n as [|n IH]; intros c d l st Hrun.
  - eexists. reflexivity.
  - cbn [Nat.add read_all] in Hrun |- *.
    destruct (read fuel t c d) as [[s|er] [c1 d1]]; [|discriminate].
    destruct (read_all fuel t (n + m) c1 d1) as [[l1|er] st1] eqn:E1; [|discriminate].
    injection Hrun as <- <-.
    destruct (IH c1 d1 l1 st1 E1) as (st' & ->).
    exists st'. reflexivity.
Qed.

(** X10. A decoder may stop early: under the conditions of the round trip,
    reading only the first n symbols from the encoding of a message returns
    the first n symbols of the message, for every n up to its length. *)
Theorem X10_decode_prefix (b umax : Z) (fuel : nat) (t : FrequencyTable)
    (syms bits : list Z) (n : nat) :
  1 <= b <= 63 -> (64 <= fuel)%nat ->
  table_contract t -> getSymbolLimit t <= 2 ^ 31 -> getTotal t <= maxTotal b ->
  symbols_ok t syms -> (n <= length syms)%nat ->
  encode b umax fuel t syms = Ok bits ->
  decode b fuel t n bits = Ok (firstn n syms).
Proof.
  intros Hb Hfuel Ht Hlim Htot Hsyms Hn Henc.
  pose proof (round_trip b umax fuel t syms bits Hb Hfuel Ht Hlim Htot Hsyms Henc)
    as Hdec.
  unfold decode in Hdec |- *.
  destruct (ArithmeticDecoder_new b bits) as [[c d]|er]; [|discriminate].
  replace (length syms) with (n + (length syms - n))%nat in Hdec by lia.
  destruct (read_all fuel t (n + (length syms - n)) c d) as [r st] eqn:E.
  cbn [fst] in Hdec. subst r.
  destruct (read_all_firstn fuel t n _ c d syms st E) as (st' & ->). reflexivity.
Qed.

Lemma X10_decode_prefix_witness :
  exists bits,
    encode 32 UINT64_MAX 64 (table_of_freqs [1; 1; 2]) [0; 2; 1; 2; 0] = Ok bits /\
    decode 32 64 (table_of_freqs [1; 1; 2]) 3 bits = Ok [0; 2; 1].
Proof.
  destruct (encode 32 UINT64_MAX 64 (table_of_freqs [1; 1; 2]) [0; 2; 1; 2; 0])
    as [bits|er] eqn:Henc; [|vm_compute in Henc; discriminate].
  exists bits. split; [reflexivity|].
  apply (X10_decode_prefix 32 UINT64_MAX 64 (table_of_freqs [1; 1; 2])
           [0; 2; 1; 2; 0] bits 3); try lia; try exact Henc.
  - apply table_of_freqs_contract;
      [discriminate | repeat (apply Forall_cons; [lia|]); apply Forall_nil].
  - simpl. lia.
  - vm_compute. discriminate.
  - unfold symbols_ok. repeat (apply Forall_cons; [simpl; lia|]). apply Forall_nil.
  - simpl. lia.
Defined.

(** X11. Messages of the same length have different encodings: under the
    conditions of the round trip, two messages of equal length that encode
    to the same bits are the same message. *)
Theorem X11_encode_injective (b umax umax' : Z) (fuel : nat) (t : FrequencyTable)
    (syms syms' bits : list Z) :
  1 <= b <= 63 -> (64 <= fuel)%nat ->
  table_contract t -> getSymbolLimit t <= 2 ^ 31 -> getTotal t <= maxTotal b ->
  symbols_ok t syms -> symbols_ok t syms' -> length syms = length syms' ->
  encode b umax fuel t syms = Ok bits ->
  encode b umax' fuel t syms' = Ok bits ->
  syms = syms'.
Proof.
  intros Hb Hfuel Ht Hlim Htot Hsyms Hsyms' Hlen Henc Henc'.
  pose proof (round_trip b umax fuel t syms bits Hb Hfuel Ht Hlim Htot Hsyms Henc)
    as Hdec.
  pose proof (round_trip b umax' fuel t syms' bits Hb Hfuel Ht Hlim Htot Hsyms' Henc')
    as Hdec'.
  rewrite Hlen in Hdec. congruence.
Qed.

Lemma X11_encode_injective_witness :
  exists bits,
    encode 32 UINT64_MAX 64 (table_of_freqs [1; 1; 2]) [0; 2; 1] = Ok bits /\
    encode 32 100 64 (table_of_freqs [1; 1; 2]) [0; 2; 1] = Ok bits /\
    [0; 2; 1] = [0; 2; 1].
Proof.
  destruct (encode 32 UINT64_MAX 64 (table_of_freqs [1; 1; 2]) [0; 2; 1])
    as [bits|er] eqn:Henc; [|vm_compute in Henc; discriminate].
  assert (Henc' : encode 32 100 64 (table_of_freqs [1; 1; 2]) [0; 2; 1] = Ok bits).
  { vm_compute in Henc. injection Henc as <-. vm_compute. reflexivity. }
  exists bits. split; [reflexivity|]. split; [exact Henc'|].
  assert (Ht : table_contract (table_of_freqs [1; 1; 2])).
  { apply table_of_freqs_contract;
      [discriminate | repeat (apply Forall_cons; [lia|]); apply Forall_nil]. }
  assert (Hs : symbols_ok (table_of_freqs [1; 1; 2]) [0; 2; 1]).
  { unfold symbols_ok. repeat (apply Forall_cons; [simpl; lia|]). apply Forall_nil. }
  assert (Hlim : getSymbolLimit (table_of_freqs [1; 1; 2]) <= 2 ^ 31) by (simpl; lia).
  assert (Htot : getTotal (table_of_freqs [1; 1; 2]) <= maxTotal 32)
    by (vm_compute; discriminate).
  exact (X11_encode_injective 32 UINT64_MAX 100 64 (table_of_freqs [1; 1; 2])
           [0; 2; 1] [0; 2; 1] bits ltac:(lia) ltac:(lia) Ht Hlim Htot Hs Hs
           eq_refl Henc Henc').
Defined.

(** ** The window of a new decoder *)

Lemma val_short (G : list Z) : forall n, (length G <= n)%nat ->
  val n G = val (length G) G * 2 ^ Z.of_nat (n - length G).
Proof.
  induction G as [|x G IH]; intros n Hn.
  - rewrite val_nil. reflexivity.
  - destruct n as [|n]; [cbn [length] in Hn; lia|].
    cbn [length] in Hn |- *. cbn [val hd tl Nat.sub].
    rewrite (IH n) by lia.
    replace (2 ^ Z.of_nat n)
      with (2 ^ Z.of_nat (length G) * 2 ^ Z.of_nat (n - length G)); [ring|].
    rewrite <- Z.pow_add_r by lia. f_equal. lia.
Qed.

(** X12. The window of a new decoder: for a state size b in [1, 63] and a
    stream of bits, the constructor takes the first b bits of the stream,
    most significant first, as its window [code], and leaves the rest as
    input; a stream of fewer than b bits is taken whole, as the high bits of
    the window, and the missing low bits are zeros. *)
Theorem X12_decoder_window (b : Z) (inp : list Z) :
  1 <= b <= 63 -> Forall is_bit inp ->
  exists c d, ArithmeticDecoder_new b inp = Ok (c, d) /\
    code d = val (Z.to_nat b) inp /\ 0 <= code d < 2 ^ b /\
    input d = skipn (Z.to_nat b) inp /\
    (Z.of_nat (length inp) <= b ->
     input d = [] /\
     code d = val (length inp) inp * 2 ^ (b - Z.of_nat (length inp))).
Proof.
  intros Hb Hinp.
  destruct (ArithmeticDecoder_new_ok b inp Hb Hinp)
    as (c & d & E & _ & El & Eh & _ & [Hlo Hhi] & _ & Ecode & Einp).
  exists c, d. split; [exact E|]. split; [exact Ecode|].
  split; [lia|]. split; [exact Einp|].
  intros Hshort. split.
  - rewrite Einp. apply skipn_all2. lia.
  - rewrite Ecode, val_short by lia. do 2 f_equal. lia.
Qed.

Lemma X12_decoder_window_witness :
  exists c d, ArithmeticDecoder_new 8 [1; 0; 1] = Ok (c, d) /\
    code d = 5 * 2 ^ 5 /\ input d = [].
Proof.
  destruct (X12_decoder_window 8 [1; 0; 1]) as (c & d & E & _ & _ & _ & Hshort).
  - lia.
  - repeat (apply Forall_cons; [(left; reflexivity) || (right; reflexivity)|]).
    apply Forall_nil.
  - destruct Hshort as [Ei Ec]; [simpl; lia|].
    exists c, d. split; [exact E|]. split; [exact Ec | exact Ei].
Defined.

(** ** Failures that leave the state as it was *)

Lemma read_error (fuel : nat) (t : FrequencyTable)
    (c : ArithmeticCoderBase) (d : DecoderState) (er : error) st :
  read fuel t c d = (Err er, st) ->
  st = (c, d) \/ er = CodeOutOfRange \/ er = OutOfFuel.
Proof.
  unfold read. intros Hrun.
  repeat match type of Hrun with
         | (if ?x then _ else _) = _ =>
             destruct x; [injection Hrun as <- <-; left; reflexivity|]
         end.
  cbv zeta in Hrun.
  repeat match type of Hrun with
         | (if ?x then _ else _) = _ =>
             destruct x; [injection Hrun as <- <-; left; reflexivity|]
         end.
  match type of Hrun with
  | match ?x with _ => _ end = _ => destruct x as [[start end_]|];
      [|injection Hrun as <- <-; left; reflexivity]
  end.
  repeat match type of Hrun with
         | (if ?x then _ else _) = _ =>
             destruct x; [injection Hrun as <- <-; left; reflexivity|]
         end.
  destruct (update fuel t start c d) as [[[]|e1] [c' d']] eqn:Eu.
  - destruct ((code d' <? low c') || (code d' >? high c'));
      [injection Hrun as <- <-; right; left; reflexivity | discriminate].
  - injection Hrun as <- <-.
    destruct (update_error fuel t start c d e1 (c', d') Eu) as [[Est _] | Hhook].
    + left. exact Est.
    + right. right. exact (decoder_hook_error e1 Hhook).
Qed.

(** X13. Only two failures can leave a changed state behind. A [write] that
    fails with anything but the overflow error of the underflow counter
    (whatever failed: a defensive check of the interval, a rejected
    argument) leaves the interval, the count and the output as they were;
    a [read] that fails with anything but the code-out-of-range check, which
    follows the update, leaves the interval, the window and the input as
    they were. (Running out of fuel stands for a loop that does not end.) *)
Theorem X13_failures_leave_state (umax : Z) (fuel : nat) (t : FrequencyTable) (s : Z)
    (c : ArithmeticCoderBase) (e : EncoderState) (d : DecoderState)
    (er : error) (ste : ArithmeticCoderBase * EncoderState)
    (std : ArithmeticCoderBase * DecoderState) :
  er <> OutOfFuel ->
  (write umax fuel t s c e = (Err er, ste) ->
   er <> MaximumUnderflowReached -> ste = (c, e)) /\
  (read fuel t c d = (Err er, std) ->
   er <> CodeOutOfRange -> std = (c, d)).
Proof.
  intros Hfuel. split; intros Hrun Hne.
  - unfold write in Hrun.
    destruct (@update_error _ (EncoderHooks umax) fuel t s c e er ste Hrun)
      as [[Est _] | Hhook]; [exact Est|].
    destruct (encoder_hook_error umax er Hhook); contradiction.
  - destruct (read_error fuel t c d er std Hrun) as [Est | [E | E]];
      [exact Est | contradiction | contradiction].
Qed.

(** State size 8 with the interval [5, 5], which the invariant excludes:
    the first check of [update] fails and nothing has changed. *)
Lemma X13_failures_leave_state_witness :
  write UINT64_MAX 64 (table_of_freqs [1; 1]) 0 (with_interval coder8 5 5)
        {| output := [1; 0]; numUnderflow := 3 |}
  = (Err LowOrHighOutOfRange,
     (with_interval coder8 5 5, {| output := [1; 0]; numUnderflow := 3 |})).
Proof.
  destruct (write UINT64_MAX 64 (table_of_freqs [1; 1]) 0 (with_interval coder8 5 5)
              {| output := [1; 0]; numUnderflow := 3 |}) as [r ste] eqn:Ew.
  assert (Er : r = Err LowOrHighOutOfRange).
  { vm_compute in Ew. injection Ew as <- _. reflexivity. }
  subst r. f_equal.
  apply (X13_failures_leave_state UINT64_MAX 64 (table_of_freqs [1; 1]) 0
           (with_interval coder8 5 5) {| output := [1; 0]; numUnderflow := 3 |}
           {| input := []; code := 0 |} LowOrHighOutOfRange ste
           (with_interval coder8 5 5, {| input := []; code := 0 |}));
    [discriminate | exact Ew | discriminate].
Defined.

(** ** The largest total *)

Lemma pow2_div_max (b : Z) : 1 <= b <= 63 ->
  UINT64_MAX / 2 ^ b = 2 ^ (64 - b) - 1.
Proof.
  intros Hb. unfold UINT64_MAX.
  assert (Hp : 0 < 2 ^ b) by (apply Z.pow_pos_nonneg; lia).
  assert (E : 2 ^ 64 = 2 ^ (64 - b) * 2 ^ b)
    by (rewrite <- Z.pow_add_r by lia; f_equal; lia).
  symmetry. apply (Z.div_unique _ _ _ (2 ^ b - 1)); [lia|]. rewrite E. lia.
Qed.

(** X14. The largest total the coder accepts, as the constructor computes
    it: 2^(b-2) + 2 for a state size b of 2 to 32 (and 2 for b = 1), where
    the minimum range is the smaller bound, and 2^(64-b) - 1 for b of 33 to
    63, where the 64-bit product is; so it is at least 1 and at most
    2^31 - 1, and it is 1 at state size 63. *)
Theorem X14_max_total (b : Z) :
  1 <= b <= 63 ->
  exists c, ArithmeticCoderBase_new b = Ok c /\
    MAX_TOTAL c = (if b <=? 32 then 2 ^ b / 4 + 2 else 2 ^ (64 - b) - 1) /\
    1 <= MAX_TOTAL c <= 2 ^ 31 - 1 /\
    (b = 63 -> MAX_TOTAL c = 1).
Proof.
  intros Hb.
  destruct (ArithmeticCoderBase_new_ok b Hb) as (c & E & Hc & _).
  exists c. split; [exact E|].
  rewrite (MAX_TOTAL_maxTotal b c Hc). unfold maxTotal.
  rewrite (pow2_div_max b Hb).
  assert (Hq : 0 <= 2 ^ b / 4) by (apply Z.div_pos; [apply Z.pow_nonneg|]; lia).
  destruct (Z.leb_spec b 32) as [Hle|Hgt].
  - assert (H1 : 2 ^ 32 <= 2 ^ (64 - b)) by (apply Z.pow_le_mono_r; lia).
    assert (H2 : 2 ^ b <= 2 ^ 32) by (apply Z.pow_le_mono_r; lia).
    assert (H3 : 2 ^ b / 4 <= 2 ^ 32 / 4) by (apply Z.div_le_mono; lia).
    change (2 ^ 32 / 4) with (2 ^ 30) in H3.
    assert (E32 : 2 ^ 32 = 4 * 2 ^ 30) by reflexivity.
    assert (E31 : 2 ^ 31 = 2 * 2 ^ 30) by reflexivity.
    assert (P30 : 0 < 2 ^ 30) by reflexivity.
    split; [lia|]. split; [lia|]. intros ->. lia.
  - assert (H1 : 2 ^ (64 - b) <= 2 ^ 31) by (apply Z.pow_le_mono_r; lia).
    assert (H2 : 2 ^ 1 <= 2 ^ (64 - b)) by (apply Z.pow_le_mono_r; lia).
    assert (H3 : 2 ^ 33 <= 2 ^ b) by (apply Z.pow_le_mono_r; lia).
    assert (H4 : 2 ^ 33 / 4 <= 2 ^ b / 4) by (apply Z.div_le_mono; lia).
    change (2 ^ 33 / 4) with (2 ^ 31) in H4. change (2 ^ 1) with 2 in H2.
    split; [lia|]. split; [lia|]. intros ->. reflexivity.
Qed.

Lemma X14_max_total_witness :
  exists c, ArithmeticCoderBase_new 33 = Ok c /\ MAX_TOTAL c = 2 ^ 31 - 1.
Proof.
  destruct (X14_max_total 33) as (c & E & Emax & _); [lia|].
  exists c. split; [exact E | exact Emax].
Defined.

(** X15. Room for the pending bits: from a state within the invariant and
    for a symbol of nonzero frequency, a [write] leaves at most b - 1 more
    pending underflow bits than it found, and it succeeds whenever the
    counter has room for that many; at state size 1 the encoder never
    defers a bit. *)
Theorem X15_write_pending_bound (umax b : Z) (fuel : nat) (t : FrequencyTable) (s : Z)
    (c : ArithmeticCoderBase) (e : EncoderState) :
  1 <= b <= 63 -> coder_consts b c -> state_ok c ->
  table_contract t -> getTotal t <= MAX_TOTAL c ->
  0 <= s < getSymbolLimit t -> getLow t s <> getHigh t s ->
  b <= Z.of_nat fuel ->
  0 <= numUnderflow e -> numUnderflow e + (b - 1) <= umax ->
  exists c' e', write umax fuel t s c e = (Ok tt, (c', e')) /\
    0 <= numUnderflow e' <= numUnderflow e + (b - 1).
Proof.
  intros Hb Hc Hok Ht Htot Hs Hne Hf Hnu Hroom.
  destruct (symbol_codable t c s Ht Htot Hs Hne) as [Hcod _].
  destruct (write_succeeds umax b fuel t s c e Hb Hc Hok Hcod Hf Hnu Hroom)
    as (c' & e' & E & _ & _ & Hnu').
  exists c', e'. split; [exact E | exact Hnu'].
Qed.

Lemma X15_write_pending_bound_witness :
  exists c' e',
    write 7 8 (table_of_freqs [1; 2; 1]) 1 coder8 {| output := []; numUnderflow := 0 |}
    = (Ok tt, (c', e')) /\
    0 <= numUnderflow e' <= 0 + (8 - 1).
Proof.
  apply (X15_write_pending_bound 7 8 8 (table_of_freqs [1; 2; 1]) 1 coder8
           {| output := []; numUnderflow := 0 |}).
  - lia.
  - repeat split.
  - unfold state_ok. cbn. lia.
  - apply table_of_freqs_contract;
      [discriminate | repeat (apply Forall_cons; [lia|]); apply Forall_nil].
  - cbn. lia.
  - cbn. lia.
  - simpl. lia.
  - lia.
  - cbn. lia.
  - cbn. lia.
Defined.

(** ** The cost of a symbol *)

Lemma narrow_size_lower (b : Z) (c : ArithmeticCoderBase) (t : FrequencyTable) (s : Z) :
  1 <= b <= 63 -> coder_consts b c -> state_ok c -> codable c t s ->
  (getHigh t s - getLow t s) * interval_size c / getTotal t
  <= interval_size (narrow c (getLow t s) (getHigh t s) (getTotal t)).
Proof.
  intros Hb Hc Hok Hcod. pose proof Hcod as (H0 & Hlt & Hle & Hmax).
  destruct (narrow_spec b c Hb Hc _ _ _ Hok H0 Hlt Hle Hmax) as (El & Eh & _).
  cbv zeta in El, Eh. unfold interval_size. rewrite El, Eh.
  set (r := high c - low c + 1) in *.
  set (T := getTotal t) in *. set (L := getLow t s) in *. set (Hi := getHigh t s) in *.
  assert (HT : 0 < T) by lia.
  assert (Hr : 0 < r) by (destruct Hok as (_ & ? & _); subst r; lia).
  pose proof (Z.mul_div_le (L * r) T HT) as Ha.
  pose proof (Z.mul_div_le ((Hi - L) * r) T HT) as Hq.
  assert (Hsum : L * r / T + (Hi - L) * r / T <= Hi * r / T).
  { apply Z.div_le_lower_bound; [exact HT|]. nia. }
  lia.
Qed.

Lemma symbol_cost (b k : Z) (c c' : ArithmeticCoderBase) (t : FrequencyTable) (s : Z) :
  1 <= b <= 63 -> coder_consts b c -> state_ok c -> codable c t s ->
  coder_consts b c' -> state_ok c' -> 0 <= k ->
  interval_size c'
  = 2 ^ k * interval_size (narrow c (getLow t s) (getHigh t s) (getTotal t)) ->
  2 ^ k * (getHigh t s - getLow t s) < 8 * getTotal t.
Proof.
  intros Hb Hc Hok Hcod Hc' Hok' Hk Esize.
  pose proof (narrow_size_lower b c t s Hb Hc Hok Hcod) as Hlow.
  pose proof Hcod as (H0 & Hlt & Hle & Hmax).
  pose proof (coder_consts_facts b c Hb Hc) as (H1 & Hf & Hm & Hmn & Hq & Hmt & _).
  pose proof (coder_consts_facts b c' Hb Hc') as (_ & Hf' & _).
  assert (Ehalf : halfRange c' = halfRange c).
  { destruct Hc as (_ & _ & -> & _). destruct Hc' as (_ & _ & -> & _). reflexivity. }
  destruct Hok as (_ & _ & _ & Hmin & _). destruct Hok' as (_ & _ & _ & _ & Hfull').
  fold (interval_size c) in Hmin. fold (interval_size c') in Hfull'.
  set (r := interval_size c) in *.
  set (rn := interval_size (narrow c (getLow t s) (getHigh t s) (getTotal t))) in *.
  set (T := getTotal t) in *. set (f := getHigh t s - getLow t s) in *.
  set (q := f * r / T) in *.
  assert (HT : 0 < T) by lia.
  assert (Hfpos : 0 < f) by (subst f; lia).
  assert (Hp : 0 < 2 ^ k) by (apply Z.pow_pos_nonneg; lia).
  (* the interval is more than a quarter of the full range *)
  assert (H4r : 2 ^ k * rn < 4 * r) by lia.
  (* q is the quotient of f * r by T, and at least 1 *)
  assert (Hq1 : T * q <= f * r) by (apply Z.mul_div_le; exact HT).
  assert (Hq2 : f * r < T * q + T).
  { pose proof (Z.mul_succ_div_gt (f * r) T HT). fold q in H. lia. }
  assert (Hq3 : 1 <= q).
  { apply Z.div_le_lower_bound; [exact HT|]. nia. }
  destruct (Z_lt_ge_dec (2 ^ k * f) (8 * T)) as [Hdone|Hbig]; [exact Hdone|].
  exfalso.
  assert (A1 : 2 ^ k * q < 4 * r) by nia.
  assert (A2 : 8 * T * q <= 2 ^ k * f * q) by nia.
  assert (A3 : 2 ^ k * q * f < 4 * r * f) by nia.
  assert (A4 : 2 * (T * q) < r * f) by nia.
  nia.
Qed.

(** X16. The cost of a symbol: from a state within the invariant, the k
    bits that a successful [write] appends to the output or defers as
    pending for a symbol of frequency f = getHigh - getLow in a table of
    total T satisfy 2^k * f < 8 * T, that is, fewer than log2(T / f) + 3
    bits: a frequent symbol is cheap. *)
Theorem X16_symbol_cost (umax b : Z) (fuel : nat) (t : FrequencyTable) (s : Z)
    (c c' : ArithmeticCoderBase) (e e' : EncoderState) :
  1 <= b <= 63 -> coder_consts b c -> state_ok c ->
  table_contract t -> getTotal t <= MAX_TOTAL c ->
  0 <= s < getSymbolLimit t -> getLow t s <> getHigh t s ->
  b <= Z.of_nat fuel -> 0 <= numUnderflow e ->
  write umax fuel t s c e = (Ok tt, (c', e')) ->
  exists em k, output e' = output e ++ em /\ 0 <= k /\
    Z.of_nat (length em) + numUnderflow e' = numUnderflow e + k /\
    2 ^ k * (getHigh t s - getLow t s) < 8 * getTotal t.
Proof.
  intros Hb Hc Hok Ht Htot Hs Hne Hf Hnu Hrun.
  destruct (symbol_codable t c s Ht Htot Hs Hne) as [Hcod _].
  destruct (write_written umax b fuel t s c c' e e' Hb Hc Hok Hcod Hf Hnu Hrun)
    as (Hc' & Hren' & em & k & Eo & Hbits & Hnu' & Hk & Elen & Esize).
  exists em, k. split; [exact Eo|]. split; [exact Hk|]. split; [exact Elen|].
  exact (symbol_cost b k c c' t s Hb Hc Hok Hcod Hc'
           (renormalized_state_ok b c' Hb Hc' Hren') Hk Esize).
Qed.

Lemma X16_symbol_cost_witness :
  exists em k, [0; 0] = [] ++ em /\ 0 <= k /\
    Z.of_nat (length em) + 0 = 0 + k /\ 2 ^ k * (1 - 0) < 8 * 4.
Proof.
  apply (X16_symbol_cost UINT64_MAX 8 8 (table_of_freqs [1; 2; 1]) 0
           coder8 coder8 {| output := []; numUnderflow := 0 |}
           {| output := [0; 0]; numUnderflow := 0 |}).
  - lia.
  - repeat split.
  - unfold state_ok. cbn. lia.
  - apply table_of_freqs_contract;
      [discriminate | repeat (apply Forall_cons; [lia|]); apply Forall_nil].
  - cbn. lia.
  - cbn. lia.
  - cbn. lia.
  - lia.
  - cbn. lia.
  - vm_compute. reflexivity.
Defined.

(** ** The interval does not depend on the hooks *)

Section TwoCoders.
Context {X Y : Type} (hx : CoderHooks X) (hy : CoderHooks Y).

Lemma shift_loop_same_interval (fuel : nat) : forall c x y c1 x1 c2 y2,
  @shift_loop _ hx fuel c x = (Ok tt, (c1, x1)) ->
  @shift_loop _ hy fuel c y = (Ok tt, (c2, y2)) ->
  c1 = c2.
Proof.
  induction fuel as [|f IH]; intros c x y c1 x1 c2 y2 Hx Hy;
    cbn [shift_loop] in Hx, Hy.
  - destruct (top_bits_equal c); [discriminate|]. congruence.
  - destruct (top_bits_equal c); [|congruence].
    destruct (@shift _ hx c x) as [x'|]; [|discriminate].
    destruct (@shift _ hy c y) as [y'|]; [|discriminate].
    exact (IH _ _ _ _ _ _ _ Hx Hy).
Qed.

Lemma underflow_loop_same_interval (fuel : nat) : forall c x y c1 x1 c2 y2,
  @underflow_loop _ hx fuel c x = (Ok tt, (c1, x1)) ->
  @underflow_loop _ hy fuel c y = (Ok tt, (c2, y2)) ->
  c1 = c2.
Proof.
  induction fuel as [|f IH]; intros c x y c1 x1 c2 y2 Hx Hy;
    cbn [underflow_loop] in Hx, Hy.
  - destruct (second_bits_straddle c); [discriminate|]. congruence.
  - destruct (second_bits_straddle c); [|congruence].
    destruct (@underflow _ hx c x) as [x'|]; [|discriminate].
    destruct (@underflow _ hy c y) as [y'|]; [|discriminate].
    exact (IH _ _ _ _ _ _ _ Hx Hy).
Qed.

Lemma update_same_interval (fuel : nat) (t : FrequencyTable) (s : Z)
    (c : ArithmeticCoderBase) (x : X) (y : Y) c1 x1 c2 y2 :
  @update _ hx fuel t s c x = (Ok tt, (c1, x1)) ->
  @update _ hy fuel t s c y = (Ok tt, (c2, y2)) ->
  c1 = c2.
Proof.
  unfold update. intros Hx Hy.
  repeat match type of Hx with
         | (if ?b then _ else _) = _ => destruct b; [discriminate|]
         end.
  cbv zeta in Hx, Hy.
  repeat match type of Hx with
         | (if ?b then _ else _) = _ => destruct b; [discriminate|]
         end.
  unfold renormalize in Hx, Hy.
  destruct (@shift_loop _ hx fuel _ x) as [[[]|] [c1' x1']] eqn:Ex; [|discriminate].
  destruct (@shift_loop _ hy fuel _ y) as [[[]|] [c2' y2']] eqn:Ey; [|discriminate].
  pose proof (shift_loop_same_interval fuel _ _ _ _ _ _ _ Ex Ey) as <-.
  exact (underflow_loop_same_interval fuel _ _ _ _ _ _ _ Hx Hy).
Qed.
End TwoCoders.

(** X17. What [read] returns: with a state within the invariant, the window
    in the interval, a table of the contract with at most 2^31 symbols and a
    total between 1 and MAX_TOTAL, [read] returns the symbol of nonzero
    frequency whose narrowed interval holds the window, and the interval it
    leaves is the one any encoder is left with after a successful [write] of
    that symbol from the same interval. *)
Theorem X17_read_returns_symbol (b : Z) (fuel : nat) (t : FrequencyTable)
    (c : ArithmeticCoderBase) (d : DecoderState) :
  1 <= b <= 63 -> coder_consts b c -> state_ok c -> code_ok c d ->
  Forall is_bit (input d) ->
  table_contract t -> getSymbolLimit t <= 2 ^ 31 ->
  1 <= getTotal t <= MAX_TOTAL c -> (64 <= fuel)%nat ->
  exists s c' d', read fuel t c d = (Ok s, (c', d')) /\
    0 <= s < getSymbolLimit t /\ getLow t s < getHigh t s /\
    (let cn := narrow c (getLow t s) (getHigh t s) (getTotal t) in
     low cn <= code d <= high cn) /\
    forall umax e c1 e1,
      write umax fuel t s c e = (Ok tt, (c1, e1)) -> c1 = c'.
Proof.
  intros Hb Hc Hok Hcode Hbits Ht Hlim Htot Hfuel.
  destruct (read_ok b fuel t c d Hb Hc Hok Hcode Hbits Ht Hlim Htot
              ltac:(lia) ltac:(lia))
    as (s & c' & d' & Er & Hs & Hcod & [Hlo Hhi] & Eu & _).
  exists s, c', d'. split; [exact Er|]. split; [exact Hs|].
  split; [apply Hcod|]. split; [cbv zeta; lia|].
  intros umax e c1 e1 Hw. unfold write in Hw.
  exact (update_same_interval (EncoderHooks umax) DecoderHooks fuel t s c e d
           c1 e1 c' d' Hw Eu).
Qed.

Lemma X17_read_returns_symbol_witness :
  exists s c' d',
    read 64 (table_of_freqs [1; 2; 1]) coder8 {| input := [1; 0; 1]; code := 200 |}
    = (Ok s, (c', d')) /\
    (let cn := narrow coder8 (getLow (table_of_freqs [1; 2; 1]) s)
                 (getHigh (table_of_freqs [1; 2; 1]) s) 4 in
     low cn <= 200 <= high cn).
Proof.
  destruct (X17_read_returns_symbol 8 64 (table_of_freqs [1; 2; 1]) coder8
              {| input := [1; 0; 1]; code := 200 |})
    as (s & c' & d' & Er & _ & _ & Hin & _).
  - lia.
  - repeat split.
  - unfold state_ok. cbn. lia.
  - unfold code_ok. cbn. lia.
  - repeat (apply Forall_cons; [(left; reflexivity) || (right; reflexivity)|]).
    apply Forall_nil.
  - apply table_of_freqs_contract;
      [discriminate | repeat (apply Forall_cons; [lia|]); apply Forall_nil].
  - cbn. lia.
  - cbn. lia.
  - lia.
  - exists s, c', d'. split; [exact Er | exact Hin].
Defined.

(** ** The defensive checks *)

Lemma checks_pass_state_ok (b : Z) (c : ArithmeticCoderBase) :
  1 <= b <= 63 -> coder_consts b c ->
  (low c >=? high c) || negb (Z.land (low c) (MASK c) =? low c)
    || negb (Z.land (high c) (MASK c) =? high c) = false ->
  (u64 (high c - low c + 1) <? MIN_RANGE c)
    || (u64 (high c - low c + 1) >? fullRange c) = false ->
  state_ok c.
Proof.
  intros Hb Hc H1 H2.
  pose proof (coder_consts_facts b c Hb Hc) as (Hh & Hf & Hm & Hmn & Hq & Hmt & Hprod & Hfull).
  apply orb_false_elim in H1 as [H1 H1c]. apply orb_false_elim in H1 as [H1a H1b].
  apply negb_false_iff, Z.eqb_eq in H1b, H1c.
  rewrite (land_mask b c Hb Hc) in H1b, H1c.
  pose proof (Z.mod_pos_bound (low c) (fullRange c) ltac:(lia)) as Bl.
  pose proof (Z.mod_pos_bound (high c) (fullRange c) ltac:(lia)) as Bh.
  rewrite H1b in Bl. rewrite H1c in Bh.
  assert (H64 : 2 ^ 63 < 2 ^ 64) by reflexivity.
  rewrite (u64_small (high c - low c + 1)) in H2 by lia.
  apply orb_false_elim in H2 as [H2a H2b].
  unfold state_ok. lia.
Qed.

(** X18. The defensive checks of [update] guard the invariant exactly: for
    a coder with the constants of a state size in [1, 63], a [write] stops
    at one of the two checks of the interval, with the state untouched,
    exactly when the interval violates the invariant of the data model. *)
Theorem X18_checks_guard_invariant (umax b : Z) (fuel : nat) (t : FrequencyTable)
    (s : Z) (c : ArithmeticCoderBase) (e : EncoderState) :
  1 <= b <= 63 -> coder_consts b c ->
  (~ state_ok c <->
   exists er, (er = LowOrHighOutOfRange \/ er = RangeOutOfRange) /\
     write umax fuel t s c e = (Err er, (c, e))).
Proof.
  intros Hb Hc. split.
  - intros Hbad. unfold write, update.
    destruct ((low c >=? high c) || negb (Z.land (low c) (MASK c) =? low c)
              || negb (Z.land (high c) (MASK c) =? high c)) eqn:E1.
    { exists LowOrHighOutOfRange. split; [left|]; reflexivity. }
    cbv zeta.
    destruct ((u64 (high c - low c + 1) <? MIN_RANGE c)
              || (u64 (high c - low c + 1) >? fullRange c)) eqn:E2.
    { exists RangeOutOfRange. split; [right|]; reflexivity. }
    exfalso. apply Hbad. exact (checks_pass_state_ok b c Hb Hc E1 E2).
  - intros (er & Her & Hrun) Hok.
    destruct (state_checks_pass b c Hb Hc Hok) as [E1 E2].
    unfold write, update in Hrun. rewrite E1 in Hrun. cbv zeta in Hrun.
    rewrite E2 in Hrun.
    repeat match type of Hrun with
           | (if ?x then _ else _) = _ =>
               destruct x; [destruct Her as [-> | ->]; discriminate Hrun|]
           end.
    apply (@renormalize_error _ (EncoderHooks umax)) in Hrun.
    destruct (encoder_hook_error umax er Hrun) as [-> | ->];
      destruct Her; discriminate.
Qed.

Lemma X18_checks_guard_invariant_witness :
  ~ state_ok (with_interval coder8 5 5) /\
  exists er, (er = LowOrHighOutOfRange \/ er = RangeOutOfRange) /\
    write UINT64_MAX 64 (table_of_freqs [1; 1]) 0 (with_interval coder8 5 5)
          {| output := []; numUnderflow := 0 |}
    = (Err er, (with_interval coder8 5 5, {| output := []; numUnderflow := 0 |})).
Proof.
  assert (Hbad : ~ state_ok (with_interval coder8 5 5)).
  { unfold state_ok. cbn. lia. }
  split; [exact Hbad|].
  apply (X18_checks_guard_invariant UINT64_MAX 8 64 (table_of_freqs [1; 1]) 0
           (with_interval coder8 5 5) {| output := []; numUnderflow := 0 |}).
  - lia.
  - repeat split.
  - exact Hbad.
Defined.

(** ** How far the decoder reads *)

Lemma read_all_consumed (b : Z) (fuel : nat) (t : FrequencyTable) :
  1 <= b <= 63 -> table_contract t -> getSymbolLimit t <= 2 ^ 31 ->
  1 <= getTotal t <= maxTotal b -> (31 <= fuel)%nat -> b <= Z.of_nat fuel ->
  forall n c d,
  coder_consts b c -> state_ok c -> code_ok c d -> Forall is_bit (input d) ->
  exists syms c' d' K, read_all fuel t n c d = (Ok syms, (c', d')) /\
    0 <= K <= b * Z.of_nat n /\
    input d' = skipn (Z.to_nat K) (input d).
Proof.
  intros Hb Ht Hlim Htot Hf1 Hf2.
  induction n as [|n IH]; intros c d Hc Hok Hcode Hbits; cbn [read_all].
  - exists [], c, d, 0. split; [reflexivity|]. split; [lia | reflexivity].
  - assert (Htot' : 1 <= getTotal t <= MAX_TOTAL c)
      by (rewrite (MAX_TOTAL_maxTotal b c Hc); exact Htot).
    destruct (read_ok b fuel t c d Hb Hc Hok Hcode Hbits Ht Hlim Htot' Hf1 Hf2)
      as (s & c1 & d1 & -> & Hs & Hcod & Hin & Eu & Hc1 & Hren1 & Hcode1 & Hbits1).
    pose proof (renormalized_state_ok b c1 Hb Hc1 Hren1) as Hok1.
    destruct (decoder_update_consumed b fuel t s c c1 d d1 Hb Hc Hok Hcod Hbits Hin
                Hf2 Eu) as (_ & _ & k & Hk & Ei & Esize).
    pose proof (doublings_bound b k _ c1 Hb Hc1 Hok1 Hk
                  (narrow_size_pos b c t s Hb Hc Hok Hcod) Esize) as Hkb.
    destruct (IH c1 d1 Hc1 Hok1 Hcode1 Hbits1)
      as (syms & c2 & d2 & K & -> & HK & Ei2).
    exists (s :: syms), c2, d2, (k + K). split; [reflexivity|].
    split; [lia|].
    rewrite Ei2, Ei, skipn_skipn. f_equal. lia.
Qed.

(** X19. How far the decoder reads: for a state size b in [1, 63] and a
    table of the contract with at most 2^31 symbols and a total between 1
    and the coder's maximum, a decoder constructed on a stream of bits that
    has then read n symbols has taken at least b and at most b * (n + 1)
    bits from the front of the stream, and the rest of the stream is
    untouched. *)
Theorem X19_decoder_reads_at_most (b : Z) (fuel : nat) (t : FrequencyTable)
    (n : nat) (bits : list Z) :
  1 <= b <= 63 -> (64 <= fuel)%nat ->
  table_contract t -> getSymbolLimit t <= 2 ^ 31 ->
  1 <= getTotal t <= maxTotal b ->
  Forall is_bit bits ->
  exists c d syms c' d' K,
    ArithmeticDecoder_new b bits = Ok (c, d) /\
    read_all fuel t n c d = (Ok syms, (c', d')) /\
    b <= K <= b * (Z.of_nat n + 1) /\
    input d' = skipn (Z.to_nat K) bits.
Proof.
  intros Hb Hfuel Ht Hlim Htot Hbits.
  destruct (ArithmeticDecoder_new_ok b bits Hb Hbits)
    as (c & d & E & Hc & _ & _ & Hok & Hcode & Hinp & _ & Ei).
  destruct (read_all_consumed b fuel t Hb Ht Hlim Htot ltac:(lia) ltac:(lia)
              n c d Hc Hok Hcode Hinp)
    as (syms & c' & d' & K & Er & HK & Ei').
  exists c, d, syms, c', d', (b + K). split; [exact E|]. split; [exact Er|].
  split; [lia|].
  rewrite Ei', Ei, skipn_skipn. f_equal. lia.
Qed.

Lemma X19_decoder_reads_at_most_witness :
  exists c d syms c' d' K,
    ArithmeticDecoder_new 8 (repeat 1 40) = Ok (c, d) /\
    read_all 64 (table_of_freqs [1; 2; 1]) 2 c d = (Ok syms, (c', d')) /\
    8 <= K <= 8 * (2 + 1) /\
    input d' = skipn (Z.to_nat K) (repeat 1 40).
Proof.
  apply (X19_decoder_reads_at_most 8 64 (table_of_freqs [1; 2; 1]) 2 (repeat 1 40)).
  - lia.
  - lia.
  - apply table_of_freqs_contract;
      [discriminate | repeat (apply Forall_cons; [lia|]); apply Forall_nil].
  - simpl. lia.
  - split; vm_compute; discriminate.
  - apply bits_repeat. right. reflexivity.
Defined.
